(** * xpens: offline-first synchronisation core

  A shallow embedding of the merge engine ([lib/supabase-sync.ts]), the
  local store ([lib/storage.ts]) and the sync orchestrator
  ([lib/AppContext.tsx]) of the xpens finance tracker, followed by the
  properties established about them.

  Conventions of the embedding:
  - a JS [string] is a Rocq [string]; relational comparison of two
  strings is lexicographic on code units, as [String.compare];
  - a JS [number] is a type parameter [num] carrying the two operations
  the code uses ([+] and [-]); its instance for the running code is
  IEEE-754 binary64 ([float]), and [Z] is the instance of exact
  arithmetic, which the binary64 run follows as long as no operation
  rounds ([Binary64]);
  - an optional field is an [option]; [None] is [undefined]; the
  timestamp [updatedAt], which a remote row can hand over as [null], is
  a [Js.value];
  - a JS [Map] is an association list in insertion order;
  - an [async] function is a function of the world returning a settled
  promise ([Resolved] or [Rejected]) and the world after it. *)

From Stdlib Require Import List String Ascii Bool ZArith Lia Permutation Floats.
Import ListNotations.

Set Warnings "-inexact-float,-notation-for-abbreviation".
Set Implicit Arguments.

Open Scope string_scope.
Open Scope list_scope.

(* ================================================================== *)
(** * JavaScript values used by the code *)

Module Js.

(** What a field declared [string] holds at run time: a string,
  [undefined] when the property is absent, or [null], which is what a
  remote row gives for a NULL column. *)
Inductive value :=
| undefined
| null
| str (s : string).

(** ** [ToNumber] of a string

  [StringToNumber] parses the string as a [StringNumericLiteral]:
  optional white space, then nothing or one numeric literal, then
  optional white space.  A comparison of a string with [null] converts
  both sides, [null] to [+0]; so what is kept of the number is how it
  compares with zero. *)
Inductive number_sign :=
| is_NaN
| below_zero
| is_zero
| above_zero.

Definition bytes (l : list nat) : string :=
  fold_right (fun n s => String (ascii_of_nat n) s) EmptyString l.

(** [StrWhiteSpaceChar]: the code points of [WhiteSpace] and
  [LineTerminator], in UTF-8. *)
Definition StrWhiteSpaceChar : list string :=
  map bytes
    [ [9]; [10]; [11]; [12]; [13]; [32];        (* TAB LF VT FF CR SP *)
      [194; 160];                               (* U+00A0 *)
      [225; 154; 128];                          (* U+1680 *)
      [226; 128; 128]; [226; 128; 129]; [226; 128; 130]; [226; 128; 131];
      [226; 128; 132]; [226; 128; 133]; [226; 128; 134]; [226; 128; 135];
      [226; 128; 136]; [226; 128; 137]; [226; 128; 138];   (* U+2000..U+200A *)
      [226; 128; 168]; [226; 128; 169];         (* U+2028 U+2029 *)
      [226; 128; 175];                          (* U+202F *)
      [226; 129; 159];                          (* U+205F *)
      [227; 128; 128];                          (* U+3000 *)
      [239; 187; 191] ].                        (* U+FEFF *)

(** [s] without its prefix [p], when [s] starts with [p]. *)
Fixpoint strip_prefix (p s : string) : option string :=
  match p, s with
  | EmptyString, _ => Some s
  | String a p', String b s' => if Ascii.eqb a b then strip_prefix p' s' else None
  | String _ _, EmptyString => None
  end.

Definition strip_white_space_char (s : string) : option string :=
  fold_right
    (fun p rest => match strip_prefix p s with Some s' => Some s' | None => rest end)
    None StrWhiteSpaceChar.

Fixpoint skip_white_space (fuel : nat) (s : string) : string :=
  match fuel with
  | O => s
  | S fuel' =>
      match strip_white_space_char s with
      | Some s' => skip_white_space fuel' s'
      | None => s
      end
  end.

Definition is_white_space (s : string) : bool :=
  String.eqb (skip_white_space (String.length s) s) "".

(** The value of [c] as a digit of the radix, if it is one. *)
Definition digit (radix : nat) (c : ascii) : option Z :=
  let n := nat_of_ascii c in
  let v :=
    if Nat.leb 48 n && Nat.leb n 57 then Some (n - 48)
    else if Nat.leb 97 n && Nat.leb n 102 then Some (n - 87)
    else if Nat.leb 65 n && Nat.leb n 70 then Some (n - 55)
    else None in
  match v with
  | Some d => if Nat.ltb d radix then Some (Z.of_nat d) else None
  | None => None
  end.

(** The longest run of digits at the head of [s]: its value after
  [acc], the number of digits read after [count], and the rest. *)
Fixpoint digits (radix : nat) (s : string) (acc : Z) (count : nat)
  : Z * nat * string :=
  match s with
  | String c s' =>
      match digit radix c with
      | Some d => digits radix s' (acc * Z.of_nat radix + d)%Z (S count)
      | None => (acc, count, s)
      end
  | EmptyString => (acc, count, s)
  end.

(** How the binary64 number nearest to [mantissa * 10^exponent] compares
  with zero: it is zero for a zero mantissa and for a value of at most
  [2^-1075], half the least positive number. *)
Definition decimal_sign (mantissa exponent : Z) : number_sign :=
  if (mantissa =? 0)%Z then is_zero
  else if ((exponent <? 0) && (mantissa * 2 ^ 1075 <=? 10 ^ (- exponent)))%Z
       then is_zero
       else above_zero.

(** [ExponentPart], optional: the exponent and the rest, or [None] when
  an exponent indicator is not followed by a [SignedInteger]. *)
Definition exponent_part (s : string) : option (Z * string) :=
  match s with
  | String c s' =>
      if Ascii.eqb c "e" || Ascii.eqb c "E" then
        let (minus, s'') :=
          match s' with
          | String c' r =>
              if Ascii.eqb c' "-" then (true, r)
              else if Ascii.eqb c' "+" then (false, r)
              else (false, s')
          | EmptyString => (false, s')
          end in
        let '(e, n, rest) := digits 10 s'' 0%Z O in
        match n with
        | O => None
        | S _ => Some (if minus then (- e)%Z else e, rest)
        end
      else Some (0%Z, s)
  | EmptyString => Some (0%Z, s)
  end.

(** [StrUnsignedDecimalLiteral] at the head of [s], and the rest. *)
Definition unsigned_decimal (s : string) : option (number_sign * string) :=
  match strip_prefix "Infinity" s with
  | Some rest => Some (above_zero, rest)
  | None =>
      let '(int, ni, r1) := digits 10 s 0%Z O in
      let '(mantissa, nf, r2) :=
        match strip_prefix "." r1 with
        | Some r => digits 10 r int O
        | None => (int, O, r1)
        end in
      match (ni + nf)%nat with
      | O => None
      | S _ =>
          match exponent_part r2 with
          | Some (e, rest) => Some (decimal_sign mantissa (e - Z.of_nat nf), rest)
          | None => None
          end
      end
  end.

(** The radix of a [NonDecimalIntegerLiteral] and what follows its
  prefix [0x], [0o] or [0b]. *)
Definition non_decimal_prefix (s : string) : option (nat * string) :=
  match s with
  | String c0 (String c r) =>
      if Ascii.eqb c0 "0" then
        if Ascii.eqb c "x" || Ascii.eqb c "X" then Some (16, r)
        else if Ascii.eqb c "o" || Ascii.eqb c "O" then Some (8, r)
        else if Ascii.eqb c "b" || Ascii.eqb c "B" then Some (2, r)
        else None
      else None
  | _ => None
  end.

Definition negate (n : number_sign) : number_sign :=
  match n with
  | above_zero => below_zero
  | below_zero => above_zero
  | n => n
  end.

Definition StrNumericLiteral (s : string) : option (number_sign * string) :=
  match non_decimal_prefix s with
  | Some (radix, r) =>
      let '(v, n, rest) := digits radix r 0%Z O in
      match n with
      | O => None
      | S _ => Some (if (v =? 0)%Z then is_zero else above_zero, rest)
      end
  | None =>
      match s with
      | String c r =>
          if Ascii.eqb c "+" then unsigned_decimal r
          else if Ascii.eqb c "-" then
            match unsigned_decimal r with
            | Some (n, rest) => Some (negate n, rest)
            | None => None
            end
          else unsigned_decimal s
      | EmptyString => None
      end
  end.

Definition StringToNumber (s : string) : number_sign :=
  match skip_white_space (String.length s) s with
  | EmptyString => is_zero
  | s' =>
      match StrNumericLiteral s' with
      | Some (n, rest) => if is_white_space rest then n else is_NaN
      | None => is_NaN
      end
  end.

(** [a >= b] on two timestamps.  Two strings are compared as strings,
  lexicographically.  Otherwise both operands are converted to numbers,
  [undefined] to [NaN], [null] to [+0] and a string by
  [StringToNumber], and every comparison with [NaN] is [false]. *)
Definition ge (a b : value) : bool :=
  match a, b with
  | str x, str y => negb (String.ltb x y)
  | undefined, _ | _, undefined => false
  | null, null => true
  | null, str y =>
      match StringToNumber y with
      | is_zero | below_zero => true
      | _ => false
      end
  | str x, null =>
      match StringToNumber x with
      | is_zero | above_zero => true
      | _ => false
      end
  end.

(** The value is a string. *)
Definition is_string (v : value) : Prop := exists s, v = str s.

(** The string holds the separator [T] of date and time, as every
  [toISOString()] does. *)
Definition dated (s : string) : Prop := In "T"%char (list_ascii_of_string s).

(** ** Numbers through JSON and from exact integers *)

(** [JSON.parse(JSON.stringify(x))] for a binary64 number: [NaN] and the
  infinities are written as [null] ([None]), negative zero is written
  as [0], and every other number is read back as it was. *)
Definition json_float (x : float) : option float :=
  if PrimFloat.is_nan x || PrimFloat.is_infinity x then None
  else if PrimFloat.is_zero x then Some PrimFloat.zero
  else Some x.

(** [Number(z)] for an integer literal [z]: the binary64 number nearest
  to [z]. *)
Definition Number_of_Z (z : Z) : float :=
  SF2Prim (binary_normalize prec emax z 0 false).

(** [a < b] on two strings. *)
Definition lt (a b : string) : Prop := String.ltb a b = true.

(** [a === b] for a string against an optional string. *)
Definition opt_eqb (a : option string) (b : string) : bool :=
  match a with
  | Some x => String.eqb x b
  | None => false
  end.

(** [xs.includes(x)] *)
Definition includes (xs : list string) (x : string) : bool :=
  existsb (String.eqb x) xs.

Section Arrays.
Context {A : Type}.

(** [xs.findIndex(p)]; [None] stands for [-1]. *)
Fixpoint findIndex (p : A -> bool) (xs : list A) : option nat :=
  match xs with
  | [] => None
  | x :: xs' =>
      if p x then Some O
      else match findIndex p xs' with
           | Some i => Some (S i)
           | None => None
           end
  end.

(** [xs.find(p)] *)
Definition find (p : A -> bool) (xs : list A) : option A := List.find p xs.

(** [xs[i] = v] for an index inside the array. *)
Fixpoint assign (i : nat) (v : A) (xs : list A) : list A :=
  match xs, i with
  | [], _ => []
  | _ :: xs', O => v :: xs'
  | x :: xs', S j => x :: assign j v xs'
  end.
End Arrays.

End Js.

(** A [Map<string, V>]: keys in insertion order, [set] on a present key
  keeps the key's position. *)
Module JsMap.
Section WithValue.
Context {V : Type}.

Definition t := list (string * V).

Definition empty : t := [].

Fixpoint get (k : string) (m : t) : option V :=
  match m with
  | [] => None
  | (k', v) :: m' => if String.eqb k' k then Some v else get k m'
  end.

Fixpoint set (k : string) (v : V) (m : t) : t :=
  match m with
  | [] => [(k, v)]
  | (k', v') :: m' =>
      if String.eqb k' k then (k', v) :: m' else (k', v') :: set k v m'
  end.

Definition keys (m : t) : list string := map fst m.

Definition values (m : t) : list V := map snd m.
End WithValue.
Arguments t : clear implicits.
End JsMap.

(* ================================================================== *)
(** * Data model ([lib/types.ts]) *)

Inductive TransactionType := expense | income | transfer.

Inductive AccountType := cash | bank | credit_card | savings | investment | other.

Inductive CategoryType := cat_expense | cat_income.

Module Transaction.
(** [updatedAt] is declared [string]; a record read back from JSON may
  lack it, and a remote row hands its NULL column over as [null]. *)
Record t (num : Type) := mk {
  id : string;
  type : TransactionType;
  amount : num;
  categoryId : string;
  accountId : string;
  toAccountId : option string;
  date : string;
  note : option string;
  createdAt : string;
  updatedAt : Js.value
}.

(** The same record with its number converted. *)
Definition map {A B : Type} (f : A -> B) (tx : t A) : t B :=
  mk (id tx) (type tx) (f (amount tx)) (categoryId tx) (accountId tx)
     (toAccountId tx) (date tx) (note tx) (createdAt tx) (updatedAt tx).
End Transaction.
Notation Transaction := Transaction.t.

Module Account.
Record t (num : Type) := mk {
  id : string;
  name : string;
  type : AccountType;
  initialBalance : num;
  icon : string;
  color : string;
  createdAt : string
}.

(** The same record with its number converted. *)
Definition map {A B : Type} (f : A -> B) (a : t A) : t B :=
  mk (id a) (name a) (type a) (f (initialBalance a)) (icon a) (color a) (createdAt a).
End Account.
Notation Account := Account.t.

Module Category.
Record t (num : Type) := mk {
  id : string;
  name : string;
  type : CategoryType;
  icon : string;
  color : string;
  isDefault : bool;
  sortOrder : num;
  createdAt : string
}.
End Category.
Notation Category := Category.t.

(** The arithmetic of JS numbers that the code relies on. *)
Class JsNumber (num : Type) := {
  num_add : num -> num -> num;
  num_sub : num -> num -> num
}.

(** The numbers of the running program: IEEE-754 binary64. *)
#[export] Instance float_JsNumber : JsNumber float :=
  {| num_add := PrimFloat.add; num_sub := PrimFloat.sub |}.

(** Exact integer arithmetic. *)
#[export] Instance Z_JsNumber : JsNumber Z :=
  {| num_add := Z.add; num_sub := Z.sub |}.

(** What [JSON.parse(JSON.stringify(x))] gives for a number [x]; [None]
  is [null].  The local store keeps JSON text, so a number is read back
  from it as it was written exactly when this gives the number itself. *)
Class JsonNumber (num : Type) := {
  json_number : num -> option num
}.

#[export] Instance float_JsonNumber : JsonNumber float :=
  {| json_number := Js.json_float |}.

#[export] Instance Z_JsonNumber : JsonNumber Z :=
  {| json_number := @Some Z |}.

(** A number that JSON carries unchanged. *)
Definition json_safe {num : Type} `{JsonNumber num} (x : num) : Prop :=
  json_number x = Some x.

(* ================================================================== *)
(** * Integers in binary64

  The mantissa, exponent and rounding of [SpecFloat], as far as sums and
  differences of integers need them. *)

Module Binary64.

(** Number of binary digits of a mantissa. *)
Definition D (m : positive) : Z := Zpos (digits2_pos m).

(** A shift record with nothing shifted out. *)
Definition rec_exact (m : Z) : shr_record :=
  {| shr_m := m; shr_r := false; shr_s := false |}.

(** The signed mantissa [ms] at exponent [e] denotes the integer [a]:
  [ms * 2^e = a]. *)
Definition is_sint (ms e a : Z) : Prop :=
  (0 <= e -> a = ms * 2 ^ e)%Z /\ (e < 0 -> ms = a * 2 ^ (- e))%Z.

(** The exponent of the binary64 number that is the integer [v], for
  [0 < v <= 2^53]. *)
Definition texp (v : Z) : Z := (Z.log2 v - 52)%Z.

(** The binary64 number nearest to the integer [z], as [SpecFloat] has it. *)
Definition canon (z : Z) : spec_float := binary_normalize prec emax z 0 false.

End Binary64.

(* ================================================================== *)
(** * Merge engine ([lib/supabase-sync.ts]) *)

Section Merge.
Context {num : Type}.
Notation Tx := (Transaction num).

(** [map.set(tx.id, tx)] *)
Definition set_by_id (m : JsMap.t Tx) (tx : Tx) : JsMap.t Tx :=
  JsMap.set (Transaction.id tx) tx m.

(** First loop of [mergeTransactions]: every local record is set. *)
Definition seed_local (local : list Tx) : JsMap.t Tx :=
  fold_left set_by_id local JsMap.empty.

(** Body of the second loop. *)
Definition merge_remote (m : JsMap.t Tx) (tx : Tx) : JsMap.t Tx :=
  match JsMap.get (Transaction.id tx) m with
  | None => set_by_id m tx
  | Some existing =>
      if Js.ge (Transaction.updatedAt tx) (Transaction.updatedAt existing)
      then set_by_id m tx
      else m
  end.

Definition merge_map (local remote : list Tx) : JsMap.t Tx :=
  fold_left merge_remote remote (seed_local local).

Definition mergeTransactions (local remote : list Tx) : list Tx :=
  JsMap.values (merge_map local remote).

(** What the second loop does to the entry of one id. *)
Definition pick (cur : option Tx) (tx : Tx) : option Tx :=
  match cur with
  | None => Some tx
  | Some existing =>
      if Js.ge (Transaction.updatedAt tx) (Transaction.updatedAt existing)
      then Some tx
      else Some existing
  end.

(** The map that holds the records of a list under their ids, in order. *)
Definition keyed (l : list Tx) : JsMap.t Tx :=
  map (fun tx => (Transaction.id tx, tx)) l.

(** [pick] against a record that may be absent. *)
Definition pick_opt (cur : option Tx) (tx : option Tx) : option Tx :=
  match tx with
  | Some t => pick cur t
  | None => cur
  end.

(** A map keyed by the id of its records, each key once. *)
Definition well_keyed (m : JsMap.t Tx) : Prop :=
  NoDup (JsMap.keys m) /\ forall k v, In (k, v) m -> Transaction.id v = k.

(** Ids of a list of records, in order. *)
Definition ids (l : list Tx) : list string := map (@Transaction.id num) l.

(** The records of [l] that carry id [x]. *)
Definition with_id (x : string) (l : list Tx) : list Tx :=
  filter (fun tx => String.eqb (Transaction.id tx) x) l.
End Merge.

(* ================================================================== *)
(** * Local store ([lib/storage.ts]) *)

(** The tables of [lib/defaults], which the store falls back to. *)
Record Defaults (num : Type) := {
  DEFAULT_ACCOUNTS : list (Account num);
  DEFAULT_CATEGORIES : list (Category num)
}.

(** The numbers of the default tables are ones that JSON carries
    unchanged. *)
Definition json_safe_defaults {num : Type} `{JsonNumber num} (d : Defaults num) : Prop :=
  Forall (fun a => json_safe (Account.initialBalance a)) (DEFAULT_ACCOUNTS d) /\
  Forall (fun c => json_safe (Category.sortOrder c)) (DEFAULT_CATEGORIES d).

Module Storage.

(** The keys of [KEYS] in AsyncStorage.  A key holds a JSON document or
    is absent ([None], [getItem] gives [null]).  The document is kept as
    [JSON.parse] gives it back; a writer hands over the value it wrote,
    which is what is read back for the values that JSON carries
    unchanged ([json_safe]): every string and boolean, an absent
    property, and every number but [NaN], the infinities and negative
    zero. *)
Record t (num : Type) := mk {
  TRANSACTIONS : option (list (Transaction num));
  ACCOUNTS : option (list (Account num));
  CATEGORIES : option (list (Category num));
  INITIALIZED : option string;
  PENDING_DELETES : option (list string);
  CURRENCY : option string
}.

Section Ops.
Context {num : Type}.
Notation Store := (t num).

Definition set_TRANSACTIONS (v : option (list (Transaction num))) (s : Store) : Store :=
  mk v (ACCOUNTS s) (CATEGORIES s) (INITIALIZED s) (PENDING_DELETES s) (CURRENCY s).

Definition set_PENDING_DELETES (v : option (list string)) (s : Store) : Store :=
  mk (TRANSACTIONS s) (ACCOUNTS s) (CATEGORIES s) (INITIALIZED s) v (CURRENCY s).

(** [raw ? JSON.parse(raw) : fallback] *)
Definition parse_or {A : Type} (raw : option A) (fallback : A) : A :=
  match raw with
  | Some v => v
  | None => fallback
  end.

Definition getTransactions (s : Store) : list (Transaction num) :=
  parse_or (TRANSACTIONS s) [].

Definition saveTransaction (transaction : Transaction num) (s : Store) : Store :=
  let transactions := getTransactions s in
  let existing :=
    Js.findIndex
      (fun t => String.eqb (Transaction.id t) (Transaction.id transaction))
      transactions in
  match existing with
  | Some i => set_TRANSACTIONS (Some (Js.assign i transaction transactions)) s
  | None => set_TRANSACTIONS (Some (transactions ++ [transaction])) s
  end.

Definition deleteTransaction (id : string) (s : Store) : Store :=
  let transactions := getTransactions s in
  let filtered :=
    filter (fun t => negb (String.eqb (Transaction.id t) id)) transactions in
  set_TRANSACTIONS (Some filtered) s.

Definition setTransactions (transactions : list (Transaction num)) (s : Store) : Store :=
  set_TRANSACTIONS (Some transactions) s.

Definition getAccounts (d : Defaults num) (s : Store) : list (Account num) :=
  parse_or (ACCOUNTS s) (DEFAULT_ACCOUNTS d).

Definition getCategories (d : Defaults num) (s : Store) : list (Category num) :=
  parse_or (CATEGORIES s) (DEFAULT_CATEGORIES d).

(** ** Initialization, accounts, categories, currency *)

Definition set_ACCOUNTS (v : option (list (Account num))) (s : Store) : Store :=
  mk (TRANSACTIONS s) v (CATEGORIES s) (INITIALIZED s) (PENDING_DELETES s) (CURRENCY s).

Definition set_CATEGORIES (v : option (list (Category num))) (s : Store) : Store :=
  mk (TRANSACTIONS s) (ACCOUNTS s) v (INITIALIZED s) (PENDING_DELETES s) (CURRENCY s).

Definition set_INITIALIZED (v : option string) (s : Store) : Store :=
  mk (TRANSACTIONS s) (ACCOUNTS s) (CATEGORIES s) v (PENDING_DELETES s) (CURRENCY s).

Definition set_CURRENCY (v : option string) (s : Store) : Store :=
  mk (TRANSACTIONS s) (ACCOUNTS s) (CATEGORIES s) (INITIALIZED s) (PENDING_DELETES s) v.

(** [if (raw)] on what [getItem] gives: set and not the empty string. *)
Definition item_truthy (raw : option string) : bool :=
  match raw with
  | Some v => negb (String.eqb v "")
  | None => false
  end.

(** Adds the default categories whose id is missing from the store. *)
Definition mergeDefaultCategories (d : Defaults num) (s : Store) : Store :=
  let existing := parse_or (CATEGORIES s) [] in
  let existingIds := map (@Category.id num) existing in
  let missing :=
    filter (fun c => negb (Js.includes existingIds (Category.id c)))
           (DEFAULT_CATEGORIES d) in
  match missing with
  | [] => s
  | _ => set_CATEGORIES (Some (existing ++ missing)) s
  end.

Definition initializeStorage (d : Defaults num) (s : Store) : Store :=
  if item_truthy (INITIALIZED s)
  then mergeDefaultCategories d s
  else
    set_INITIALIZED (Some "true")
      (set_CATEGORIES (Some (DEFAULT_CATEGORIES d))
         (set_ACCOUNTS (Some (DEFAULT_ACCOUNTS d))
            (set_TRANSACTIONS (Some []) s))).

(** While the key is absent [getAccounts] hands out the array of
    defaults itself, and the [push] or the assignment below then changes
    that array in place; here the table [d] is a value, so what a later
    call sees of the defaults is the table as it was. *)
Definition saveAccount (d : Defaults num) (account : Account num) (s : Store) : Store :=
  let accounts := getAccounts d s in
  let existing :=
    Js.findIndex (fun a => String.eqb (Account.id a) (Account.id account)) accounts in
  match existing with
  | Some i => set_ACCOUNTS (Some (Js.assign i account accounts)) s
  | None => set_ACCOUNTS (Some (accounts ++ [account])) s
  end.

Definition deleteAccount (d : Defaults num) (id : string) (s : Store) : Store :=
  let accounts := getAccounts d s in
  let filtered := filter (fun a => negb (String.eqb (Account.id a) id)) accounts in
  let s1 := set_ACCOUNTS (Some filtered) s in
  let transactions := getTransactions s1 in
  let filteredTx :=
    filter (fun t => negb (String.eqb (Transaction.accountId t) id)
                     && negb (Js.opt_eqb (Transaction.toAccountId t) id))
           transactions in
  set_TRANSACTIONS (Some filteredTx) s1.

Definition saveCategory (d : Defaults num) (category : Category num) (s : Store) : Store :=
  let categories := getCategories d s in
  let existing :=
    Js.findIndex (fun c => String.eqb (Category.id c) (Category.id category)) categories in
  match existing with
  | Some i => set_CATEGORIES (Some (Js.assign i category categories)) s
  | None => set_CATEGORIES (Some (categories ++ [category])) s
  end.

Definition deleteCategory (d : Defaults num) (id : string) (s : Store) : Store :=
  let categories := getCategories d s in
  let filtered := filter (fun c => negb (String.eqb (Category.id c) id)) categories in
  set_CATEGORIES (Some filtered) s.

(** [raw ?? '$'] *)
Definition getCurrency (s : Store) : string :=
  match CURRENCY s with
  | Some raw => raw
  | None => "$"
  end.

Definition saveCurrency (symbol : string) (s : Store) : Store :=
  set_CURRENCY (Some symbol) s.

(** ** Pending-deletes queue *)

Definition getPendingDeletes (s : Store) : list string :=
  parse_or (PENDING_DELETES s) [].

Definition addPendingDelete (id : string) (s : Store) : Store :=
  let ids := getPendingDeletes s in
  if negb (Js.includes ids id)
  then set_PENDING_DELETES (Some (ids ++ [id])) s
  else s.

Definition clearPendingDeletes (s : Store) : Store :=
  set_PENDING_DELETES None s.

(** The three operations on the queue, and a run of them. *)
Inductive QueueOp :=
| QGet
| QAdd (id : string)
| QClear.

Definition queue_step (s : Store) (op : QueueOp) : Store :=
  match op with
  | QGet => s
  | QAdd id => addPendingDelete id s
  | QClear => clearPendingDeletes s
  end.

Definition queue_run (ops : list QueueOp) (s : Store) : Store :=
  fold_left queue_step ops s.

(** ** Helpers *)

(** One iteration of the loop of [computeAccountBalance]. *)
Definition balance_step `{JsNumber num}
    (account : Account num) (balance : num) (tx : Transaction num) : num :=
  let mine := String.eqb (Transaction.accountId tx) (Account.id account) in
  match Transaction.type tx with
  | expense => if mine then num_sub balance (Transaction.amount tx) else balance
  | income => if mine then num_add balance (Transaction.amount tx) else balance
  | transfer =>
      let balance :=
        if mine then num_sub balance (Transaction.amount tx) else balance in
      if Js.opt_eqb (Transaction.toAccountId tx) (Account.id account)
      then num_add balance (Transaction.amount tx)
      else balance
  end.

Definition computeAccountBalance `{JsNumber num}
    (account : Account num) (transactions : list (Transaction num)) : num :=
  fold_left (balance_step account) transactions (Account.initialBalance account).

(** The amounts that come into an account: its incomes and the transfers
    made to it. *)
Definition is_incoming (account : Account num) (tx : Transaction num) : bool :=
  match Transaction.type tx with
  | income => String.eqb (Transaction.accountId tx) (Account.id account)
  | transfer => Js.opt_eqb (Transaction.toAccountId tx) (Account.id account)
  | expense => false
  end.

(** The amounts that go out of an account: its expenses and the transfers
    made from it. *)
Definition is_outgoing (account : Account num) (tx : Transaction num) : bool :=
  match Transaction.type tx with
  | expense | transfer => String.eqb (Transaction.accountId tx) (Account.id account)
  | income => false
  end.

(** A transaction that names the account, as its account or as the
    destination of a transfer. *)
Definition touches (account : Account num) (tx : Transaction num) : bool :=
  String.eqb (Transaction.accountId tx) (Account.id account)
  || Js.opt_eqb (Transaction.toAccountId tx) (Account.id account).

Definition incoming (account : Account num) (txs : list (Transaction num)) : list num :=
  map (@Transaction.amount num) (filter (is_incoming account) txs).

Definition outgoing (account : Account num) (txs : list (Transaction num)) : list num :=
  map (@Transaction.amount num) (filter (is_outgoing account) txs).

End Ops.

Definition sumZ (l : list Z) : Z := fold_right Z.add 0%Z l.

(** The initial balance and the amounts of the transactions, in absolute
    value, added up. *)
Definition magnitude (account : Account Z) (txs : list (Transaction Z)) : Z :=
  (Z.abs (Account.initialBalance account)
   + sumZ (map (fun tx => Z.abs (Transaction.amount tx)) txs))%Z.

End Storage.

(* ================================================================== *)
(** * The world of the running application *)

(** A row of the remote [transactions] table. *)
Module SbTransaction.
Record t (num : Type) := mk {
  id : string;
  user_id : string;
  type : TransactionType;
  amount : num;
  category_id : option string;
  category_name : option string;
  account_id : option string;
  account_name : option string;
  to_account_id : option string;
  note : option string;
  date : string;
  created_at : string;
  updated_at : Js.value
}.
End SbTransaction.
Notation SbTransaction := SbTransaction.t.

(** A query the client sends to the remote service. *)
Inductive Request (num : Type) :=
| ReqUpsertRow (row : SbTransaction num)
| ReqUpsertRows (rows : list (SbTransaction num))
| ReqDeleteEq (id : string)
| ReqDeleteIn (ids : list string)
| ReqSelectEq (user_id : string).

(** What awaiting a query gives: [{ data, error: null }],
    [{ error }] with a message, or a rejection. *)
Inductive Response (num : Type) :=
| RespOk (data : list (SbTransaction num))
| RespError (message : string)
| RespThrow (reason : string).

Arguments ReqDeleteEq {num} id.
Arguments ReqDeleteIn {num} ids.
Arguments ReqSelectEq {num} user_id.
Arguments RespError {num} message.
Arguments RespThrow {num} reason.

(** What the application does not decide: the tables of defaults, whether
    the Supabase environment variables are set ([getSupabase()] is not
    [null]), and how the remote service answers each query. *)
Record Env (num : Type) := {
  defaults : Defaults num;
  configured : bool;
  network : Request num -> Response num
}.

(** A line of [console.warn]: the prefix and the value printed after it. *)
Inductive Warning := Warn (prefix : string) (detail : string).

(** In-memory state of [AppProvider]. *)
Record AppState (num : Type) := {
  transactions : list (Transaction num);
  accounts : list (Account num);
  categories : list (Category num);
  loading : bool
}.

Inductive AppAction (num : Type) :=
| SET_ALL (transactions : list (Transaction num)) (accounts : list (Account num))
    (categories : list (Category num))
| SET_LOADING (loading : bool)
| SET_TRANSACTIONS (transactions : list (Transaction num))
| UPSERT_TRANSACTION (transaction : Transaction num)
| DELETE_TRANSACTION (id : string)
| UPSERT_ACCOUNT (account : Account num)
| DELETE_ACCOUNT (id : string)
| UPSERT_CATEGORY (category : Category num)
| DELETE_CATEGORY (id : string).

Arguments SET_LOADING {num} loading.
Arguments DELETE_TRANSACTION {num} id.
Arguments DELETE_ACCOUNT {num} id.
Arguments DELETE_CATEGORY {num} id.

Record World (num : Type) := {
  env : Env num;
  storage : Storage.t num;
  requests : list (Request num);       (* queries sent so far, oldest first *)
  console : list Warning;              (* warnings printed so far *)
  clock : Z;                           (* [Date.now()] *)
  state : AppState num;
  sbUserIdRef : option string;
  lastSyncAtRef : Z;
  isSyncingRef : bool
}.

(** A promise once settled. *)
Inductive Settled (A : Type) :=
| Resolved (value : A)
| Rejected (reason : string).

Arguments Rejected {A} reason.

Section Async.
Context {num : Type}.

(** An [async] computation run to completion. *)
Definition Async (A : Type) : Type := World num -> Settled A * World num.

Definition ret {A : Type} (a : A) : Async A := fun w => (Resolved a, w).

Definition throw {A : Type} (reason : string) : Async A :=
  fun w => (Rejected reason, w).

(** [const x = await p; k x] *)
Definition bind {A B : Type} (p : Async A) (k : A -> Async B) : Async B :=
  fun w =>
    match p w with
    | (Resolved a, w') => k a w'
    | (Rejected e, w') => (Rejected e, w')
    end.

(** [try { p } finally { f }] with a cleanup that cannot fail. *)
Definition try_finally {A : Type} (p : Async A) (f : World num -> World num) : Async A :=
  fun w => let (r, w') := p w in (r, f w').

(** [p.catch(h)] *)
Definition catch (p : Async unit) (h : string -> Async unit) : Async unit :=
  fun w =>
    match p w with
    | (Resolved a, w') => (Resolved a, w')
    | (Rejected e, w') => h e w'
    end.

(** A promise that is started and not awaited.  Its chain ends in a
    [.catch], so it settles as resolved; it is run to completion at the
    point where it is started, and what it resolves to is dropped.  This
    is the run of a call that is left to finish before the next one is
    made; handlers of two calls that overlap in time are not
    interleaved here. *)
Definition fire_and_forget (p : Async unit) : Async unit :=
  fun w => (Resolved tt, snd (p w)).

(** [for (const x of xs) await f(x)] *)
Fixpoint for_each {A : Type} (f : A -> Async unit) (xs : list A) : Async unit :=
  match xs with
  | [] => ret tt
  | x :: xs' => bind (f x) (fun _ => for_each f xs')
  end.

End Async.

Declare Scope async_scope.
Delimit Scope async_scope with async.
Notation "x <- p ;; k" := (bind p (fun x => k))
  (at level 61, p at next level, right associativity) : async_scope.
Notation "p ;; k" := (bind p (fun _ => k))
  (at level 61, right associativity) : async_scope.
Open Scope async_scope.

Section Effects.
Context {num : Type}.
Notation W := (World num).

Definition set_storage (s : Storage.t num) (w : W) : W :=
  {| env := env w; storage := s; requests := requests w; console := console w;
     clock := clock w; state := state w; sbUserIdRef := sbUserIdRef w;
     lastSyncAtRef := lastSyncAtRef w; isSyncingRef := isSyncingRef w |}.

Definition set_requests (r : list (Request num)) (w : W) : W :=
  {| env := env w; storage := storage w; requests := r; console := console w;
     clock := clock w; state := state w; sbUserIdRef := sbUserIdRef w;
     lastSyncAtRef := lastSyncAtRef w; isSyncingRef := isSyncingRef w |}.

Definition set_console (c : list Warning) (w : W) : W :=
  {| env := env w; storage := storage w; requests := requests w; console := c;
     clock := clock w; state := state w; sbUserIdRef := sbUserIdRef w;
     lastSyncAtRef := lastSyncAtRef w; isSyncingRef := isSyncingRef w |}.

Definition set_state (st : AppState num) (w : W) : W :=
  {| env := env w; storage := storage w; requests := requests w; console := console w;
     clock := clock w; state := st; sbUserIdRef := sbUserIdRef w;
     lastSyncAtRef := lastSyncAtRef w; isSyncingRef := isSyncingRef w |}.

Definition set_lastSyncAtRef (t : Z) (w : W) : W :=
  {| env := env w; storage := storage w; requests := requests w; console := console w;
     clock := clock w; state := state w; sbUserIdRef := sbUserIdRef w;
     lastSyncAtRef := t; isSyncingRef := isSyncingRef w |}.

Definition set_isSyncingRef (b : bool) (w : W) : W :=
  {| env := env w; storage := storage w; requests := requests w; console := console w;
     clock := clock w; state := state w; sbUserIdRef := sbUserIdRef w;
     lastSyncAtRef := lastSyncAtRef w; isSyncingRef := b |}.

(** An awaited read of the local store. *)
Definition read {A : Type} (f : Storage.t num -> A) : Async A :=
  fun w => (Resolved (f (storage w)), w).

(** An awaited write to the local store. *)
Definition write (f : Storage.t num -> Storage.t num) : Async unit :=
  fun w => (Resolved tt, set_storage (f (storage w)) w).

(** [console.warn(prefix, detail)] *)
Definition console_warn (prefix detail : string) : Async unit :=
  fun w => (Resolved tt, set_console (console w ++ [Warn prefix detail]) w).

(** [await] of a query: it is recorded as sent and the remote service
    answers it. *)
Definition send (q : Request num) : Async (Response num) :=
  fun w =>
    let w' := set_requests (requests w ++ [q]) w in
    match network (env w) q with
    | RespThrow e => (Rejected e, w')
    | r => (Resolved r, w')
    end.

End Effects.

(* ================================================================== *)
(** * Remote transport ([lib/supabase-sync.ts]) *)

Section Transport.
Context {num : Type}.

(** [o ?? d] *)
Definition nullish {A : Type} (o : option A) (d : A) : A :=
  match o with
  | Some v => v
  | None => d
  end.

Definition toRow (tx : Transaction num) (userId : string)
    (categories : list (Category num)) (accounts : list (Account num))
  : SbTransaction num :=
  let cat :=
    Js.find (fun c => String.eqb (Category.id c) (Transaction.categoryId tx)) categories in
  let acc :=
    Js.find (fun a => String.eqb (Account.id a) (Transaction.accountId tx)) accounts in
  {| SbTransaction.id := Transaction.id tx;
     SbTransaction.user_id := userId;
     SbTransaction.type := Transaction.type tx;
     SbTransaction.amount := Transaction.amount tx;
     SbTransaction.category_id := Some (Transaction.categoryId tx);
     SbTransaction.category_name := option_map (@Category.name num) cat;
     SbTransaction.account_id := Some (Transaction.accountId tx);
     SbTransaction.account_name := option_map (@Account.name num) acc;
     SbTransaction.to_account_id := Transaction.toAccountId tx;
     SbTransaction.note := Transaction.note tx;
     SbTransaction.date := Transaction.date tx;
     SbTransaction.created_at := Transaction.createdAt tx;
     SbTransaction.updated_at := Transaction.updatedAt tx |}.

Definition fromRow (row : SbTransaction num) : Transaction num :=
  {| Transaction.id := SbTransaction.id row;
     Transaction.type := SbTransaction.type row;
     Transaction.amount := SbTransaction.amount row;
     Transaction.categoryId := nullish (SbTransaction.category_id row) "";
     Transaction.accountId := nullish (SbTransaction.account_id row) "";
     Transaction.toAccountId := SbTransaction.to_account_id row;
     Transaction.note := SbTransaction.note row;
     Transaction.date := SbTransaction.date row;
     Transaction.createdAt := SbTransaction.created_at row;
     Transaction.updatedAt := SbTransaction.updated_at row |}.

(** [const sb = getSupabase(); if (!sb) return dflt;] then the rest. *)
Definition with_supabase {A : Type} (dflt : A) (k : Async (num:=num) A) : Async A :=
  fun w => if configured (env w) then k w else (Resolved dflt, w).

Definition fetchRemoteTransactions (supabaseUserId : string)
  : Async (list (Transaction num)) :=
  with_supabase []
    (r <- send (ReqSelectEq supabaseUserId) ;;
     match r with
     | RespOk data => ret (map fromRow data)
     | RespError message =>
         console_warn "[supabase] fetchTransactions:" message ;; ret []
     | RespThrow e => throw e
     end).

Definition pushTransaction (tx : Transaction num) (supabaseUserId : string)
    (categories : list (Category num)) (accounts : list (Account num))
  : Async unit :=
  with_supabase tt
    (r <- send (ReqUpsertRow (toRow tx supabaseUserId categories accounts)) ;;
     match r with
     | RespOk _ => ret tt
     | RespError message => console_warn "[supabase] pushTransaction:" message
     | RespThrow e => throw e
     end).

Definition pushTransactionsBatch (transactions : list (Transaction num))
    (supabaseUserId : string)
    (categories : list (Category num)) (accounts : list (Account num))
  : Async unit :=
  with_supabase tt
    (match transactions with
     | [] => ret tt
     | _ =>
         let rows :=
           map (fun tx => toRow tx supabaseUserId categories accounts) transactions in
         r <- send (ReqUpsertRows rows) ;;
         match r with
         | RespOk _ => ret tt
         | RespError message =>
             console_warn "[supabase] pushTransactionsBatch:" message
         | RespThrow e => throw e
         end
     end).

Definition deleteRemoteTransaction (id : string) : Async (num:=num) unit :=
  with_supabase tt
    (r <- send (ReqDeleteEq id) ;;
     match r with
     | RespOk _ => ret tt
     | RespError message => console_warn "[supabase] deleteTransaction:" message
     | RespThrow e => throw e
     end).

(** Modelled from the spec: [deleteRemoteTransactionsBatch] is imported by
    the orchestrator from [lib/supabase-sync.ts] but its body is not part
    of the sources at hand.  The spec gives it as delete by ids, void, a
    no-op without configuration; the orchestrator's comment on its call
    ("throws on network error") gives its failure: a reported error is
    thrown, not only logged. *)
Definition deleteRemoteTransactionsBatch (ids : list string) : Async (num:=num) unit :=
  with_supabase tt
    (r <- send (ReqDeleteIn ids) ;;
     match r with
     | RespOk _ => ret tt
     | RespError message => throw message
     | RespThrow e => throw e
     end).

End Transport.

(* ================================================================== *)
(** * Sync orchestrator ([lib/AppContext.tsx]) *)

Section Orchestrator.
Context {num : Type}.
Notation W := (World num).

(** [idx >= 0 ? replace at idx : append], the upsert of the reducer. *)
Definition upsert {A : Type} (key : A -> string) (x : A) (xs : list A) : list A :=
  match Js.findIndex (fun y => String.eqb (key y) (key x)) xs with
  | Some idx => Js.assign idx x xs
  | None => xs ++ [x]
  end.

Definition reducer (st : AppState num) (action : AppAction num) : AppState num :=
  match action with
  | SET_ALL txs accs cats =>
      {| transactions := txs; accounts := accs; categories := cats; loading := false |}
  | SET_LOADING l =>
      {| transactions := transactions st; accounts := accounts st;
         categories := categories st; loading := l |}
  | SET_TRANSACTIONS txs =>
      {| transactions := txs; accounts := accounts st;
         categories := categories st; loading := loading st |}
  | UPSERT_TRANSACTION tx =>
      {| transactions := upsert (@Transaction.id num) tx (transactions st);
         accounts := accounts st; categories := categories st; loading := loading st |}
  | DELETE_TRANSACTION id =>
      {| transactions :=
           filter (fun t => negb (String.eqb (Transaction.id t) id)) (transactions st);
         accounts := accounts st; categories := categories st; loading := loading st |}
  | UPSERT_ACCOUNT account =>
      {| transactions := transactions st;
         accounts := upsert (@Account.id num) account (accounts st);
         categories := categories st; loading := loading st |}
  | DELETE_ACCOUNT id =>
      {| transactions :=
           filter (fun t => negb (String.eqb (Transaction.accountId t) id)
                            && negb (Js.opt_eqb (Transaction.toAccountId t) id))
                  (transactions st);
         accounts := filter (fun a => negb (String.eqb (Account.id a) id)) (accounts st);
         categories := categories st; loading := loading st |}
  | UPSERT_CATEGORY category =>
      {| transactions := transactions st; accounts := accounts st;
         categories := upsert (@Category.id num) category (categories st);
         loading := loading st |}
  | DELETE_CATEGORY id =>
      {| transactions := transactions st; accounts := accounts st;
         categories := filter (fun c => negb (String.eqb (Category.id c) id)) (categories st);
         loading := loading st |}
  end.

Definition dispatch (action : AppAction num) : Async unit :=
  fun w => (Resolved tt, set_state (reducer (state w) action) w).

(** [if (sbId)]: a string reference is truthy when set and not empty. *)
Definition truthy (o : option string) : bool :=
  match o with
  | Some s => negb (String.eqb s "")
  | None => false
  end.

(** Step 1 of the pipeline: read the three collections and push. *)
Definition sync_push (sbUserId : string) : Async (list (Transaction num)) :=
  fun w =>
    (localTx <- read Storage.getTransactions ;;
     categories <- read (Storage.getCategories (defaults (env w))) ;;
     accounts <- read (Storage.getAccounts (defaults (env w))) ;;
     pushTransactionsBatch localTx sbUserId categories accounts ;;
     ret localTx) w.

(** Step 2: flush the pending-deletes queue. *)
Definition sync_flush_deletes : Async (num:=num) unit :=
  pendingDeletes <- read Storage.getPendingDeletes ;;
  match pendingDeletes with
  | [] => ret tt
  | _ =>
      deleteRemoteTransactionsBatch pendingDeletes ;;
      write Storage.clearPendingDeletes
  end.

(** Step 3: fetch, merge, persist, and note the time of the sync. *)
Definition sync_pull (sbUserId : string) (localTx : list (Transaction num))
  : Async unit :=
  remoteTx <- fetchRemoteTransactions sbUserId ;;
  let merged := mergeTransactions localTx remoteTx in
  write (Storage.setTransactions merged) ;;
  dispatch (SET_TRANSACTIONS merged) ;;
  (fun w => (Resolved tt, set_lastSyncAtRef (clock w) w)).

Definition performSync (sbUserId : string) : Async unit :=
  fun w =>
    if isSyncingRef w then (Resolved tt, w)
    else
      try_finally
        (localTx <- sync_push sbUserId ;;
         sync_flush_deletes ;;
         sync_pull sbUserId localTx)
        (set_isSyncingRef false)
        (set_isSyncingRef true w).

(** The remote half of [addTransaction] and [updateTransaction]. *)
Definition push_one (label : string) (tx : Transaction num) (sbId : string)
  : Async unit :=
  fun w =>
    (categories <- read (Storage.getCategories (defaults (env w))) ;;
     accounts <- read (Storage.getAccounts (defaults (env w))) ;;
     fire_and_forget
       (catch (pushTransaction tx sbId categories accounts)
              (console_warn label))) w.

Definition addTransaction (tx : Transaction num) : Async unit :=
  write (Storage.saveTransaction tx) ;;
  dispatch (UPSERT_TRANSACTION tx) ;;
  (fun w =>
     if truthy (sbUserIdRef w)
     then push_one "[AppContext] add→supabase error:" tx
            (nullish (sbUserIdRef w) "") w
     else (Resolved tt, w)).

Definition updateTransaction (tx : Transaction num) : Async unit :=
  write (Storage.saveTransaction tx) ;;
  dispatch (UPSERT_TRANSACTION tx) ;;
  (fun w =>
     if truthy (sbUserIdRef w)
     then push_one "[AppContext] update→supabase error:" tx
            (nullish (sbUserIdRef w) "") w
     else (Resolved tt, w)).

(** The [.then] handler of the live delete: take [id] out of the queue. *)
Definition dequeue (id : string) : Async (num:=num) unit :=
  ids <- read Storage.getPendingDeletes ;;
  let remaining := filter (fun i => negb (String.eqb i id)) ids in
  write Storage.clearPendingDeletes ;;
  for_each (fun remaining_id => write (Storage.addPendingDelete remaining_id)) remaining.

(** The live delete that [removeTransaction] starts and does not await. *)
Definition live_delete (id : string) : Async (num:=num) unit :=
  catch (deleteRemoteTransaction id ;; dequeue id)
        (console_warn "[AppContext] delete→supabase (queued for retry):").

(** The local half of [removeTransaction]. *)
Definition removeTransaction_local (id : string) : Async (num:=num) unit :=
  write (Storage.deleteTransaction id) ;;
  dispatch (DELETE_TRANSACTION id).

Definition removeTransaction (id : string) : Async (num:=num) unit :=
  removeTransaction_local id ;;
  (fun w =>
     if truthy (sbUserIdRef w)
     then (write (Storage.addPendingDelete id) ;;
           fire_and_forget (live_delete id)) w
     else (Resolved tt, w)).

(** The mutation entry points, as calls. *)
Inductive Mutation :=
| Add (tx : Transaction num)
| Update (tx : Transaction num)
| Remove (id : string).

Definition mutate (m : Mutation) : Async unit :=
  match m with
  | Add tx => addTransaction tx
  | Update tx => updateTransaction tx
  | Remove id => removeTransaction id
  end.

(** The record that the call saves is one that JSON carries unchanged. *)
Definition json_safe_mutation `{JsonNumber num} (m : Mutation) : Prop :=
  match m with
  | Add tx | Update tx => json_safe (Transaction.amount tx)
  | Remove _ => True
  end.

(** The world after a sequence of calls, each run to completion. *)
Definition mutate_all (ms : list Mutation) (w : W) : W :=
  fold_left (fun w m => snd (mutate m w)) ms w.

(** What a mutation leaves alone when no owner id is set. *)
Definition untouched_by_guest (w w' : W) : Prop :=
  env w' = env w /\
  requests w' = requests w /\
  console w' = console w /\
  Storage.PENDING_DELETES (storage w') = Storage.PENDING_DELETES (storage w) /\
  Storage.ACCOUNTS (storage w') = Storage.ACCOUNTS (storage w) /\
  Storage.CATEGORIES (storage w') = Storage.CATEGORIES (storage w) /\
  sbUserIdRef w' = sbUserIdRef w /\
  lastSyncAtRef w' = lastSyncAtRef w /\
  isSyncingRef w' = isSyncingRef w.

(** The world in which [removeTransaction] starts its live delete: after
    the local delete and the enqueueing. *)
Definition before_live_delete (id : string) (w : W) : W :=
  snd ((removeTransaction_local id ;; write (Storage.addPendingDelete id)) w).

(** The stored queue of a world. *)
Definition queue (w : W) : list string := Storage.getPendingDeletes (storage w).

(** Two worlds that differ at most in the queries sent and the warnings
    printed. *)
Definition steady (w w' : W) : Prop :=
  env w' = env w /\
  storage w' = storage w /\
  clock w' = clock w /\
  state w' = state w /\
  sbUserIdRef w' = sbUserIdRef w /\
  lastSyncAtRef w' = lastSyncAtRef w /\
  isSyncingRef w' = isSyncingRef w.

End Orchestrator.

(** The queries sent to the remote service between two worlds. *)
Definition sent_since {num : Type} (w w' : World num) : list (Request num) :=
  skipn (List.length (requests w)) (requests w').

(** ** The rest of the provider: loading, accounts, categories, foreground *)

Section Lifecycle.
Context {num : Type}.
Notation W := (World num).

Definition loadAll : Async (num:=num) unit :=
  fun w =>
    (write (Storage.initializeStorage (defaults (env w))) ;;
     txs <- read Storage.getTransactions ;;
     accs <- read (Storage.getAccounts (defaults (env w))) ;;
     cats <- read (Storage.getCategories (defaults (env w))) ;;
     dispatch (SET_ALL txs accs cats)) w.

Definition addAccount (account : Account num) : Async unit :=
  fun w =>
    (write (Storage.saveAccount (defaults (env w)) account) ;;
     dispatch (UPSERT_ACCOUNT account)) w.

Definition updateAccount (account : Account num) : Async unit :=
  fun w =>
    (write (Storage.saveAccount (defaults (env w)) account) ;;
     dispatch (UPSERT_ACCOUNT account)) w.

Definition removeAccount (id : string) : Async (num:=num) unit :=
  fun w =>
    (write (Storage.deleteAccount (defaults (env w)) id) ;;
     dispatch (DELETE_ACCOUNT id)) w.

Definition addCategory (category : Category num) : Async unit :=
  fun w =>
    (write (Storage.saveCategory (defaults (env w)) category) ;;
     dispatch (UPSERT_CATEGORY category)) w.

Definition updateCategory (category : Category num) : Async unit :=
  fun w =>
    (write (Storage.saveCategory (defaults (env w)) category) ;;
     dispatch (UPSERT_CATEGORY category)) w.

Definition removeCategory (id : string) : Async (num:=num) unit :=
  fun w =>
    (write (Storage.deleteCategory (defaults (env w)) id) ;;
     dispatch (DELETE_CATEGORY id)) w.

(** Minimum ms between two background syncs (2 minutes). *)
Definition SYNC_COOLDOWN_MS : Z := 2 * 60 * 1000.

(** The listener of [AppState] changes: re-sync when the app comes to the
    foreground.  The pass is started and not awaited. *)
Definition onAppStateChange (nextState : string) : Async (num:=num) unit :=
  fun w =>
    if negb (String.eqb nextState "active") then (Resolved tt, w)
    else if negb (truthy (sbUserIdRef w)) then (Resolved tt, w)
    else if (clock w - lastSyncAtRef w <? SYNC_COOLDOWN_MS)%Z then (Resolved tt, w)
    else
      fire_and_forget
        (catch (performSync (nullish (sbUserIdRef w) ""))
               (console_warn "[AppContext] foreground sync error:")) w.

(** The entry points of the provider that work on the local store only. *)
Inductive LocalCall :=
| CallAddTransaction (tx : Transaction num)
| CallUpdateTransaction (tx : Transaction num)
| CallRemoveTransaction (id : string)
| CallAddAccount (account : Account num)
| CallUpdateAccount (account : Account num)
| CallRemoveAccount (id : string)
| CallAddCategory (category : Category num)
| CallUpdateCategory (category : Category num)
| CallRemoveCategory (id : string)
| CallRefresh.

Definition local_call (c : LocalCall) : Async unit :=
  match c with
  | CallAddTransaction tx => addTransaction tx
  | CallUpdateTransaction tx => updateTransaction tx
  | CallRemoveTransaction id => removeTransaction id
  | CallAddAccount account => addAccount account
  | CallUpdateAccount account => updateAccount account
  | CallRemoveAccount id => removeAccount id
  | CallAddCategory category => addCategory category
  | CallUpdateCategory category => updateCategory category
  | CallRemoveCategory id => removeCategory id
  | CallRefresh => loadAll
  end.

Definition local_calls (cs : list LocalCall) (w : W) : W :=
  fold_left (fun w c => snd (local_call c w)) cs w.

(** The record that the call saves is one that JSON carries unchanged. *)
Definition json_safe_call `{JsonNumber num} (c : LocalCall) : Prop :=
  match c with
  | CallAddTransaction tx | CallUpdateTransaction tx =>
      json_safe (Transaction.amount tx)
  | CallAddAccount account | CallUpdateAccount account =>
      json_safe (Account.initialBalance account)
  | CallAddCategory category | CallUpdateCategory category =>
      json_safe (Category.sortOrder category)
  | CallRemoveTransaction _ | CallRemoveAccount _ | CallRemoveCategory _
  | CallRefresh => True
  end.

(** The in-memory state holds what the local store holds. *)
Definition mirrors (w : W) : Prop :=
  transactions (state w) = Storage.getTransactions (storage w) /\
  accounts (state w) = Storage.getAccounts (defaults (env w)) (storage w) /\
  categories (state w) = Storage.getCategories (defaults (env w)) (storage w).

(** A call that resolves without a query, a warning or a write to the
    pending-deletes queue. *)
Definition stays_local (p : Async (num:=num) unit) (w : W) : Prop :=
  fst (p w) = Resolved tt /\
  requests (snd (p w)) = requests w /\
  console (snd (p w)) = console w /\
  Storage.PENDING_DELETES (storage (snd (p w))) = Storage.PENDING_DELETES (storage w).

(** The clock of the world moved to [t]. *)
Definition set_clock (t : Z) (w : W) : W :=
  {| env := env w; storage := storage w; requests := requests w; console := console w;
     clock := t; state := state w; sbUserIdRef := sbUserIdRef w;
     lastSyncAtRef := lastSyncAtRef w; isSyncingRef := isSyncingRef w |}.

(** What the pull of a pass yields in a world: the rows mapped to
    records, or nothing when the fetch fails. *)
Definition pulled (sbUserId : string) (w : W) : list (Transaction num) :=
  match fst (fetchRemoteTransactions sbUserId w) with
  | Resolved l => l
  | Rejected _ => []
  end.

(** What a mutation of transactions does to a list of them. *)
Definition local_effect (m : Mutation (num:=num)) (l : list (Transaction num))
  : list (Transaction num) :=
  match m with
  | Add tx | Update tx => upsert (@Transaction.id num) tx l
  | Remove id => filter (fun t => negb (String.eqb (Transaction.id t) id)) l
  end.

End Lifecycle.


(* ================================================================== *)
(** * Sample data *)

Module Sample.

(** An expense on the cash account, as in the scenarios of the sync core. *)
Definition tx {num : Type} (id : string) (amount : num) (updatedAt : Js.value)
  : Transaction num :=
  {| Transaction.id := id;
     Transaction.type := expense;
     Transaction.amount := amount;
     Transaction.categoryId := "cat-food";
     Transaction.accountId := "acc-cash";
     Transaction.toAccountId := None;
     Transaction.date := "2026-03-05";
     Transaction.note := None;
     Transaction.createdAt := "2026-03-05T09:00:00.000Z";
     Transaction.updatedAt := updatedAt |}.

Definition T1 : string := "2026-03-05T10:00:00.000Z".
Definition T2 : string := "2026-03-05T11:30:00.000Z".
Definition T3 : string := "2026-03-06T08:15:00.000Z".

(** [t1] as first written, and after an edit of its amount. *)
Definition t1_old : Transaction Z := tx "t1" 50%Z (Js.str T1).
Definition t1_new : Transaction Z := tx "t1" 75%Z (Js.str T2).

(** Two edits of [t1] that carry the same timestamp. *)
Definition t1_here : Transaction Z := tx "t1" 60%Z (Js.str T2).
Definition t1_there : Transaction Z := tx "t1" 90%Z (Js.str T2).

(** [t1] edited a third time, and a copy that lost its timestamp. *)
Definition t1_latest : Transaction Z := tx "t1" 99%Z (Js.str T3).
Definition t1_undated : Transaction Z := tx "t1" 10%Z Js.undefined.

(** [t1] as a remote row with a NULL [updated_at] gives it, and local
    copies whose timestamp is [null] and the empty string. *)
Definition t1_remote_null : Transaction Z := tx "t1" 40%Z Js.null.
Definition t1_local_null : Transaction Z := tx "t1" 45%Z Js.null.
Definition t1_blank : Transaction Z := tx "t1" 55%Z (Js.str "").

Definition t2 : Transaction Z := tx "t2" 20%Z (Js.str T1).
Definition t3 : Transaction Z := tx "t3" 30%Z (Js.str T3).

(** The cash account and its four transactions, as in the test of the
    balance: income 200, expense 80, transfer out 100, transfer in 50. *)
Definition acc {num : Type} (id : string) (initialBalance : num) : Account num :=
  {| Account.id := id;
     Account.name := "Cash";
     Account.type := cash;
     Account.initialBalance := initialBalance;
     Account.icon := "cash";
     Account.color := "#4CAF50";
     Account.createdAt := "" |}.

Definition entry {num : Type} (id : string) (type : TransactionType) (amount : num)
    (accountId : string) (toAccountId : option string) (date : string)
  : Transaction num :=
  {| Transaction.id := id;
     Transaction.type := type;
     Transaction.amount := amount;
     Transaction.categoryId := "cat-food";
     Transaction.accountId := accountId;
     Transaction.toAccountId := toAccountId;
     Transaction.date := date;
     Transaction.note := None;
     Transaction.createdAt := "";
     Transaction.updatedAt := Js.str "" |}.

Definition acc_cash : Account float := acc "acc-cash" 500%float.

Definition cash_txs : list (Transaction float) :=
  [ entry "1" income 200%float "acc-cash" None "2026-03-01";
    entry "2" expense 80%float "acc-cash" None "2026-03-05";
    entry "3" transfer 100%float "acc-cash" (Some "acc-bank") "2026-03-10";
    entry "4" transfer 50%float "acc-bank" (Some "acc-cash") "2026-03-15" ].

Definition acc_cash_Z : Account Z := acc "acc-cash" 500%Z.

Definition cash_txs_Z : list (Transaction Z) :=
  [ entry "1" income 200%Z "acc-cash" None "2026-03-01";
    entry "2" expense 80%Z "acc-cash" None "2026-03-05";
    entry "3" transfer 100%Z "acc-cash" (Some "acc-bank") "2026-03-10";
    entry "4" transfer 50%Z "acc-bank" (Some "acc-cash") "2026-03-15" ].

(** An empty account and three small incomes, in two orders. *)
Definition acc_empty : Account float := acc "acc-cash" 0%float.

Definition dimes : list (Transaction float) :=
  [ entry "1" income 0.1%float "acc-cash" None "2026-03-01";
    entry "2" income 0.2%float "acc-cash" None "2026-03-02";
    entry "3" income 0.3%float "acc-cash" None "2026-03-03" ].

Definition dimes_reversed : list (Transaction float) := rev dimes.

(** A balance at the last power of two below which binary64 holds every
    integer, with two incomes of 1 and an expense of 2. *)
Definition acc_large : Account Z := acc "acc-cash" (2 ^ 53)%Z.

Definition units : list (Transaction Z) :=
  [ entry "1" income 1%Z "acc-cash" None "2026-03-01";
    entry "2" income 1%Z "acc-cash" None "2026-03-02";
    entry "3" expense 2%Z "acc-cash" None "2026-03-03" ].

(** A signed-in or guest session over a store that holds the given
    transactions and queue. *)
Definition no_defaults : Defaults Z :=
  {| DEFAULT_ACCOUNTS := []; DEFAULT_CATEGORIES := [] |}.

Definition world (net : Request Z -> Response Z) (owner : option string)
    (txs : list (Transaction Z)) (pending : option (list string)) : World Z :=
  {| env := {| defaults := no_defaults; configured := true; network := net |};
     storage := Storage.mk (Some txs) None None (Some "true") pending None;
     requests := [];
     console := [];
     clock := 1772700000000%Z;
     state := {| transactions := txs; accounts := []; categories := [];
                 loading := false |};
     sbUserIdRef := owner;
     lastSyncAtRef := 0%Z;
     isSyncingRef := false |}.

(** The remote service reports an error for every query. *)
Definition offline : Request Z -> Response Z :=
  fun _ => RespError "TypeError: Network request failed".

(** The remote service rejects every query. *)
Definition unreachable : Request Z -> Response Z :=
  fun _ => RespThrow "AbortError: Aborted".

(** The remote service accepts every query and holds the given rows. *)
Definition online (rows : list (SbTransaction Z)) : Request Z -> Response Z :=
  fun q =>
    match q with
    | ReqSelectEq _ => RespOk rows
    | _ => RespOk []
    end.

(** The same world with another behaviour of the remote service. *)
Definition reconnect (net : Request Z -> Response Z) (w : World Z) : World Z :=
  {| env := {| defaults := defaults (env w); configured := configured (env w);
               network := net |};
     storage := storage w; requests := requests w; console := console w;
     clock := clock w; state := state w; sbUserIdRef := sbUserIdRef w;
     lastSyncAtRef := lastSyncAtRef w; isSyncingRef := isSyncingRef w |}.

(** A signed-in session that holds [t1] and [t2], with [t9] queued for
    deletion, while the remote service reports errors. *)
Definition signed_in_offline : World Z :=
  world offline (Some "user-1") [t1_old; t2] (Some ["t9"]).

(** The row of [t2] as the remote table holds it. *)
Definition row_t2 : SbTransaction Z := toRow t2 "user-1" [] [].

(** A guest session on an empty store. *)
Definition guest : World Z := world offline None [] None.

(** Two default categories, and a store in use that holds a category of
    the user and its own copy of one default. *)
Definition category (id name : string) : Category Z :=
  {| Category.id := id;
     Category.name := name;
     Category.type := cat_expense;
     Category.icon := "tag";
     Category.color := "#999999";
     Category.isDefault := true;
     Category.sortOrder := 0%Z;
     Category.createdAt := "" |}.

Definition two_defaults : Defaults Z :=
  {| DEFAULT_ACCOUNTS := [acc "acc-cash" 0%Z];
     DEFAULT_CATEGORIES := [category "cat-food" "Food"; category "cat-salary" "Salary"] |}.

Definition used_store : Storage.t Z :=
  Storage.mk (Some [t1_old; t2]) (Some [acc "acc-bank" 100%Z])
    (Some [category "cat-pets" "Pets"; category "cat-food" "Groceries"])
    (Some "true") (Some ["t9"]) None.

(** A signed-in session that holds [t1], with nothing queued, while the
    remote table holds [t2]. *)
Definition signed_in_online : World Z :=
  world (online [row_t2]) (Some "user-1") [t1_old] None.

(** The remote service accepts the writes and rejects the select. *)
Definition pull_fails : Request Z -> Response Z :=
  fun q =>
    match q with
    | ReqSelectEq _ => RespThrow "AbortError: Aborted"
    | _ => RespOk []
    end.

Definition signed_in_pull_fails : World Z :=
  world pull_fails (Some "user-1") [t1_old] None.

End Sample.

(* ================================================================== *)
(** * Properties *)

(** ** Strings and maps *)

Lemma ltb_asym (a b : string) : String.ltb a b = true -> String.ltb b a = false.
Proof.
  unfold String.ltb. rewrite (String.compare_antisym b a).
  destruct (String.compare a b); simpl; congruence.
Qed.

Lemma ltb_total (a b : string) :
  a <> b -> String.ltb a b = true \/ String.ltb b a = true.
Proof.
  intro Hne. unfold String.ltb. rewrite (String.compare_antisym b a).
  destruct (String.compare a b) eqn:E; simpl; auto.
  apply String.compare_eq_iff in E. contradiction.
Qed.

Lemma ltb_irrefl (a : string) : String.ltb a a = false.
Proof.
  destruct (String.ltb a a) eqn:E; [|reflexivity].
  pose proof (ltb_asym _ _ E). congruence.
Qed.

Lemma ge_refl (t : string) : Js.ge (Js.str t) (Js.str t) = true.
Proof. simpl. now rewrite ltb_irrefl. Qed.

Lemma ge_undefined_l (b : Js.value) : Js.ge Js.undefined b = false.
Proof. reflexivity. Qed.

Lemma ge_undefined_r (a : Js.value) : Js.ge a Js.undefined = false.
Proof. now destruct a. Qed.

Section MapFacts.
Context {V : Type}.
Implicit Types (m : JsMap.t V) (k : string) (v : V).

Lemma get_set_same k v m : JsMap.get k (JsMap.set k v m) = Some v.
Proof.
  induction m as [|[k' v'] m IH]; simpl.
  - now rewrite String.eqb_refl.
  - destruct (String.eqb k' k) eqn:E; simpl; rewrite E; auto.
Qed.

Lemma get_set_other k k' v m :
  k <> k' -> JsMap.get k' (JsMap.set k v m) = JsMap.get k' m.
Proof.
  intro Hne. induction m as [|[k0 v0] m IH]; simpl.
  - destruct (String.eqb k k') eqn:E; auto.
    apply String.eqb_eq in E. contradiction.
  - destruct (String.eqb k0 k) eqn:E; simpl.
    + apply String.eqb_eq in E. subst k0.
      destruct (String.eqb k k') eqn:E'; auto.
      apply String.eqb_eq in E'. contradiction.
    + now rewrite IH.
Qed.

Lemma set_get_id k v m : JsMap.get k m = Some v -> JsMap.set k v m = m.
Proof.
  induction m as [|[k' v'] m IH]; simpl; [discriminate|].
  destruct (String.eqb k' k) eqn:E.
  - now intros [= ->].
  - intro H. now rewrite IH.
Qed.

Lemma get_none_keys k m : JsMap.get k m = None <-> ~ In k (JsMap.keys m).
Proof.
  induction m as [|[k' v'] m IH]; simpl.
  - tauto.
  - destruct (String.eqb k' k) eqn:E.
    + apply String.eqb_eq in E. split; [discriminate|]. intros H. exfalso; auto.
    + apply String.eqb_neq in E. rewrite IH. tauto.
Qed.

Lemma keys_set k v m :
  JsMap.keys (JsMap.set k v m) =
  match JsMap.get k m with
  | Some _ => JsMap.keys m
  | None => JsMap.keys m ++ [k]
  end.
Proof.
  unfold JsMap.keys.
  induction m as [|[k' v'] m IH]; simpl; auto.
  destruct (String.eqb k' k) eqn:E; simpl; auto.
  rewrite IH. now destruct (JsMap.get k m).
Qed.

Lemma in_keys_set k k' v m :
  In k' (JsMap.keys (JsMap.set k v m)) <-> k' = k \/ In k' (JsMap.keys m).
Proof.
  rewrite keys_set. destruct (JsMap.get k m) eqn:E.
  - split; auto. intros [->|H]; auto.
    destruct (in_dec string_dec k (JsMap.keys m)) as [Hin|Hn]; auto.
    apply get_none_keys in Hn. congruence.
  - rewrite in_app_iff. simpl. intuition.
Qed.

Lemma NoDup_keys_set k v m :
  NoDup (JsMap.keys m) -> NoDup (JsMap.keys (JsMap.set k v m)).
Proof.
  intro Hnd. rewrite keys_set. destruct (JsMap.get k m) eqn:E; auto.
  apply get_none_keys in E.
  apply NoDup_app; auto.
  - repeat constructor. simpl. tauto.
  - intros x Hx [<-|[]]. contradiction.
Qed.

Lemma get_in k v m : JsMap.get k m = Some v -> In (k, v) m.
Proof.
  induction m as [|[k' v'] m IH]; simpl; [discriminate|].
  destruct (String.eqb k' k) eqn:E.
  - apply String.eqb_eq in E. intros [= ->]. left. now subst.
  - auto.
Qed.

Lemma in_get k v m : NoDup (JsMap.keys m) -> In (k, v) m -> JsMap.get k m = Some v.
Proof.
  induction m as [|[k' v'] m IH]; simpl; [tauto|].
  intros Hnd [[= -> ->]|Hin].
  - now rewrite String.eqb_refl.
  - inversion Hnd; subst. destruct (String.eqb k' k) eqn:E.
    + apply String.eqb_eq in E. subst k'. exfalso. apply H1.
      change k with (fst (k, v)). now apply in_map.
    + auto.
Qed.

End MapFacts.

(** ** Dates are no numbers *)

Lemma strip_prefix_dated (p : string) : forall s r : string,
  ~ Js.dated p -> Js.strip_prefix p s = Some r -> Js.dated s -> Js.dated r.
Proof.
  unfold Js.dated.
  induction p as [|a p IH]; intros s r Hp; simpl.
  - intros [= <-]. auto.
  - destruct s as [|b s]; [discriminate|].
    destruct (Ascii.eqb a b) eqn:E; [|discriminate].
    apply Ascii.eqb_eq in E. subst b. simpl. intros Hr [Hd|Hd].
    + exfalso. apply Hp. now left.
    + apply (IH s); auto. intro H. apply Hp. now right.
Qed.

Lemma strip_white_space_char_dated (s r : string) :
  Js.strip_white_space_char s = Some r -> Js.dated s -> Js.dated r.
Proof.
  unfold Js.strip_white_space_char.
  assert (Hws : Forall (fun p => ~ Js.dated p) Js.StrWhiteSpaceChar).
  { unfold Js.dated. repeat constructor; simpl; intuition discriminate. }
  induction Hws as [|p ps Hp _ IH]; simpl; [discriminate|].
  destruct (Js.strip_prefix p s) as [s'|] eqn:E; auto.
  intros [= <-]. now apply (@strip_prefix_dated p s s' Hp E).
Qed.

Lemma skip_white_space_dated (fuel : nat) : forall s,
  Js.dated s -> Js.dated (Js.skip_white_space fuel s).
Proof.
  induction fuel as [|fuel IH]; intros s Hs; simpl; auto.
  destruct (Js.strip_white_space_char s) as [s'|] eqn:E; auto.
  apply IH. eapply strip_white_space_char_dated; eauto.
Qed.

Lemma dated_not_white_space (s : string) : Js.dated s -> Js.is_white_space s = false.
Proof.
  intro Hs. unfold Js.is_white_space.
  pose proof (@skip_white_space_dated (String.length s) s Hs) as H.
  destruct (Js.skip_white_space (String.length s) s); [destruct H | reflexivity].
Qed.

Lemma digit_not_T (radix : nat) (c : ascii) (d : Z) :
  Js.digit radix c = Some d -> c <> "T"%char.
Proof.
  intros H ->. unfold Js.digit in H. simpl in H. discriminate.
Qed.

Lemma digits_dated (radix : nat) : forall s acc count v n rest,
  Js.digits radix s acc count = (v, n, rest) -> Js.dated s -> Js.dated rest.
Proof.
  unfold Js.dated.
  induction s as [|c s IH]; simpl; intros acc count v n rest.
  - intros [= _ _ <-]. auto.
  - destruct (Js.digit radix c) as [d|] eqn:E.
    + intros H [Hc|Hs]; [exfalso; eapply digit_not_T; eauto|].
      eapply IH; eauto.
    + intros [= _ _ <-]. auto.
Qed.

Lemma dated_tail (c : ascii) (s : string) :
  c <> "T"%char -> Js.dated (String c s) -> Js.dated s.
Proof. unfold Js.dated. simpl. intros Hc [H|H]; [congruence | exact H]. Qed.

Lemma eqb_not_T (c a : ascii) : Ascii.eqb c a = true -> a <> "T"%char -> c <> "T"%char.
Proof. intro E. apply Ascii.eqb_eq in E. now subst. Qed.

Lemma exponent_part_dated (s rest : string) (e : Z) :
  Js.exponent_part s = Some (e, rest) -> Js.dated s -> Js.dated rest.
Proof.
  unfold Js.exponent_part. destruct s as [|c s]; [intros [= _ <-]; auto|].
  destruct (Ascii.eqb c "e" || Ascii.eqb c "E")%bool eqn:Ee; [|intros [= _ <-]; auto].
  intros H Hd.
  assert (Hs : Js.dated s).
  { apply (@dated_tail c); auto. apply orb_true_iff in Ee.
    destruct Ee as [E|E]; eapply eqb_not_T; eauto; discriminate. }
  clear Hd.
  assert (Hs' : forall (minus : bool) s'',
             (let '(ev, n, rest0) := Js.digits 10 s'' 0%Z O in
              match n with
              | O => None
              | S _ => Some (if minus then (- ev)%Z else ev, rest0)
              end) = Some (e, rest) -> Js.dated s'' -> Js.dated rest).
  { intros minus s'' H0 Hd. destruct (Js.digits 10 s'' 0%Z O) as [[ev n] rest0] eqn:Ed.
    destruct n; [discriminate|]. injection H0 as _ <-.
    eapply digits_dated; eauto. }
  destruct s as [|c' r]; [now apply (Hs' false "" H)|].
  destruct (Ascii.eqb c' "-") eqn:E1.
  - apply (Hs' true r H). apply (@dated_tail c'); auto.
    eapply eqb_not_T; eauto; discriminate.
  - destruct (Ascii.eqb c' "+") eqn:E2.
    + apply (Hs' false r H). apply (@dated_tail c'); auto.
      eapply eqb_not_T; eauto; discriminate.
    + now apply (Hs' false (String c' r) H).
Qed.

Lemma unsigned_decimal_dated (s rest : string) (n : Js.number_sign) :
  Js.unsigned_decimal s = Some (n, rest) -> Js.dated s -> Js.dated rest.
Proof.
  unfold Js.unsigned_decimal.
  destruct (Js.strip_prefix "Infinity" s) as [r|] eqn:Ei.
  - intros [= _ <-]. apply (@strip_prefix_dated "Infinity" s r); auto.
    unfold Js.dated. simpl. intuition discriminate.
  - destruct (Js.digits 10 s 0%Z O) as [[int ni] r1] eqn:E1.
    intros H Hd. assert (Hr1 : Js.dated r1) by (eapply digits_dated; eauto).
    assert (Hr2 : forall mantissa nf r2,
               match Js.strip_prefix "." r1 with
               | Some r => Js.digits 10 r int O
               | None => (int, O, r1)
               end = (mantissa, nf, r2) -> Js.dated r2).
    { intros mantissa nf r2. destruct (Js.strip_prefix "." r1) as [r|] eqn:Edot.
      - intro E2. eapply digits_dated; [exact E2|].
        apply (@strip_prefix_dated "." r1 r); auto.
        unfold Js.dated. simpl. intuition discriminate.
      - intros [= _ _ <-]. auto. }
    destruct (match Js.strip_prefix "." r1 with
              | Some r => Js.digits 10 r int O
              | None => (int, O, r1)
              end) as [[mantissa nf] r2] eqn:E2.
    specialize (Hr2 _ _ _ eq_refl).
    destruct (ni + nf)%nat; [discriminate|].
    destruct (Js.exponent_part r2) as [[e rest']|] eqn:Ee; [|discriminate].
    injection H as _ <-. eapply exponent_part_dated; eauto.
Qed.

Lemma StrNumericLiteral_dated (s rest : string) (n : Js.number_sign) :
  Js.StrNumericLiteral s = Some (n, rest) -> Js.dated s -> Js.dated rest.
Proof.
  unfold Js.StrNumericLiteral.
  destruct (Js.non_decimal_prefix s) as [[radix r]|] eqn:Ep.
  - destruct (Js.digits radix r 0%Z O) as [[v k] rest'] eqn:Ed.
    destruct k; [discriminate|]. intros [= _ <-] Hd.
    eapply digits_dated; [exact Ed|].
    unfold Js.non_decimal_prefix in Ep.
    destruct s as [|c0 [|c s]]; try discriminate.
    destruct (Ascii.eqb c0 "0") eqn:E0; [|discriminate].
    assert (Hs : Js.dated (String c s)).
    { apply (@dated_tail c0); auto. eapply eqb_not_T; eauto; discriminate. }
    assert (Hc : c <> "T"%char).
    { intros ->. simpl in Ep. discriminate. }
    assert (Hr : r = s).
    { destruct (Ascii.eqb c "x" || Ascii.eqb c "X")%bool; [congruence|].
      destruct (Ascii.eqb c "o" || Ascii.eqb c "O")%bool; [congruence|].
      destruct (Ascii.eqb c "b" || Ascii.eqb c "B")%bool; [congruence|discriminate]. }
    subst r. now apply (@dated_tail c).
  - destruct s as [|c r]; [discriminate|].
    destruct (Ascii.eqb c "+") eqn:E1.
    + intros H Hd. eapply unsigned_decimal_dated; [exact H|].
      apply (@dated_tail c); auto. eapply eqb_not_T; eauto; discriminate.
    + destruct (Ascii.eqb c "-") eqn:E2.
      * destruct (Js.unsigned_decimal r) as [[n' rest']|] eqn:Eu; [|discriminate].
        intros [= _ <-] Hd. eapply unsigned_decimal_dated; [exact Eu|].
        apply (@dated_tail c); auto. eapply eqb_not_T; eauto; discriminate.
      * apply unsigned_decimal_dated.
Qed.

(** A string that holds the separator of date and time is no
    [StringNumericLiteral]: its number is [NaN]. *)
Lemma date_is_no_number (s : string) : Js.dated s -> Js.StringToNumber s = Js.is_NaN.
Proof.
  intro Hd. unfold Js.StringToNumber.
  pose proof (@skip_white_space_dated (String.length s) s Hd) as Hs.
  destruct (Js.skip_white_space (String.length s) s) as [|c s'] eqn:E; [destruct Hs|].
  destruct (Js.StrNumericLiteral (String c s')) as [[n rest]|] eqn:El; auto.
  rewrite dated_not_white_space; auto.
  eapply StrNumericLiteral_dated; eauto.
Qed.

(** ** The merge engine, one id at a time *)

Section MergeFacts.
Context {num : Type}.
Notation Tx := (Transaction num).
Implicit Types (m : JsMap.t Tx) (tx : Tx) (x : string) (l local remote : list Tx).

Lemma in_set {V : Type} (k k0 : string) (v v0 : V) (m : JsMap.t V) :
  In (k, v) (JsMap.set k0 v0 m) -> (k, v) = (k0, v0) \/ In (k, v) m.
Proof.
  induction m as [|[k' v'] m IH]; simpl.
  - intros [H|[]]; auto.
  - destruct (String.eqb k' k0) eqn:E; simpl.
    + apply String.eqb_eq in E. subst k'. intros [H|H]; auto.
    + intros [H|H]; auto. destruct (IH H); auto.
Qed.

Lemma well_keyed_empty : @well_keyed num JsMap.empty.
Proof. split; [constructor | intros k v []]. Qed.

Lemma well_keyed_set m tx : well_keyed m -> well_keyed (set_by_id m tx).
Proof.
  intros [Hnd Hk]. split.
  - now apply NoDup_keys_set.
  - intros k v Hin. apply in_set in Hin. destruct Hin as [[= -> ->]|Hin]; auto.
Qed.

Lemma well_keyed_merge_remote m tx : well_keyed m -> well_keyed (merge_remote m tx).
Proof.
  intro H. unfold merge_remote.
  destruct (JsMap.get (Transaction.id tx) m) as [e|].
  - destruct (Js.ge _ _); auto. now apply well_keyed_set.
  - now apply well_keyed_set.
Qed.

Lemma well_keyed_fold (f : JsMap.t Tx -> Tx -> JsMap.t Tx) l :
  (forall m tx, well_keyed m -> well_keyed (f m tx)) ->
  forall m, well_keyed m -> well_keyed (fold_left f l m).
Proof.
  intro Hf. induction l as [|tx l IH]; simpl; auto.
Qed.

Lemma well_keyed_merge_map local remote : well_keyed (merge_map local remote).
Proof.
  unfold merge_map, seed_local.
  apply well_keyed_fold; [apply well_keyed_merge_remote|].
  apply (well_keyed_fold set_by_id); [apply well_keyed_set|apply well_keyed_empty].
Qed.

(** The entry of [x] after the first loop: the last record with id [x]. *)
Lemma get_seed x l : forall m,
  JsMap.get x (fold_left set_by_id l m) =
  fold_left (fun _ tx => Some tx) (with_id x l) (JsMap.get x m).
Proof.
  induction l as [|tx l IH]; intro m; simpl; auto.
  rewrite IH. unfold set_by_id at 1.
  destruct (String.eqb (Transaction.id tx) x) eqn:E; simpl.
  - apply String.eqb_eq in E. subst x. now rewrite get_set_same.
  - apply String.eqb_neq in E. now rewrite get_set_other.
Qed.

Lemma get_merge_remote_same m tx :
  JsMap.get (Transaction.id tx) (merge_remote m tx) =
  pick (JsMap.get (Transaction.id tx) m) tx.
Proof.
  unfold merge_remote, pick.
  destruct (JsMap.get (Transaction.id tx) m) as [e|] eqn:E.
  - destruct (Js.ge _ _); auto. apply get_set_same.
  - apply get_set_same.
Qed.

Lemma get_merge_remote_other m tx x :
  Transaction.id tx <> x -> JsMap.get x (merge_remote m tx) = JsMap.get x m.
Proof.
  intro Hne. unfold merge_remote.
  destruct (JsMap.get (Transaction.id tx) m) as [e|].
  - destruct (Js.ge _ _); auto. now apply get_set_other.
  - now apply get_set_other.
Qed.

(** The entry of [x] after the second loop: [pick] over the remote
    records with id [x], in order. *)
Lemma get_merge x l : forall m,
  JsMap.get x (fold_left merge_remote l m) =
  fold_left pick (with_id x l) (JsMap.get x m).
Proof.
  induction l as [|tx l IH]; intro m; simpl; auto.
  rewrite IH.
  destruct (String.eqb (Transaction.id tx) x) eqn:E; simpl.
  - apply String.eqb_eq in E. subst x. now rewrite get_merge_remote_same.
  - apply String.eqb_neq in E. now rewrite get_merge_remote_other.
Qed.

Lemma get_merge_map x local remote :
  JsMap.get x (merge_map local remote) =
  fold_left pick (with_id x remote)
    (fold_left (fun _ tx => Some tx) (with_id x local) None).
Proof.
  unfold merge_map, seed_local. rewrite get_merge.
  now rewrite (get_seed x local JsMap.empty).
Qed.

Lemma in_values_get m tx :
  well_keyed m ->
  In tx (JsMap.values m) <-> JsMap.get (Transaction.id tx) m = Some tx.
Proof.
  intros [Hnd Hk]. split.
  - intro Hin. apply in_map_iff in Hin. destruct Hin as [[k v] [Hv Hin]].
    simpl in Hv. subst v. rewrite (Hk _ _ Hin). now apply in_get.
  - intro Hg. apply get_in in Hg. apply in_map_iff.
    now exists (Transaction.id tx, tx).
Qed.

Lemma ids_values m : well_keyed m -> ids (JsMap.values m) = JsMap.keys m.
Proof.
  intros [_ Hk]. unfold ids, JsMap.values, JsMap.keys.
  rewrite map_map. apply map_ext_in. intros [k v] Hin. simpl. auto.
Qed.

Lemma in_with_id x l tx : In tx (with_id x l) <-> In tx l /\ Transaction.id tx = x.
Proof.
  unfold with_id. rewrite filter_In. now rewrite String.eqb_eq.
Qed.

Lemma with_id_values_some m x tx :
  well_keyed m -> JsMap.get x m = Some tx -> with_id x (JsMap.values m) = [tx].
Proof.
  intros [Hnd Hk]. revert Hnd Hk.
  induction m as [|[k v] m IH]; simpl; [discriminate|].
  intros Hnd Hk Hg. inversion Hnd as [|? ? Hnin Hnd']; subst.
  assert (Hv : Transaction.id v = k) by (apply Hk; auto).
  rewrite Hv. destruct (String.eqb k x) eqn:E.
  - injection Hg as ->. apply String.eqb_eq in E. subst k. f_equal.
    assert (Hnone : forall m', (forall k' v', In (k', v') m' -> Transaction.id v' = k') ->
                    ~ In x (map fst m') -> with_id x (map snd m') = []).
    { induction m' as [|[k' v'] m' IH']; simpl; auto.
      intros Hk' Hn. rewrite (Hk' k' v') by auto.
      destruct (String.eqb k' x) eqn:E'.
      - apply String.eqb_eq in E'. tauto.
      - apply IH'; auto. }
    apply Hnone; auto.
  - apply IH; auto.
Qed.

Lemma with_id_values_none m x :
  well_keyed m -> JsMap.get x m = None -> with_id x (JsMap.values m) = [].
Proof.
  intros [Hnd Hk] Hg. apply get_none_keys in Hg.
  destruct (with_id x (JsMap.values m)) as [|tx rest] eqn:E; auto.
  exfalso. assert (Hin : In tx (with_id x (JsMap.values m))) by (rewrite E; now left).
  apply in_with_id in Hin. destruct Hin as [Hin <-].
  apply Hg. rewrite <- ids_values by (split; auto).
  unfold ids. now apply in_map.
Qed.

Lemma with_id_NoDup x l :
  NoDup (ids l) -> with_id x l = [] \/ exists tx, with_id x l = [tx].
Proof.
  induction l as [|tx l IH]; simpl; auto.
  intro Hnd. inversion Hnd as [|? ? Hnin Hnd']; subst.
  destruct (String.eqb (Transaction.id tx) x) eqn:E.
  - right. exists tx. f_equal. apply String.eqb_eq in E. subst x.
    destruct (with_id (Transaction.id tx) l) as [|y rest] eqn:Ey; auto.
    exfalso. assert (Hin : In y (with_id (Transaction.id tx) l)) by (rewrite Ey; now left).
    apply in_with_id in Hin. destruct Hin as [Hin Hid].
    apply Hnin. rewrite <- Hid. unfold ids. now apply in_map.
  - auto.
Qed.

Lemma NoDup_ids_merge local remote : NoDup (ids (mergeTransactions local remote)).
Proof.
  unfold mergeTransactions. rewrite ids_values by apply well_keyed_merge_map.
  apply well_keyed_merge_map.
Qed.

End MergeFacts.

(** ** Last writer wins *)

Section MergeProperties.
Context {num : Type}.
Notation Tx := (Transaction num).

(** C3.  Two records share an id and carry timestamps [T1 < T2]: merging
    the two one-element lists gives exactly the record that carries [T2],
    whichever of the two lists is the local one. *)
Theorem merge_last_writer_wins (r r' : Tx) (T1 T2 : string) :
  Transaction.id r = Transaction.id r' ->
  Transaction.updatedAt r = Js.str T1 ->
  Transaction.updatedAt r' = Js.str T2 ->
  Js.lt T1 T2 ->
  mergeTransactions [r] [r'] = [r'] /\ mergeTransactions [r'] [r] = [r'].
Proof.
  intros Hid H1 H2 Hlt. unfold Js.lt in Hlt.
  unfold mergeTransactions, merge_map, seed_local, merge_remote, set_by_id.
  simpl. rewrite Hid, !String.eqb_refl, H1, H2. simpl.
  rewrite Hlt, (ltb_asym _ _ Hlt). simpl.
  split; reflexivity.
Qed.

(** C4.  The records of an id carry one and the same timestamp in both
    lists, and the remote list holds a record of that id, [r] being the
    last of them (the only one when ids are distinct): the output holds
    that id exactly once, and the record it holds is [r], the remote one. *)
Theorem merge_tie_remote_wins (local remote : list Tx) (r : Tx) (rs : list Tx)
    (x t : string) :
  (forall l, In l local -> Transaction.id l = x -> Transaction.updatedAt l = Js.str t) ->
  (forall r', In r' remote -> Transaction.id r' = x -> Transaction.updatedAt r' = Js.str t) ->
  with_id x remote = rs ++ [r] ->
  with_id x (mergeTransactions local remote) = [r] /\
  count_occ string_dec (ids (mergeTransactions local remote)) x = 1.
Proof.
  intros Hl Hr Hlast.
  assert (Hseed : forall (ls : list Tx) (cur : option Tx),
             (forall e, cur = Some e -> Transaction.updatedAt e = Js.str t) ->
             (forall l, In l ls -> Transaction.updatedAt l = Js.str t) ->
             forall e, fold_left (fun _ tx => Some tx) ls cur = Some e ->
                       Transaction.updatedAt e = Js.str t).
  { induction ls as [|l ls IH]; simpl; intros cur Hcur Hls e He; auto.
    apply (IH (Some l)); auto. intros e' [= <-]. auto. }
  assert (Hpick : forall (ls : list Tx) (cur : option Tx),
             (forall e, cur = Some e -> Transaction.updatedAt e = Js.str t) ->
             (forall l, In l ls -> Transaction.updatedAt l = Js.str t) ->
             fold_left pick (ls ++ [r]) cur = Some r).
  { assert (Hrt : Transaction.updatedAt r = Js.str t).
    { assert (Hin : In r (with_id x remote)) by (rewrite Hlast; apply in_or_app; right; now left).
      apply in_with_id in Hin. destruct Hin. auto. }
    induction ls as [|l ls IH]; simpl; intros cur Hcur Hls.
    - destruct cur as [e|]; simpl; auto.
      now rewrite Hrt, (Hcur e eq_refl), ge_refl.
    - apply IH; auto. intros e He.
      destruct cur as [e0|]; simpl in He.
      + rewrite (Hls l), (Hcur e0 eq_refl), ge_refl in He by auto.
        injection He as <-. auto.
      + injection He as <-. auto. }
  assert (Hg : JsMap.get x (merge_map local remote) = Some r).
  { rewrite get_merge_map, Hlast. apply Hpick.
    - intros e He. apply (Hseed (with_id x local) None); auto; [discriminate|].
      intros l Hin. apply in_with_id in Hin. destruct Hin. auto.
    - intros l Hin.
      assert (Hin' : In l (with_id x remote)) by (rewrite Hlast; apply in_or_app; now left).
      apply in_with_id in Hin'. destruct Hin'. auto. }
  split.
  - apply with_id_values_some; auto. apply well_keyed_merge_map.
  - apply NoDup_count_occ'; [apply NoDup_ids_merge|].
    unfold mergeTransactions. rewrite ids_values by apply well_keyed_merge_map.
    destruct (in_dec string_dec x (JsMap.keys (merge_map local remote))) as [H|H]; auto.
    apply get_none_keys in H. congruence.
Qed.

(** C5 (amended).  For a list whose ids are pairwise distinct, merging
    the list with itself gives the list back: the same ids, the same
    record for each id, in the same order. *)
Theorem merge_idempotent (L : list Tx) :
  NoDup (ids L) -> mergeTransactions L L = L.
Proof.
  intro Hnd. unfold mergeTransactions, merge_map.
  assert (Hseed : forall l (m : JsMap.t Tx),
             NoDup (JsMap.keys m ++ ids l) ->
             fold_left set_by_id l m = m ++ map (fun tx => (Transaction.id tx, tx)) l).
  { induction l as [|tx l IH]; intros m H; simpl.
    - now rewrite app_nil_r.
    - assert (Hn : JsMap.get (Transaction.id tx) m = None).
      { apply get_none_keys. intro Hin. apply NoDup_remove_2 in H.
        apply H. apply in_or_app. now left. }
      assert (Hset : set_by_id m tx = m ++ [(Transaction.id tx, tx)]).
      { clear - Hn. unfold set_by_id. induction m as [|[k v] m IHm]; simpl in *; auto.
        destruct (String.eqb k (Transaction.id tx)); [discriminate|].
        now rewrite IHm. }
      rewrite Hset, IH.
      + now rewrite <- app_assoc.
      + unfold JsMap.keys. rewrite map_app. simpl. rewrite <- app_assoc. exact H. }
  unfold seed_local. rewrite (Hseed L JsMap.empty) by exact Hnd. simpl.
  set (m0 := map (fun tx => (Transaction.id tx, tx)) L).
  assert (Hk : JsMap.keys m0 = ids L).
  { unfold m0, JsMap.keys, ids. rewrite map_map. reflexivity. }
  assert (Hfix : forall l, (forall tx, In tx l -> JsMap.get (Transaction.id tx) m0 = Some tx) ->
                 fold_left merge_remote l m0 = m0).
  { induction l as [|tx l IH]; intro H; simpl; auto.
    assert (Hstep : merge_remote m0 tx = m0).
    { unfold merge_remote. rewrite (H tx) by now left.
      destruct (Js.ge _ _); auto. apply set_get_id. apply H. now left. }
    rewrite Hstep. apply IH. intros. apply H. now right. }
  rewrite Hfix.
  - unfold m0, JsMap.values. rewrite map_map. simpl. apply map_id.
  - intros tx Hin. apply in_get; [now rewrite Hk|].
    unfold m0. apply in_map_iff. now exists tx.
Qed.

(** C6 (amended).  Each of the two lists has pairwise distinct ids, and
    the records that share an id across the lists all carry a timestamp.
    For an id whose two records differ in timestamp the two orders of
    merging hold the same record; so when no pair across the lists has
    equal timestamps the two results hold the same records.  For an id
    whose two records have equal timestamps each order holds the record
    of its remote argument. *)
Theorem merge_commutes (A B : list Tx) :
  NoDup (ids A) ->
  NoDup (ids B) ->
  (forall a b, In a A -> In b B -> Transaction.id a = Transaction.id b ->
     Js.is_string (Transaction.updatedAt a) /\ Js.is_string (Transaction.updatedAt b)) ->
  (forall x,
     (forall a b, In a A -> In b B -> Transaction.id a = x -> Transaction.id b = x ->
        Transaction.updatedAt a <> Transaction.updatedAt b) ->
     JsMap.get x (merge_map A B) = JsMap.get x (merge_map B A)) /\
  ((forall a b, In a A -> In b B -> Transaction.id a = Transaction.id b ->
      Transaction.updatedAt a <> Transaction.updatedAt b) ->
   forall r, In r (mergeTransactions A B) <-> In r (mergeTransactions B A)) /\
  (forall a b, In a A -> In b B -> Transaction.id a = Transaction.id b ->
     Transaction.updatedAt a = Transaction.updatedAt b ->
     In b (mergeTransactions A B) /\ In a (mergeTransactions B A)).
Proof.
  intros HA HB Hts.
  assert (Hget : forall x,
             (forall a b, In a A -> In b B -> Transaction.id a = x -> Transaction.id b = x ->
                Transaction.updatedAt a <> Transaction.updatedAt b) ->
             JsMap.get x (merge_map A B) = JsMap.get x (merge_map B A)).
  { intros x Hdiff. rewrite !get_merge_map.
    destruct (@with_id_NoDup _ x A HA) as [Ea|[a Ea]];
      destruct (@with_id_NoDup _ x B HB) as [Eb|[b Eb]]; rewrite Ea, Eb; simpl; auto.
    assert (Ha : In a A /\ Transaction.id a = x)
      by (apply in_with_id; rewrite Ea; now left).
    assert (Hb : In b B /\ Transaction.id b = x)
      by (apply in_with_id; rewrite Eb; now left).
    destruct Ha as [Ha Hida], Hb as [Hb Hidb].
    destruct (Hts a b Ha Hb) as [[ta Hta] [tb Htb]]; [congruence|].
    specialize (Hdiff a b Ha Hb Hida Hidb).
    rewrite Hta, Htb in *.
    assert (Hne : ta <> tb) by congruence. simpl.
    destruct (ltb_total Hne) as [Hlt|Hlt]; rewrite Hlt, (ltb_asym _ _ Hlt); reflexivity. }
  split; [exact Hget|]. split.
  - intros Hdiff r. unfold mergeTransactions.
    rewrite !in_values_get by apply well_keyed_merge_map.
    rewrite Hget; [tauto|].
    intros a b Ha Hb Hida Hidb. apply Hdiff; congruence.
  - intros a b Ha Hb Hid Heq.
    assert (Ea : with_id (Transaction.id a) A = [a]).
    { destruct (@with_id_NoDup _ (Transaction.id a) A HA) as [E|[a' E]].
      - assert (Hin : In a (with_id (Transaction.id a) A)) by (apply in_with_id; auto).
        rewrite E in Hin. destruct Hin.
      - assert (Hin : In a (with_id (Transaction.id a) A)) by (apply in_with_id; auto).
        rewrite E in Hin. destruct Hin as [->|[]]. exact E. }
    assert (Eb : with_id (Transaction.id a) B = [b]).
    { destruct (@with_id_NoDup _ (Transaction.id a) B HB) as [E|[b' E]].
      - assert (Hin : In b (with_id (Transaction.id a) B)) by (apply in_with_id; auto).
        rewrite E in Hin. destruct Hin.
      - assert (Hin : In b (with_id (Transaction.id a) B)) by (apply in_with_id; auto).
        rewrite E in Hin. destruct Hin as [->|[]]. exact E. }
    destruct (Hts a b Ha Hb Hid) as [[ta Eta] _].
    unfold mergeTransactions. split.
    + apply in_values_get; [apply well_keyed_merge_map|].
      rewrite <- Hid, get_merge_map, Ea, Eb. simpl.
      now rewrite <- Heq, Eta, ge_refl.
    + apply in_values_get; [apply well_keyed_merge_map|].
      rewrite get_merge_map, Ea, Eb. simpl.
      now rewrite <- Heq, Eta, ge_refl.
Qed.

(** C7 (amended).  The merge is defined on every pair of lists, with
    duplicate ids or without timestamps: its output holds every id of the
    inputs once.  Between two records that share an id the comparison
    fails, and the local record stays, when the timestamp of either is
    [undefined], and when one timestamp is [null] and the other is a
    string that is no number.  A remote record whose timestamp is [null]
    replaces a local record whose timestamp is [null] too, or a string
    that converts to a number not above zero, as the empty string does.
    A string that holds the separator [T] of date and time, as every
    [toISOString()] does, is no number. *)
Theorem merge_without_timestamp :
  (forall local remote : list Tx,
     NoDup (ids (mergeTransactions local remote)) /\
     forall x, In x (ids (mergeTransactions local remote)) <->
               In x (ids local) \/ In x (ids remote)) /\
  (forall l r : Tx,
     Transaction.id l = Transaction.id r ->
     Transaction.updatedAt l = Js.undefined \/ Transaction.updatedAt r = Js.undefined ->
     mergeTransactions [l] [r] = [l]) /\
  (forall (l r : Tx) (s : string),
     Transaction.id l = Transaction.id r ->
     Js.StringToNumber s = Js.is_NaN ->
     (Transaction.updatedAt l = Js.null /\ Transaction.updatedAt r = Js.str s) \/
     (Transaction.updatedAt l = Js.str s /\ Transaction.updatedAt r = Js.null) ->
     mergeTransactions [l] [r] = [l]) /\
  (forall l r : Tx,
     Transaction.id l = Transaction.id r ->
     Transaction.updatedAt r = Js.null ->
     Transaction.updatedAt l = Js.null \/
     (exists s, Transaction.updatedAt l = Js.str s /\
                (Js.StringToNumber s = Js.is_zero \/
                 Js.StringToNumber s = Js.below_zero)) ->
     mergeTransactions [l] [r] = [r]) /\
  (forall s : string, Js.dated s -> Js.StringToNumber s = Js.is_NaN).
Proof.
  split; [|split; [|split; [|split; [|exact date_is_no_number]]]].
  - intros local remote. split; [apply NoDup_ids_merge|].
    intro x. unfold mergeTransactions.
    rewrite ids_values by apply well_keyed_merge_map.
    assert (Hseed : forall l (m : JsMap.t Tx),
               In x (JsMap.keys (fold_left set_by_id l m)) <->
               In x (JsMap.keys m) \/ In x (ids l)).
    { induction l as [|tx l IH]; intro m; simpl; [tauto|].
      rewrite IH. unfold set_by_id. rewrite in_keys_set. intuition. }
    assert (Hrem : forall l (m : JsMap.t Tx),
               In x (JsMap.keys (fold_left merge_remote l m)) <->
               In x (JsMap.keys m) \/ In x (ids l)).
    { induction l as [|tx l IH]; intro m; simpl; [tauto|].
      rewrite IH. unfold merge_remote.
      destruct (JsMap.get (Transaction.id tx) m) as [e|] eqn:E.
      - assert (Hin : In (Transaction.id tx) (JsMap.keys m)).
        { destruct (in_dec string_dec (Transaction.id tx) (JsMap.keys m)) as [H|H]; auto.
          apply get_none_keys in H. congruence. }
        destruct (Js.ge _ _).
        + unfold set_by_id. rewrite in_keys_set. intuition; subst; auto.
        + intuition; subst; auto.
      - unfold set_by_id. rewrite in_keys_set. intuition. }
    unfold merge_map, seed_local. rewrite Hrem, Hseed. simpl. tauto.
  - intros l r Hid Hnone.
    unfold mergeTransactions, merge_map, seed_local, merge_remote, set_by_id.
    simpl. rewrite <- Hid, String.eqb_refl.
    destruct Hnone as [H|H]; rewrite H.
    + now rewrite ge_undefined_r.
    + reflexivity.
  - intros l r s Hid Hnan Hcase.
    unfold mergeTransactions, merge_map, seed_local, merge_remote, set_by_id.
    simpl. rewrite <- Hid, String.eqb_refl.
    destruct Hcase as [[Hl Hr]|[Hl Hr]]; rewrite Hl, Hr; simpl; now rewrite Hnan.
  - intros l r Hid Hr Hcase.
    unfold mergeTransactions, merge_map, seed_local, merge_remote, set_by_id.
    simpl. rewrite <- Hid, String.eqb_refl, Hr.
    destruct Hcase as [Hl|[s [Hl [Hs|Hs]]]]; rewrite Hl; simpl;
      rewrite ?Hs; reflexivity.
Qed.

End MergeProperties.

(** ** The merge engine on sample data *)

Ltac distinct_ids :=
  repeat constructor; simpl; intuition discriminate.

Lemma merge_last_writer_wins_witness :
  mergeTransactions [Sample.t1_old] [Sample.t1_new] = [Sample.t1_new] /\
  mergeTransactions [Sample.t1_new] [Sample.t1_old] = [Sample.t1_new].
Proof.
  apply (@merge_last_writer_wins Z Sample.t1_old Sample.t1_new Sample.T1 Sample.T2);
    reflexivity.
Defined.

Lemma merge_tie_remote_wins_witness :
  with_id "t1"
    (mergeTransactions [Sample.t2; Sample.t1_here] [Sample.t1_there; Sample.t3])
  = [Sample.t1_there] /\
  count_occ string_dec
    (ids (mergeTransactions [Sample.t2; Sample.t1_here] [Sample.t1_there; Sample.t3]))
    "t1" = 1.
Proof.
  apply (@merge_tie_remote_wins Z [Sample.t2; Sample.t1_here]
           [Sample.t1_there; Sample.t3] Sample.t1_there [] "t1" Sample.T2).
  - intros l [<-|[<-|[]]]; [discriminate | reflexivity].
  - intros r' [<-|[<-|[]]]; [reflexivity | discriminate].
  - reflexivity.
Defined.

(** A list that holds an id twice, the older record last: merging it with
    itself keeps the newer record only. *)
Lemma merge_idempotent_counterexample :
  mergeTransactions [Sample.t1_new; Sample.t1_old] [Sample.t1_new; Sample.t1_old]
  = [Sample.t1_new] /\
  ~ (forall r : Transaction Z,
       In r (mergeTransactions [Sample.t1_new; Sample.t1_old]
                               [Sample.t1_new; Sample.t1_old])
       <-> In r [Sample.t1_new; Sample.t1_old]).
Proof.
  split; [reflexivity|].
  intro H. destruct (H Sample.t1_old) as [_ Hback].
  assert (Hin : In Sample.t1_old [Sample.t1_new; Sample.t1_old])
    by (right; left; reflexivity).
  apply Hback in Hin. vm_compute in Hin.
  destruct Hin as [E|[]]. discriminate E.
Qed.

Lemma merge_idempotent_witness :
  mergeTransactions [Sample.t1_old; Sample.t2; Sample.t3]
                    [Sample.t1_old; Sample.t2; Sample.t3]
  = [Sample.t1_old; Sample.t2; Sample.t3].
Proof.
  apply (@merge_idempotent Z [Sample.t1_old; Sample.t2; Sample.t3]).
  distinct_ids.
Defined.

(** Two failures of commutativity without a tie: an id held twice by one
    list, and a record without a timestamp. *)
Lemma merge_commutes_counterexample :
  ((forall a b : Transaction Z,
      In a [Sample.t1_latest; Sample.t1_old] -> In b [Sample.t1_new] ->
      Transaction.id a = Transaction.id b ->
      Transaction.updatedAt a <> Transaction.updatedAt b) /\
   mergeTransactions [Sample.t1_latest; Sample.t1_old] [Sample.t1_new]
   = [Sample.t1_new] /\
   mergeTransactions [Sample.t1_new] [Sample.t1_latest; Sample.t1_old]
   = [Sample.t1_latest]) /\
  ((forall a b : Transaction Z,
      In a [Sample.t1_undated] -> In b [Sample.t1_new] ->
      Transaction.id a = Transaction.id b ->
      Transaction.updatedAt a <> Transaction.updatedAt b) /\
   mergeTransactions [Sample.t1_undated] [Sample.t1_new] = [Sample.t1_undated] /\
   mergeTransactions [Sample.t1_new] [Sample.t1_undated] = [Sample.t1_new]) /\
  ~ (forall A B : list (Transaction Z),
       (forall a b, In a A -> In b B -> Transaction.id a = Transaction.id b ->
          Transaction.updatedAt a <> Transaction.updatedAt b) ->
       forall r, In r (mergeTransactions A B) <-> In r (mergeTransactions B A)).
Proof.
  assert (H1 : forall a b : Transaction Z,
             In a [Sample.t1_latest; Sample.t1_old] -> In b [Sample.t1_new] ->
             Transaction.id a = Transaction.id b ->
             Transaction.updatedAt a <> Transaction.updatedAt b).
  { intros a b [<-|[<-|[]]] [<-|[]] _; discriminate. }
  assert (H2 : forall a b : Transaction Z,
             In a [Sample.t1_undated] -> In b [Sample.t1_new] ->
             Transaction.id a = Transaction.id b ->
             Transaction.updatedAt a <> Transaction.updatedAt b).
  { intros a b [<-|[]] [<-|[]] _; discriminate. }
  repeat split; auto.
  intro H. specialize (H _ _ H1 Sample.t1_new). vm_compute in H.
  destruct H as [H _]. destruct (H (or_introl eq_refl)) as [E|[]]. discriminate E.
Qed.

Lemma merge_commutes_witness :
  (forall r : Transaction Z,
     In r (mergeTransactions [Sample.t1_old; Sample.t2] [Sample.t1_new; Sample.t3]) <->
     In r (mergeTransactions [Sample.t1_new; Sample.t3] [Sample.t1_old; Sample.t2])) /\
  In Sample.t1_there (mergeTransactions [Sample.t1_here; Sample.t2] [Sample.t1_there]) /\
  In Sample.t1_here (mergeTransactions [Sample.t1_there] [Sample.t1_here; Sample.t2]).
Proof.
  split.
  - apply (@merge_commutes Z [Sample.t1_old; Sample.t2] [Sample.t1_new; Sample.t3]).
    + distinct_ids.
    + distinct_ids.
    + intros a b [<-|[<-|[]]] [<-|[<-|[]]]; try discriminate.
      intros _. split; eexists; reflexivity.
    + intros a b [<-|[<-|[]]] [<-|[<-|[]]]; discriminate.
  - apply (@merge_commutes Z [Sample.t1_here; Sample.t2] [Sample.t1_there]).
    + distinct_ids.
    + distinct_ids.
    + intros a b [<-|[<-|[]]] [<-|[]]; try discriminate.
      intros _. split; eexists; reflexivity.
    + now left.
    + now left.
    + reflexivity.
    + reflexivity.
Defined.

(** A local record without a timestamp against a remote record with one:
    the record without a timestamp is the one kept. *)
Lemma merge_missing_timestamp_counterexample :
  Transaction.id Sample.t1_new = Transaction.id Sample.t1_undated /\
  Transaction.updatedAt Sample.t1_new = Js.str Sample.T2 /\
  Transaction.updatedAt Sample.t1_undated = Js.undefined /\
  mergeTransactions [Sample.t1_undated] [Sample.t1_new] = [Sample.t1_undated] /\
  ~ In Sample.t1_new (mergeTransactions [Sample.t1_undated] [Sample.t1_new]).
Proof.
  repeat split. vm_compute. intros [E|[]]. discriminate E.
Qed.

Lemma merge_without_timestamp_witness :
  mergeTransactions [Sample.t1_undated] [Sample.t1_new] = [Sample.t1_undated] /\
  mergeTransactions [Sample.t1_new] [Sample.t1_undated] = [Sample.t1_new] /\
  mergeTransactions [Sample.t1_local_null] [Sample.t1_new] = [Sample.t1_local_null] /\
  mergeTransactions [Sample.t1_new] [Sample.t1_remote_null] = [Sample.t1_new] /\
  mergeTransactions [Sample.t1_local_null] [Sample.t1_remote_null] = [Sample.t1_remote_null] /\
  mergeTransactions [Sample.t1_blank] [Sample.t1_remote_null] = [Sample.t1_remote_null].
Proof.
  destruct (@merge_without_timestamp Z) as (_ & Hundef & Hnan & Hnull & _).
  split; [|split; [|split; [|split; [|split]]]].
  - apply Hundef; [reflexivity | now left].
  - apply Hundef; [reflexivity | now right].
  - apply (Hnan _ _ Sample.T2); [reflexivity | reflexivity | now left].
  - apply (Hnan _ _ Sample.T2); [reflexivity | reflexivity | now right].
  - apply Hnull; [reflexivity | reflexivity | now left].
  - apply Hnull; [reflexivity | reflexivity |].
    right. exists "". split; [reflexivity | now left].
Defined.

(** ** Sums and differences of integers in binary64 *)

Module Binary64Facts.
Import Binary64.
Local Open Scope Z_scope.

Lemma digits2_size p : digits2_pos p = Pos.size p.
Proof. induction p; simpl; congruence. Qed.

Lemma D_bounds m : 2 ^ (D m - 1) <= Zpos m < 2 ^ D m.
Proof.
  unfold D. rewrite digits2_size.
  pose proof (Pos.size_gt m) as Hgt. pose proof (Pos.size_le m) as Hle.
  assert (E : Zpos (2 ^ Pos.size m) = 2 ^ Zpos (Pos.size m)) by (now rewrite Pos2Z.inj_pow).
  split.
  - apply Pos2Z.pos_le_pos in Hle. rewrite E in Hle.
    replace (Zpos (Pos.size m)) with (Z.succ (Zpos (Pos.size m) - 1)) in Hle by lia.
    rewrite Z.pow_succ_r in Hle by lia. lia.
  - apply Pos2Z.pos_lt_pos in Hgt. now rewrite E in Hgt.
Qed.

Lemma D_pos m : 1 <= D m.
Proof. unfold D. lia. Qed.

Lemma D_unique m d : 2 ^ (d - 1) <= Zpos m < 2 ^ d -> D m = d.
Proof.
  intros [H1 H2]. pose proof (D_bounds m) as [H3 H4]. pose proof (D_pos m).
  assert (Hd : 1 <= d).
  { destruct (Z_lt_le_dec d 1) as [Hlt|]; auto.
    assert (2 ^ d <= 2 ^ 0) by (destruct (Z_lt_le_dec d 0);
      [rewrite Z.pow_neg_r by lia; simpl; lia | apply Z.pow_le_mono_r; lia]).
    simpl in *. lia. }
  destruct (Z.lt_trichotomy (D m) d) as [Hlt|[->|Hgt]]; auto; exfalso.
  - assert (2 ^ D m <= 2 ^ (d - 1)) by (apply Z.pow_le_mono_r; lia). lia.
  - assert (2 ^ d <= 2 ^ (D m - 1)) by (apply Z.pow_le_mono_r; lia). lia.
Qed.

Lemma D_shift m m' k : 0 <= k -> Zpos m' = Zpos m * 2 ^ k -> D m' = D m + k.
Proof.
  intros Hk E. apply D_unique. pose proof (D_bounds m) as [H1 H2]. pose proof (D_pos m).
  rewrite E. replace (D m + k - 1) with ((D m - 1) + k) by lia.
  rewrite !Z.pow_add_r by lia.
  assert (0 < 2 ^ k) by (apply Z.pow_pos_nonneg; lia). nia.
Qed.

Lemma iter_xO m d : Zpos (Pos.iter xO m d) = Zpos m * 2 ^ Zpos d.
Proof.
  induction d using Pos.peano_ind.
  - simpl. lia.
  - rewrite Pos.iter_succ, Pos2Z.inj_succ, Z.pow_succ_r by lia.
    rewrite Pos2Z.inj_xO, IHd. lia.
Qed.

Lemma iter_pos_iter {A} (f : A -> A) p : forall x, iter_pos f p x = Pos.iter f x p.
Proof.
  induction p; intro x; simpl.
  - rewrite !IHp. now rewrite <- !Pos.iter_swap.
  - now rewrite !IHp.
  - reflexivity.
Qed.

Lemma shr_1_even q : shr_1 (rec_exact (Zpos q~0)) = rec_exact (Zpos q).
Proof. reflexivity. Qed.

Lemma iter_shr_exact n : forall m m' : positive,
  Zpos m = Zpos m' * 2 ^ Zpos n ->
  iter_pos shr_1 n (rec_exact (Zpos m)) = rec_exact (Zpos m').
Proof.
  intros m m'. rewrite iter_pos_iter. revert m m'.
  induction n using Pos.peano_ind; intros m m' E.
  - cbn [Pos.iter]. change (2 ^ 1) with 2 in E.
    destruct m as [q|q|]; [lia| |lia]. assert (q = m') by lia. subst. reflexivity.
  - rewrite Pos.iter_succ.
    rewrite Pos2Z.inj_succ, Z.pow_succ_r in E by lia.
    rewrite (IHn m (m'~0)%positive) by lia. apply shr_1_even.
Qed.

Lemma pow2_pos k : 0 <= k -> 0 < 2 ^ k.
Proof. intro. apply Z.pow_pos_nonneg; lia. Qed.

Lemma is_sint_shift ms ms' e t a :
  is_sint ms e a -> is_sint ms' t a -> e <= t -> ms = ms' * 2 ^ (t - e).
Proof.
  intros [H1 H2] [H3 H4] Hle.
  destruct (Z_lt_le_dec e 0) as [He|He]; destruct (Z_lt_le_dec t 0) as [Ht|Ht].
  - rewrite (H2 He), (H4 Ht), <- Z.mul_assoc, <- Z.pow_add_r by lia.
    repeat f_equal; lia.
  - rewrite (H2 He), (H3 Ht), <- Z.mul_assoc, <- Z.pow_add_r by lia.
    repeat f_equal; lia.
  - lia.
  - pose proof (pow2_pos He). specialize (H1 He). specialize (H3 Ht).
    apply (Z.mul_reg_r _ _ (2 ^ e)); [lia|].
    rewrite <- H1, H3, <- Z.mul_assoc, <- Z.pow_add_r by lia.
    repeat f_equal; lia.
Qed.

Lemma is_sint_inj ms ms' e a : is_sint ms e a -> is_sint ms' e a -> ms = ms'.
Proof.
  intros H H'. rewrite (is_sint_shift H H') by lia.
  rewrite Z.sub_diag. simpl. lia.
Qed.

Lemma is_sint_align ms e e' a :
  is_sint ms e a -> e' <= e -> is_sint (ms * 2 ^ (e - e')) e' a.
Proof.
  intros [H1 H2] Hle. split; intro He'.
  - rewrite H1 by lia. rewrite <- Z.mul_assoc, <- Z.pow_add_r by lia.
    repeat f_equal; lia.
  - destruct (Z_lt_le_dec e 0) as [He|He].
    + rewrite (H2 He), <- Z.mul_assoc, <- Z.pow_add_r by lia. repeat f_equal; lia.
    + rewrite (H1 He), <- Z.mul_assoc, <- Z.pow_add_r by lia. repeat f_equal; lia.
Qed.

Lemma is_sint_add p q e a b : is_sint p e a -> is_sint q e b -> is_sint (p + q) e (a + b).
Proof. intros [H1 H2] [H3 H4]. split; intro He; [rewrite H1, H3|rewrite H2, H4]; auto; lia. Qed.

Lemma is_sint_opp p e a : is_sint p e a -> is_sint (- p) e (- a).
Proof. intros [H1 H2]. split; intro He; [rewrite H1|rewrite H2]; auto; lia. Qed.

Lemma is_sint_zero e a : is_sint 0 e a -> a = 0.
Proof.
  intros [H1 H2]. destruct (Z_lt_le_dec e 0) as [He|He].
  - specialize (H2 He). pose proof (@pow2_pos (- e)). nia.
  - rewrite H1; lia.
Qed.

Lemma is_sint_sign ms e a : is_sint ms e a -> (0 < ms <-> 0 < a) /\ (ms < 0 <-> a < 0).
Proof.
  intros [H1 H2]. destruct (Z_lt_le_dec e 0) as [He|He].
  - specialize (H2 He). pose proof (@pow2_pos (- e)). nia.
  - specialize (H1 He). pose proof (pow2_pos He). nia.
Qed.

Lemma D_log2 p : D p = Z.log2 (Zpos p) + 1.
Proof.
  apply D_unique. pose proof (Z.log2_spec (Zpos p)) as H.
  replace (Z.log2 (Zpos p) + 1 - 1) with (Z.log2 (Zpos p)) by lia.
  replace (Z.log2 (Zpos p) + 1) with (Z.succ (Z.log2 (Zpos p))) by lia.
  apply H. lia.
Qed.

Lemma is_int_digits m e v : is_sint (Zpos m) e v -> 0 < v /\ D m + e = Z.log2 v + 1.
Proof.
  intro H. pose proof (is_sint_sign H) as [Hs _].
  assert (Hv : 0 < v) by (apply Hs; lia). split; auto.
  destruct v as [|p|p]; try lia. rewrite <- D_log2.
  destruct H as [H1 H2]. destruct (Z_lt_le_dec e 0) as [He|He].
  - rewrite (@D_shift p m (-e)); [lia|lia|]. rewrite (H2 He). reflexivity.
  - rewrite (@D_shift m p e); [lia|lia|]. now apply H1.
Qed.

Lemma fexp_texp m e v :
  is_sint (Zpos m) e v -> fexp prec emax (D m + e) = texp v.
Proof.
  intro H. destruct (is_int_digits H) as [Hv ->].
  unfold fexp, SpecFloat.emin, prec, emax, texp.
  pose proof (Z.log2_nonneg v). lia.
Qed.

Lemma binary_round_aux_fix s m t v :
  is_sint (Zpos m) t v -> t = texp v -> t <= 971 ->
  binary_round_aux prec emax s (Zpos m) t loc_Exact = S754_finite s m t.
Proof.
  intros H Ht Hle. unfold binary_round_aux, shr_fexp.
  cbn [Zdigits2 shr_record_of_loc]. fold (D m).
  rewrite (fexp_texp H), <- Ht, Z.sub_diag. cbn [shr shr_m loc_of_shr_record round_nearest_even].
  cbn [Zdigits2 shr_record_of_loc]. fold (D m).
  rewrite (fexp_texp H), <- Ht, Z.sub_diag. cbn [shr shr_m].
  unfold emax, prec. destruct (t <=? 1024 - 53) eqn:E; auto.
  apply Z.leb_gt in E. lia.
Qed.

Lemma texp_le v : 0 < v <= 2 ^ 53 -> -52 <= texp v <= 1.
Proof.
  intros [H1 H2]. unfold texp. pose proof (Z.log2_nonneg v).
  assert (Z.log2 v <= Z.log2 (2 ^ 53)) by (apply Z.log2_le_mono; lia).
  change (Z.log2 (2 ^ 53)) with 53 in *. lia.
Qed.

Lemma binary_round_exact s m e v m' :
  is_sint (Zpos m) e v -> v <= 2 ^ 53 -> is_sint (Zpos m') (texp v) v ->
  binary_round prec emax s m e = S754_finite s m' (texp v).
Proof.
  intros H Hv H'. destruct (is_int_digits H) as [Hpos _].
  pose proof (texp_le (conj Hpos Hv)) as Ht.
  unfold binary_round. fold (D m). rewrite (fexp_texp H).
  unfold shl_align. destruct (texp v - e) as [|d|d] eqn:Ed.
  - assert (e = texp v) by lia. subst e.
    assert (m = m') by (pose proof (is_sint_inj H H'); congruence). subst m'.
    apply (binary_round_aux_fix s H); auto. lia.
  - (* shift right by d *)
    assert (Hm : Zpos m = Zpos m' * 2 ^ Zpos d).
    { rewrite <- Ed. apply (is_sint_shift H H'). lia. }
    unfold binary_round_aux, shr_fexp. cbn [Zdigits2 shr_record_of_loc]. fold (D m).
    rewrite (fexp_texp H), Ed. cbn [shr]. fold (rec_exact (Zpos m)).
    rewrite (@iter_shr_exact d m m' Hm). cbn [rec_exact shr_m loc_of_shr_record round_nearest_even].
    replace (e + Zpos d) with (texp v) by lia.
    cbn [Zdigits2 shr_record_of_loc]. fold (D m').
    rewrite (fexp_texp H'), Z.sub_diag. cbn [shr shr_m].
    unfold emax, prec. destruct (texp v <=? 1024 - 53) eqn:E; auto.
    apply Z.leb_gt in E. lia.
  - (* shift left by d *)
    assert (Hm : is_sint (Zpos (Pos.iter xO m d)) (texp v) v).
    { rewrite iter_xO. replace (Zpos d) with (e - texp v) by lia.
      apply is_sint_align; auto. lia. }
    assert (Pos.iter xO m d = m') by (pose proof (is_sint_inj Hm H'); congruence).
    subst m'. apply (binary_round_aux_fix s Hm); auto. lia.
Qed.

Lemma exists_mantissa v : 0 < v <= 2 ^ 53 -> exists m, is_sint (Zpos m) (texp v) v.
Proof.
  intros [H1 H2]. pose proof (texp_le (conj H1 H2)) as Ht.
  destruct (Z_lt_le_dec 0 (texp v)) as [Hp|Hn].
  - assert (texp v = 1) by lia.
    assert (Hl : Z.log2 v = 53) by (unfold texp in *; lia).
    pose proof (Z.log2_spec v H1) as [Hs _]. rewrite Hl in Hs.
    exists (Z.to_pos (2 ^ 52)). rewrite H. split; intro; [|lia].
    change (Zpos (Z.to_pos (2 ^ 52)) * 2 ^ 1) with (2 ^ 53). lia.
  - exists (Z.to_pos (v * 2 ^ (- texp v))).
    pose proof (@pow2_pos (- texp v)).
    rewrite Z2Pos.id by nia. split; intro; [|reflexivity].
    assert (E : texp v = 0) by lia. rewrite E. simpl. lia.
Qed.

Lemma normalize_pos s p e v m :
  is_sint (Zpos p) e v -> v <= 2 ^ 53 -> is_sint (Zpos m) (texp v) v ->
  binary_round prec emax s p e = S754_finite s m (texp v).
Proof. apply binary_round_exact. Qed.

(** The canonical float of a non-zero integer within the bound. *)
Lemma canon_finite z :
  z <> 0 -> Z.abs z <= 2 ^ 53 ->
  exists m, is_sint (Zpos m) (texp (Z.abs z)) (Z.abs z) /\
            canon z = S754_finite (z <? 0) m (texp (Z.abs z)).
Proof.
  intros Hz Hb. destruct (@exists_mantissa (Z.abs z)) as [m Hm]; [lia|].
  exists m. split; auto. unfold canon, binary_normalize.
  destruct z as [|p|p]; [lia| |].
  - apply binary_round_exact; auto. split; intro; simpl; lia.
  - apply binary_round_exact; auto. split; intro; simpl; lia.
Qed.

(** Rounding a mantissa and exponent whose value is an integer within the
    bound gives the canonical float of that integer. *)
Lemma normalize_exact M e c :
  is_sint M e c -> Z.abs c <= 2 ^ 53 ->
  binary_normalize prec emax M e false = canon c.
Proof.
  intros H Hb. destruct (is_sint_sign H) as [Hp Hn].
  destruct M as [|p|p].
  - rewrite (is_sint_zero H). reflexivity.
  - assert (Hc : 0 < c) by (apply Hp; lia).
    destruct (@canon_finite c) as [m [Hm ->]]; [lia|lia|].
    rewrite (Z.abs_eq c) in * by lia.
    replace (c <? 0) with false by (symmetry; apply Z.ltb_ge; lia).
    simpl. apply binary_round_exact; auto.
  - assert (Hc : c < 0) by (apply Hn; lia).
    destruct (@canon_finite c) as [m [Hm ->]]; [lia|lia|].
    replace (c <? 0) with true by (symmetry; apply Z.ltb_lt; lia).
    simpl. apply binary_round_exact; auto.
    replace (Z.abs c) with (- c) by lia.
    change (Zpos p) with (- Zneg p). now apply is_sint_opp.
Qed.

Lemma shl_align_value m e e' :
  e' <= e -> Zpos (fst (shl_align m e e')) = Zpos m * 2 ^ (e - e').
Proof.
  intro Hle. unfold shl_align. destruct (e' - e) as [|d|d] eqn:Ed; simpl fst.
  - replace (e - e') with 0 by lia. simpl. lia.
  - lia.
  - rewrite iter_xO. repeat f_equal; lia.
Qed.

Lemma cond_Zopp_mul s a b : cond_Zopp s a * b = cond_Zopp s (a * b).
Proof. destruct s; simpl; lia. Qed.

Lemma canon_signed z s m e :
  is_sint (Zpos m) e (Z.abs z) -> s = (z <? 0) -> z <> 0 ->
  is_sint (cond_Zopp s (Zpos m)) e z.
Proof.
  intros H -> Hz. destruct (z <? 0) eqn:E; simpl.
  - apply Z.ltb_lt in E. replace z with (- Z.abs z) by lia.
    change (Zneg m) with (- Zpos m). now apply is_sint_opp.
  - apply Z.ltb_ge in E. now replace z with (Z.abs z) by lia.
Qed.

Lemma aligned s m e e' z :
  is_sint (cond_Zopp s (Zpos m)) e z -> e' <= e ->
  is_sint (cond_Zopp s (Zpos (fst (shl_align m e e')))) e' z.
Proof.
  intros H Hle. rewrite shl_align_value by auto.
  rewrite <- cond_Zopp_mul. now apply is_sint_align.
Qed.

Lemma is_sint_sub p q e a b : is_sint p e a -> is_sint q e b -> is_sint (p - q) e (a - b).
Proof. intros [H1 H2] [H3 H4]. split; intro He; [rewrite H1, H3|rewrite H2, H4]; auto; lia. Qed.

Lemma canon_opp_finite b s m e :
  canon b = S754_finite s m e -> Z.abs b <= 2 ^ 53 -> b <> 0 ->
  canon (- b) = S754_finite (negb s) m e.
Proof.
  intros E Hb Hz.
  destruct (@canon_finite b) as [m1 [H1 E1]]; auto.
  destruct (@canon_finite (- b)) as [m2 [H2 E2]]; [lia|lia|].
  rewrite E1 in E. injection E as <- <- <-. rewrite E2.
  rewrite Z.abs_opp in *.
  assert (m2 = m1) by (pose proof (is_sint_inj H2 H1); congruence). subst.
  f_equal. destruct (b <? 0) eqn:Eb, (- b <? 0) eqn:Eb'; auto; lia.
Qed.

Lemma SFadd_exact a b :
  Z.abs a <= 2 ^ 53 -> Z.abs b <= 2 ^ 53 -> Z.abs (a + b) <= 2 ^ 53 ->
  SF64add (canon a) (canon b) = canon (a + b).
Proof.
  intros Ha Hb Hab. unfold SF64add.
  destruct (Z.eq_dec a 0) as [->|Hza]; destruct (Z.eq_dec b 0) as [->|Hzb].
  - reflexivity.
  - simpl Z.add. destruct (@canon_finite b) as [m [_ E]]; auto. rewrite E. reflexivity.
  - rewrite Z.add_0_r. destruct (@canon_finite a) as [m [_ E]]; auto. rewrite E. reflexivity.
  - destruct (@canon_finite a) as [ma [Hma Ea]]; auto.
    destruct (@canon_finite b) as [mb [Hmb Eb]]; auto.
    rewrite Ea, Eb. cbn [SFadd].
    apply normalize_exact; auto.
    apply is_sint_add; apply aligned; try lia; apply canon_signed; auto.
Qed.

Lemma SFsub_exact a b :
  Z.abs a <= 2 ^ 53 -> Z.abs b <= 2 ^ 53 -> Z.abs (a - b) <= 2 ^ 53 ->
  SF64sub (canon a) (canon b) = canon (a - b).
Proof.
  intros Ha Hb Hab. unfold SF64sub.
  destruct (Z.eq_dec a 0) as [->|Hza]; destruct (Z.eq_dec b 0) as [->|Hzb].
  - reflexivity.
  - simpl Z.sub. destruct (@canon_finite b) as [m [_ E]]; auto. rewrite E.
    cbn [canon binary_normalize SFsub]. symmetry. now apply canon_opp_finite.
  - rewrite Z.sub_0_r. destruct (@canon_finite a) as [m [_ E]]; auto. rewrite E. reflexivity.
  - destruct (@canon_finite a) as [ma [Hma Ea]]; auto.
    destruct (@canon_finite b) as [mb [Hmb Eb]]; auto.
    rewrite Ea, Eb. cbn [SFsub].
    apply normalize_exact; auto.
    apply is_sint_sub; apply aligned; try lia; apply canon_signed; auto.
Qed.

Lemma canon_valid z : Z.abs z <= 2 ^ 53 -> valid_binary (canon z) = true.
Proof.
  intro Hb. destruct (Z.eq_dec z 0) as [->|Hz]; [reflexivity|].
  destruct (@canon_finite z) as [m [Hm ->]]; auto.
  unfold SpecFloat.valid_binary, bounded, canonical_mantissa. fold (D m).
  rewrite (fexp_texp Hm), Z.eqb_refl. simpl.
  assert (0 < Z.abs z <= 2 ^ 53) by lia. pose proof (texp_le H).
  apply Z.leb_le. unfold emax, prec. lia.
Qed.

Lemma Prim2SF_Number z : Z.abs z <= 2 ^ 53 -> Prim2SF (Js.Number_of_Z z) = canon z.
Proof. intro. apply Prim2SF_SF2Prim. now apply canon_valid. Qed.

Lemma add_exact a b :
  Z.abs a <= 2 ^ 53 -> Z.abs b <= 2 ^ 53 -> Z.abs (a + b) <= 2 ^ 53 ->
  (Js.Number_of_Z a + Js.Number_of_Z b)%float = Js.Number_of_Z (a + b).
Proof.
  intros. apply Prim2SF_inj.
  rewrite add_spec, !Prim2SF_Number by auto. now apply SFadd_exact.
Qed.

Lemma sub_exact a b :
  Z.abs a <= 2 ^ 53 -> Z.abs b <= 2 ^ 53 -> Z.abs (a - b) <= 2 ^ 53 ->
  (Js.Number_of_Z a - Js.Number_of_Z b)%float = Js.Number_of_Z (a - b).
Proof.
  intros. apply Prim2SF_inj.
  rewrite sub_spec, !Prim2SF_Number by auto. now apply SFsub_exact.
Qed.

(** On the integers of a machine word, [Number_of_Z] is the primitive
    conversion. *)
Lemma Number_of_Z_of_uint63 (z : Z) :
  0 <= z < 2 ^ 63 -> Js.Number_of_Z z = PrimFloat.of_uint63 (Uint63.of_Z z).
Proof.
  intro Hz. unfold Js.Number_of_Z.
  rewrite <- (SF2Prim_Prim2SF (of_uint63 (Uint63.of_Z z))), of_uint63_spec.
  rewrite Uint63.of_Z_spec, Z.mod_small; [reflexivity|].
  exact Hz.
Qed.

End Binary64Facts.

(** ** Account balance *)

Lemma fold_left_permutation {A B : Type} (f : B -> A -> B) :
  (forall b x y, f (f b x) y = f (f b y) x) ->
  forall l l', Permutation l l' -> forall b, fold_left f l b = fold_left f l' b.
Proof.
  intros Hcomm l l' Hp.
  induction Hp as [|x l l' Hp IH|x y l|l l' l'' Hp1 IH1 Hp2 IH2]; intro b; simpl.
  - reflexivity.
  - apply IH.
  - now rewrite Hcomm.
  - now rewrite IH1.
Qed.

Lemma balance_step_commutes (account : Account Z) (b : Z) (x y : Transaction Z) :
  Storage.balance_step account (Storage.balance_step account b x) y =
  Storage.balance_step account (Storage.balance_step account b y) x.
Proof.
  unfold Storage.balance_step. simpl.
  destruct (Transaction.type x), (Transaction.type y);
    repeat match goal with
           | |- context [if ?c then _ else _] => destruct c
           end; lia.
Qed.

Lemma balance_from (account : Account Z) (txs : list (Transaction Z)) : forall b : Z,
  fold_left (Storage.balance_step account) txs b =
  (b + Storage.sumZ (Storage.incoming account txs)
     - Storage.sumZ (Storage.outgoing account txs))%Z.
Proof.
  unfold Storage.incoming, Storage.outgoing.
  induction txs as [|tx txs IH]; intro b; simpl.
  - lia.
  - rewrite IH. unfold Storage.balance_step, Storage.is_incoming, Storage.is_outgoing.
    simpl.
    destruct (Transaction.type tx);
      repeat match goal with
             | |- context [if ?c then _ else _] => destruct c
             end; simpl; lia.
Qed.

Lemma magnitude_permutation (account : Account Z) (txs txs' : list (Transaction Z)) :
  Permutation txs txs' -> Storage.magnitude account txs' = Storage.magnitude account txs.
Proof.
  intro Hp. unfold Storage.magnitude. f_equal.
  induction Hp as [|x l l' Hp IH|x y l|l l' l'' Hp1 IH1 Hp2 IH2]; simpl; lia.
Qed.

(** One iteration of the loop on integers within the bound: the binary64
    step gives the number of the exact step. *)
Lemma balance_step_binary64 (account : Account Z) (b : Z) (tx : Transaction Z) :
  (Z.abs b + Z.abs (Transaction.amount tx) <= 2 ^ 53)%Z ->
  Storage.balance_step (Account.map Js.Number_of_Z account) (Js.Number_of_Z b)
                       (Transaction.map Js.Number_of_Z tx) =
    Js.Number_of_Z (Storage.balance_step account b tx) /\
  (Z.abs (Storage.balance_step account b tx) <= Z.abs b + Z.abs (Transaction.amount tx))%Z.
Proof.
  intro Hb. unfold Storage.balance_step. cbn [Transaction.map Account.map
    Transaction.accountId Transaction.type Transaction.amount Transaction.toAccountId
    Account.id num_add num_sub float_JsNumber Z_JsNumber].
  destruct (Transaction.type tx);
    destruct (String.eqb (Transaction.accountId tx) (Account.id account));
    try destruct (Js.opt_eqb (Transaction.toAccountId tx) (Account.id account));
    (split; [|lia]);
    rewrite ?Binary64Facts.sub_exact, ?Binary64Facts.add_exact by lia;
    reflexivity.
Qed.

Lemma balance_binary64 (account : Account Z) (txs : list (Transaction Z)) : forall b : Z,
  (Z.abs b + Storage.sumZ (map (fun tx => Z.abs (Transaction.amount tx)) txs) <= 2 ^ 53)%Z ->
  fold_left (Storage.balance_step (Account.map Js.Number_of_Z account))
            (map (Transaction.map Js.Number_of_Z) txs) (Js.Number_of_Z b) =
  Js.Number_of_Z (fold_left (Storage.balance_step account) txs b).
Proof.
  induction txs as [|tx txs IH]; intros b Hb; simpl in *; auto.
  assert (Hpos : (0 <= Storage.sumZ (map (fun tx => Z.abs (Transaction.amount tx)) txs))%Z).
  { clear. induction txs; simpl; lia. }
  destruct (@balance_step_binary64 account b tx) as [-> Hle]; [lia|].
  apply IH. lia.
Qed.

(** C9 (amended).  In the binary64 arithmetic of the running code, when
    the initial balance and the amounts are integers whose absolute
    values add up to at most [2^53], no addition or subtraction rounds:
    the balance of the account is the number of its initial balance plus
    the amounts that come in (incomes, transfers to it) minus the amounts
    that go out (expenses, transfers from it), and it is the same number
    in every order of the transactions.  An initial balance of 500 with
    income 200, expense 80, transfer out 100 and transfer in 50 gives
    570. *)
Theorem balance_exact (account : Account Z) (txs : list (Transaction Z)) :
  (Storage.magnitude account txs <= 2 ^ 53)%Z ->
  Storage.computeAccountBalance (Account.map Js.Number_of_Z account)
                                (map (Transaction.map Js.Number_of_Z) txs) =
    Js.Number_of_Z (Account.initialBalance account
                    + Storage.sumZ (Storage.incoming account txs)
                    - Storage.sumZ (Storage.outgoing account txs))%Z /\
  (forall txs' : list (Transaction Z),
     Permutation txs txs' ->
     Storage.computeAccountBalance (Account.map Js.Number_of_Z account)
                                   (map (Transaction.map Js.Number_of_Z) txs') =
     Storage.computeAccountBalance (Account.map Js.Number_of_Z account)
                                   (map (Transaction.map Js.Number_of_Z) txs)) /\
  Storage.computeAccountBalance Sample.acc_cash Sample.cash_txs = 570%float.
Proof.
  intro Hb.
  assert (Hrun : forall l, (Storage.magnitude account l <= 2 ^ 53)%Z ->
            Storage.computeAccountBalance (Account.map Js.Number_of_Z account)
                                          (map (Transaction.map Js.Number_of_Z) l) =
            Js.Number_of_Z (Storage.computeAccountBalance account l)).
  { intros l Hl. unfold Storage.computeAccountBalance. now apply balance_binary64. }
  split; [|split].
  - rewrite Hrun by exact Hb. unfold Storage.computeAccountBalance.
    now rewrite balance_from.
  - intros txs' Hp. rewrite !Hrun; auto.
    + f_equal. unfold Storage.computeAccountBalance.
      apply fold_left_permutation; [apply balance_step_commutes | now apply Permutation_sym].
    + now rewrite (magnitude_permutation account Hp).
  - vm_compute. reflexivity.
Qed.

Lemma balance_exact_witness :
  Account.map Js.Number_of_Z Sample.acc_cash_Z = Sample.acc_cash /\
  map (Transaction.map Js.Number_of_Z) Sample.cash_txs_Z = Sample.cash_txs /\
  Storage.computeAccountBalance (Account.map Js.Number_of_Z Sample.acc_cash_Z)
    (map (Transaction.map Js.Number_of_Z) Sample.cash_txs_Z) = Js.Number_of_Z 570 /\
  Storage.computeAccountBalance (Account.map Js.Number_of_Z Sample.acc_cash_Z)
    (map (Transaction.map Js.Number_of_Z) (rev Sample.cash_txs_Z)) =
  Storage.computeAccountBalance (Account.map Js.Number_of_Z Sample.acc_cash_Z)
    (map (Transaction.map Js.Number_of_Z) Sample.cash_txs_Z).
Proof.
  destruct (@balance_exact Sample.acc_cash_Z Sample.cash_txs_Z) as (Hsum & Hperm & _).
  - apply Z.leb_le. reflexivity.
  - split; [vm_compute; reflexivity|]. split; [vm_compute; reflexivity|].
    split; [exact Hsum|]. apply Hperm. apply Permutation_rev.
Defined.

(** Three incomes of 0.1, 0.2 and 0.3 on an empty account: the balance in
    binary64 depends on the order in which they are listed. *)
Lemma balance_order_counterexample :
  Permutation Sample.dimes Sample.dimes_reversed /\
  Storage.computeAccountBalance Sample.acc_empty Sample.dimes <>
  Storage.computeAccountBalance Sample.acc_empty Sample.dimes_reversed.
Proof.
  split.
  - apply Permutation_rev.
  - vm_compute. intro E. discriminate E.
Qed.

(** Integers beyond the bound: on a balance of [2^53] an income of 1 is
    rounded away, so the two incomes of 1 and the expense of 2 give
    [2^53 - 2] in this order and [2^53] with the expense first. *)
Lemma balance_rounds_beyond_bound :
  Storage.magnitude Sample.acc_large Sample.units = (2 ^ 53 + 4)%Z /\
  Storage.computeAccountBalance (Account.map Js.Number_of_Z Sample.acc_large)
    (map (Transaction.map Js.Number_of_Z) Sample.units) =
    Js.Number_of_Z (2 ^ 53 - 2) /\
  Storage.computeAccountBalance (Account.map Js.Number_of_Z Sample.acc_large)
    (map (Transaction.map Js.Number_of_Z) (rev Sample.units)) =
    Js.Number_of_Z (2 ^ 53).
Proof. repeat split; vm_compute; reflexivity. Qed.

(** ** Pending-deletes queue *)

Section QueueFacts.
Context {num : Type}.
Implicit Types (s : Storage.t num) (id : string).

Lemma includes_In (xs : list string) (x : string) :
  Js.includes xs x = true <-> In x xs.
Proof.
  unfold Js.includes. rewrite existsb_exists. split.
  - intros [y [Hin E]]. apply String.eqb_eq in E. now subst.
  - intro H. exists x. split; auto. apply String.eqb_refl.
Qed.

Lemma getPendingDeletes_set (v : option (list string)) s :
  Storage.getPendingDeletes (Storage.set_PENDING_DELETES v s) = Storage.parse_or v [].
Proof. reflexivity. Qed.

Lemma getPendingDeletes_add id s :
  Storage.getPendingDeletes (Storage.addPendingDelete id s) =
  if Js.includes (Storage.getPendingDeletes s) id
  then Storage.getPendingDeletes s
  else Storage.getPendingDeletes s ++ [id].
Proof.
  unfold Storage.addPendingDelete.
  now destruct (Js.includes (Storage.getPendingDeletes s) id).
Qed.

Lemma getPendingDeletes_clear s :
  Storage.getPendingDeletes (Storage.clearPendingDeletes s) = [].
Proof. reflexivity. Qed.

Lemma in_add id id' s :
  In id' (Storage.getPendingDeletes (Storage.addPendingDelete id s)) <->
  id' = id \/ In id' (Storage.getPendingDeletes s).
Proof.
  rewrite getPendingDeletes_add.
  destruct (Js.includes (Storage.getPendingDeletes s) id) eqn:E.
  - apply includes_In in E. split; auto. intros [->|H]; auto.
  - rewrite in_app_iff. simpl. intuition.
Qed.

Lemma NoDup_add id s :
  NoDup (Storage.getPendingDeletes s) ->
  NoDup (Storage.getPendingDeletes (Storage.addPendingDelete id s)).
Proof.
  intro Hnd. rewrite getPendingDeletes_add.
  destruct (Js.includes (Storage.getPendingDeletes s) id) eqn:E; auto.
  assert (Hn : ~ In id (Storage.getPendingDeletes s)).
  { intro H. apply includes_In in H. congruence. }
  apply NoDup_app; auto.
  - repeat constructor. simpl. tauto.
  - intros x Hx [<-|[]]. contradiction.
Qed.

(** C10.  The queue holds no id twice: adding an id that is in the stored
    queue leaves the store as it is, and reading, adding and clearing
    each keep, one by one and in any sequence, the ids of the stored
    queue distinct. *)
Theorem pending_deletes_distinct :
  (forall s id,
     In id (Storage.getPendingDeletes s) -> Storage.addPendingDelete id s = s) /\
  (forall s op,
     NoDup (Storage.getPendingDeletes s) ->
     NoDup (Storage.getPendingDeletes (Storage.queue_step s op))) /\
  (forall ops s,
     NoDup (Storage.getPendingDeletes s) ->
     NoDup (Storage.getPendingDeletes (Storage.queue_run ops s))).
Proof.
  assert (Hstep : forall s op,
             NoDup (Storage.getPendingDeletes s) ->
             NoDup (Storage.getPendingDeletes (Storage.queue_step s op))).
  { intros s [|id|] H; simpl; auto.
    - now apply NoDup_add.
    - constructor. }
  split; [|split]; auto.
  - intros s id Hin. unfold Storage.addPendingDelete.
    apply includes_In in Hin. now rewrite Hin.
  - unfold Storage.queue_run. induction ops as [|op ops IH]; intros s H; simpl; auto.
Qed.

End QueueFacts.

Lemma pending_deletes_distinct_witness :
  let s : Storage.t Z :=
    Storage.mk None None None None (Some ["t1"; "t2"]) None in
  Storage.addPendingDelete "t2" s = s /\
  NoDup (Storage.getPendingDeletes (Storage.queue_step s (Storage.QAdd "t3"))) /\
  NoDup (Storage.getPendingDeletes
           (Storage.queue_run
              [Storage.QAdd "t1"; Storage.QGet; Storage.QClear;
               Storage.QAdd "t2"; Storage.QAdd "t2"] s)).
Proof.
  intro s.
  assert (Hs : NoDup (Storage.getPendingDeletes s)) by distinct_ids.
  split; [|split].
  - apply (proj1 (@pending_deletes_distinct Z)). simpl. auto.
  - apply (proj1 (proj2 (@pending_deletes_distinct Z))). exact Hs.
  - apply (proj2 (proj2 (@pending_deletes_distinct Z))). exact Hs.
Defined.

(** ** Guest mode *)

Ltac run_async :=
  unfold bind, ret, throw, read, write, dispatch, console_warn, send,
    with_supabase, catch, fire_and_forget, try_finally; simpl.

Section GuestMode.
Context {num : Type}.
Implicit Types (w : World num) (m : Mutation (num:=num)).

Lemma untouched_refl w : untouched_by_guest w w.
Proof. unfold untouched_by_guest. tauto. Qed.

Lemma untouched_trans w1 w2 w3 :
  untouched_by_guest w1 w2 -> untouched_by_guest w2 w3 -> untouched_by_guest w1 w3.
Proof. unfold untouched_by_guest. intuition congruence. Qed.

Lemma saveTransaction_keys (tx : Transaction num) (s : Storage.t num) :
  Storage.PENDING_DELETES (Storage.saveTransaction tx s) = Storage.PENDING_DELETES s /\
  Storage.ACCOUNTS (Storage.saveTransaction tx s) = Storage.ACCOUNTS s /\
  Storage.CATEGORIES (Storage.saveTransaction tx s) = Storage.CATEGORIES s.
Proof.
  unfold Storage.saveTransaction. destruct (Js.findIndex _ _); simpl; auto.
Qed.

Lemma mutate_guest m w :
  sbUserIdRef w = None ->
  fst (mutate m w) = Resolved tt /\ untouched_by_guest w (snd (mutate m w)).
Proof.
  intro Hg. unfold untouched_by_guest.
  destruct m as [tx|tx|id]; unfold mutate, addTransaction, updateTransaction,
    removeTransaction, removeTransaction_local; run_async; rewrite Hg; simpl;
    try (destruct (saveTransaction_keys tx (storage w)) as (? & ? & ?));
    repeat split; auto.
Qed.

(** C8.  With no owner id, any sequence of calls to [addTransaction],
    [updateTransaction] and [removeTransaction] sends no query to the
    remote service and leaves the pending-deletes queue as it was: of the
    local store only the transactions are written. *)
Theorem guest_mode_local_only (ms : list (Mutation (num:=num))) w :
  sbUserIdRef w = None ->
  requests (mutate_all ms w) = requests w /\
  sent_since w (mutate_all ms w) = [] /\
  Storage.PENDING_DELETES (storage (mutate_all ms w)) =
    Storage.PENDING_DELETES (storage w) /\
  untouched_by_guest w (mutate_all ms w).
Proof.
  intro Hg.
  assert (H : untouched_by_guest w (mutate_all ms w)).
  { unfold mutate_all. revert w Hg.
    induction ms as [|m ms IH]; intros w Hg; simpl.
    - apply untouched_refl.
    - destruct (mutate_guest m w Hg) as [_ Hstep].
      apply (untouched_trans Hstep). apply IH.
      destruct Hstep as (_ & _ & _ & _ & _ & _ & Hid & _). congruence. }
  pose proof H as (_ & Hreq & _ & Hq & _).
  repeat split; auto; try apply H.
  unfold sent_since. rewrite Hreq. apply skipn_all.
Qed.

End GuestMode.

(** ** One sync pass *)

Section SyncPass.
Context {num : Type}.
Implicit Types (w : World num).

Lemma sent_since_app w w' (sent : list (Request num)) :
  requests w' = requests w ++ sent -> sent_since w w' = sent.
Proof.
  intro H. unfold sent_since. rewrite H.
  generalize (requests w). intro l. induction l as [|q l IH]; simpl; auto.
Qed.

Lemma last_request (l : list (Request num)) (q d : Request num) : last (l ++ [q]) d = q.
Proof. apply last_last. Qed.

Lemma sync_push_run (sbUserId : string) w :
  (forall rows e, network (env w) (ReqUpsertRows rows) <> RespThrow e) ->
  exists w1 pushed,
    sync_push sbUserId w = (Resolved (Storage.getTransactions (storage w)), w1) /\
    steady w w1 /\
    requests w1 = requests w ++ pushed /\
    (pushed = [] \/ exists rows, pushed = [ReqUpsertRows rows]).
Proof.
  intro Hpush. unfold sync_push, pushTransactionsBatch, steady. run_async.
  destruct (configured (env w)).
  - destruct (Storage.getTransactions (storage w)) as [|tx0 txs] eqn:Etx.
    + exists w, []. rewrite app_nil_r. intuition.
    + set (rows := map _ (tx0 :: txs)).
      destruct (network (env w) (ReqUpsertRows rows)) as [d|msg|e] eqn:E; simpl.
      * eexists _, [ReqUpsertRows rows]. simpl. intuition eauto.
      * eexists _, [ReqUpsertRows rows]. simpl. intuition eauto.
      * exfalso. exact (Hpush _ _ E).
  - exists w, []. rewrite app_nil_r. intuition.
Qed.

Lemma sync_flush_run w (q : list string) :
  configured (env w) = true ->
  Storage.getPendingDeletes (storage w) = q ->
  q <> [] ->
  sync_flush_deletes w =
  match network (env w) (ReqDeleteIn q) with
  | RespOk _ =>
      (Resolved tt,
       set_storage (Storage.clearPendingDeletes (storage w))
         (set_requests (requests w ++ [ReqDeleteIn q]) w))
  | RespError e | RespThrow e =>
      (Rejected e, set_requests (requests w ++ [ReqDeleteIn q]) w)
  end.
Proof.
  intros Hc Hq Hne. unfold sync_flush_deletes, deleteRemoteTransactionsBatch.
  run_async. rewrite Hq. destruct q as [|id0 q0]; [congruence|].
  run_async. rewrite Hc.
  now destruct (network (env w) (ReqDeleteIn (id0 :: q0))).
Qed.

Lemma sync_pull_run (sbUserId : string) (localTx : list (Transaction num)) w :
  exists sent,
    requests (snd (sync_pull sbUserId localTx w)) = requests w ++ sent /\
    (sent = [] \/ sent = [ReqSelectEq sbUserId]) /\
    Storage.PENDING_DELETES (storage (snd (sync_pull sbUserId localTx w))) =
    Storage.PENDING_DELETES (storage w).
Proof.
  unfold sync_pull, fetchRemoteTransactions. run_async.
  destruct (configured (env w)).
  - exists [ReqSelectEq sbUserId].
    destruct (network (env w) (ReqSelectEq sbUserId)); simpl; auto.
  - exists []. simpl. rewrite app_nil_r. auto.
Qed.

Lemma batch_delete_outcome (ids : list string) w :
  configured (env w) = true ->
  fst (deleteRemoteTransactionsBatch ids w) =
  match network (env w) (ReqDeleteIn ids) with
  | RespOk _ => Resolved tt
  | RespError e | RespThrow e => Rejected e
  end.
Proof.
  intro Hc. unfold deleteRemoteTransactionsBatch. run_async. rewrite Hc.
  now destruct (network (env w) (ReqDeleteIn ids)).
Qed.

(** C1.  A pass on a queue [q] that is not empty, reached with the push
    not rejected: the batch delete is sent once, for exactly the ids of
    [q]; the queue is empty afterwards if and only if the batch call
    resolves; when the batch call throws, the pass is rejected with what
    it threw, that call is the last query sent (no fetch follows), and
    the local store, with the whole queue, and the in-memory state are as
    before the pass. *)
Theorem performSync_flush (sbUserId : string) w (q : list string) :
  isSyncingRef w = false ->
  configured (env w) = true ->
  (forall rows e, network (env w) (ReqUpsertRows rows) <> RespThrow e) ->
  Storage.getPendingDeletes (storage w) = q ->
  q <> [] ->
  let r := fst (performSync sbUserId w) in
  let w' := snd (performSync sbUserId w) in
  In (ReqDeleteIn q) (sent_since w w') /\
  (forall ids, In (ReqDeleteIn ids) (sent_since w w') -> ids = q) /\
  (Storage.getPendingDeletes (storage w') = [] <->
   fst (deleteRemoteTransactionsBatch q w) = Resolved tt) /\
  (forall e, fst (deleteRemoteTransactionsBatch q w) = Rejected e ->
   r = Rejected e /\
   Storage.getPendingDeletes (storage w') = q /\
   storage w' = storage w /\
   state w' = state w /\
   lastSyncAtRef w' = lastSyncAtRef w /\
   isSyncingRef w' = false /\
   last (sent_since w w') (ReqDeleteIn []) = ReqDeleteIn q /\
   forall u, ~ In (ReqSelectEq u) (sent_since w w')).
Proof.
  intros Hs Hc Hpush Hq Hne r w'. subst r w'.
  rewrite (batch_delete_outcome q w Hc).
  destruct (@sync_push_run sbUserId (set_isSyncingRef true w) Hpush)
    as (w1 & pushed & Hp & Hst & Hreq & Hshape).
  destruct Hst as (Henv & Hsto & Hclk & Hstate & Hid & Hlast & Hsync).
  simpl in Henv, Hsto, Hclk, Hstate, Hid, Hlast, Hsync, Hreq, Hp.
  assert (Hflush := @sync_flush_run w1 q).
  rewrite Henv, Hsto in Hflush. specialize (Hflush Hc Hq Hne).
  unfold performSync. rewrite Hs. unfold try_finally, bind. rewrite Hp, Hflush.
  assert (Hpushed : forall ids, ~ In (ReqDeleteIn ids) pushed).
  { intros ids Hin. destruct Hshape as [->|[rows ->]]; simpl in Hin;
      [|destruct Hin as [E|E]; [discriminate|]]; auto. }
  assert (Hpushed' : forall u, ~ In (ReqSelectEq u) pushed).
  { intros u Hin. destruct Hshape as [->|[rows ->]]; simpl in Hin;
      [|destruct Hin as [E|E]; [discriminate|]]; auto. }
  destruct (network (env w) (ReqDeleteIn q)) as [d|msg|e] eqn:Edel.
  - (* the batch delete resolves *)
    set (w2 := set_storage _ _).
    destruct (sync_pull_run sbUserId (Storage.getTransactions (storage w)) w2)
      as (sent & Hreq2 & Hsent & Hpend).
    destruct (sync_pull sbUserId (Storage.getTransactions (storage w)) w2)
      as [r3 w3] eqn:Epull.
    simpl in Hreq2, Hpend |- *.
    rewrite Hreq in Hreq2. rewrite <- !app_assoc in Hreq2.
    rewrite (@sent_since_app w (set_isSyncingRef false w3) _ Hreq2).
    split; [|split; [|split]].
    + apply in_or_app. right. now left.
    + intros ids Hin. apply in_app_or in Hin. destruct Hin as [Hin|[E|Hin]].
      * now apply Hpushed in Hin.
      * congruence.
      * destruct Hsent as [->| ->]; simpl in Hin; [tauto|].
        destruct Hin as [E|[]]. discriminate.
    + unfold Storage.getPendingDeletes. rewrite Hpend. simpl. tauto.
    + discriminate.
  - (* the batch delete throws the error it was given *)
    simpl.
    erewrite sent_since_app by (simpl; rewrite Hreq, <- app_assoc; reflexivity).
    split; [|split; [|split]].
    + apply in_or_app. right. now left.
    + intros ids Hin. apply in_app_or in Hin. destruct Hin as [Hin|[E|[]]].
      * now apply Hpushed in Hin.
      * congruence.
    + rewrite Hsto, Hq. split; [congruence | discriminate].
    + intros e [= <-]. rewrite Hsto, Hstate, Hlast, Hq, last_request.
      repeat split; eauto.
      intros u Hin. apply in_app_or in Hin. destruct Hin as [Hin|[E|[]]].
      * now apply Hpushed' in Hin.
      * discriminate.
  - (* the batch delete is rejected *)
    simpl.
    erewrite sent_since_app by (simpl; rewrite Hreq, <- app_assoc; reflexivity).
    split; [|split; [|split]].
    + apply in_or_app. right. now left.
    + intros ids Hin. apply in_app_or in Hin. destruct Hin as [Hin|[E|[]]].
      * now apply Hpushed in Hin.
      * congruence.
    + rewrite Hsto, Hq. split; [congruence | discriminate].
    + intros e' [= <-]. rewrite Hsto, Hstate, Hlast, Hq, last_request.
      repeat split; eauto.
      intros u Hin. apply in_app_or in Hin. destruct Hin as [Hin|[E|[]]].
      * now apply Hpushed' in Hin.
      * discriminate.
Qed.

End SyncPass.

Lemma performSync_flush_witness :
  Storage.getPendingDeletes
    (storage (snd (performSync "user-1"
       (Sample.world Sample.offline (Some "user-1") [Sample.t1_old] (Some ["t2"; "t3"])))))
  = ["t2"; "t3"] /\
  Storage.getPendingDeletes
    (storage (snd (performSync "user-1"
       (Sample.world (Sample.online []) (Some "user-1") [Sample.t1_old] (Some ["t2"; "t3"])))))
  = [].
Proof.
  split.
  - destruct (@performSync_flush Z "user-1"
                (Sample.world Sample.offline (Some "user-1") [Sample.t1_old]
                   (Some ["t2"; "t3"]))
                ["t2"; "t3"]) as (_ & _ & _ & Hfail);
      [reflexivity | reflexivity | discriminate | reflexivity | discriminate |].
    apply (Hfail "TypeError: Network request failed"). reflexivity.
  - destruct (@performSync_flush Z "user-1"
                (Sample.world (Sample.online []) (Some "user-1") [Sample.t1_old]
                   (Some ["t2"; "t3"]))
                ["t2"; "t3"]) as (_ & _ & Hiff & _);
      [reflexivity | reflexivity | discriminate | reflexivity | discriminate |].
    apply Hiff. reflexivity.
Defined.

(** ** The live delete of [removeTransaction] *)

Section LiveDelete.
Context {num : Type}.
Implicit Types (w : World num) (id : string).

Lemma for_each_write (f : string -> Storage.t num -> Storage.t num) (xs : list string) :
  forall w,
    for_each (fun x => write (f x)) xs w =
    (Resolved tt,
     match xs with
     | [] => w
     | _ => set_storage (fold_left (fun s x => f x s) xs (storage w)) w
     end).
Proof.
  induction xs as [|x xs IH]; intro w; simpl; auto.
  unfold bind, write at 1. rewrite IH. destruct xs; reflexivity.
Qed.

Lemma in_fold_add (xs : list string) : forall (s : Storage.t num) (x : string),
  In x (Storage.getPendingDeletes
          (fold_left (fun s i => Storage.addPendingDelete i s) xs s)) <->
  In x xs \/ In x (Storage.getPendingDeletes s).
Proof.
  induction xs as [|i xs IH]; intros s x; simpl; [tauto|].
  rewrite IH, in_add. intuition.
Qed.

Lemma fold_add_TRANSACTIONS (xs : list string) : forall (s : Storage.t num),
  Storage.TRANSACTIONS (fold_left (fun s i => Storage.addPendingDelete i s) xs s) =
  Storage.TRANSACTIONS s.
Proof.
  induction xs as [|i xs IH]; intro s; simpl; auto.
  rewrite IH. unfold Storage.addPendingDelete. now destruct (negb _).
Qed.

(** The [.then] handler takes [id] out of the stored queue and keeps
    every other id. *)
Lemma dequeue_run id w :
  exists s',
    dequeue id w = (Resolved tt, set_storage s' w) /\
    (forall x, In x (Storage.getPendingDeletes s') <-> In x (queue w) /\ x <> id) /\
    Storage.TRANSACTIONS s' = Storage.TRANSACTIONS (storage w).
Proof.
  unfold dequeue, queue. unfold bind at 1 2, read, write at 1.
  set (remaining := filter _ _).
  rewrite for_each_write.
  assert (Hrem : forall x, In x remaining <->
                           In x (Storage.getPendingDeletes (storage w)) /\ x <> id).
  { intro x. unfold remaining. rewrite filter_In, negb_true_iff, String.eqb_neq. tauto. }
  destruct remaining as [|i rest] eqn:E.
  - exists (Storage.clearPendingDeletes (storage w)). split; [reflexivity|].
    split; [|reflexivity].
    intro x. rewrite <- Hrem. rewrite getPendingDeletes_clear. tauto.
  - eexists. split; [reflexivity|]. split.
    + intro x. rewrite <- Hrem. simpl (storage _).
      rewrite (in_fold_add (i :: rest)). simpl. tauto.
    + simpl (storage _). now rewrite (fold_add_TRANSACTIONS (i :: rest)).
Qed.

Lemma before_live_delete_spec id w :
  (removeTransaction_local id ;; write (Storage.addPendingDelete id)) w =
    (Resolved tt, before_live_delete id w) /\
  env (before_live_delete id w) = env w /\
  requests (before_live_delete id w) = requests w /\
  console (before_live_delete id w) = console w /\
  sbUserIdRef (before_live_delete id w) = sbUserIdRef w /\
  forall x, In x (queue (before_live_delete id w)) <-> x = id \/ In x (queue w).
Proof.
  unfold before_live_delete, removeTransaction_local, queue. run_async.
  repeat split; auto; rewrite in_add; simpl; auto.
Qed.

(** The queue after [removeTransaction], by what the remote service does
    with the live delete: rejected, the id stays queued; answered, with
    or without an error, the id is taken out.  Every other id stays. *)
Lemma removeTransaction_queue id w :
  truthy (sbUserIdRef w) = true ->
  configured (env w) = true ->
  forall x,
    In x (queue (snd (removeTransaction id w))) <->
    match network (env w) (ReqDeleteEq id) with
    | RespThrow _ => x = id \/ In x (queue w)
    | _ => In x (queue w) /\ x <> id
    end.
Proof.
  intros Ht Hc x.
  destruct (before_live_delete_spec id w) as (Hrun & Henv & _ & _ & Hown & Hq).
  assert (Hrem : removeTransaction id w =
                 (Resolved tt, snd (live_delete id (before_live_delete id w)))).
  { unfold removeTransaction. unfold before_live_delete.
    unfold removeTransaction_local. run_async. rewrite Ht. reflexivity. }
  rewrite Hrem. simpl (snd _).
  set (w1 := before_live_delete id w) in *.
  unfold live_delete, catch, deleteRemoteTransaction. unfold bind at 1.
  unfold with_supabase. rewrite Henv, Hc.
  unfold bind at 1. unfold send. rewrite Henv.
  destruct (network (env w) (ReqDeleteEq id)) as [d|msg|e] eqn:E.
  - unfold ret.
    destruct (dequeue_run id (set_requests (requests w1 ++ [ReqDeleteEq id]) w1))
      as (s' & Hd & Hin & _).
    rewrite Hd. unfold queue at 1. simpl. rewrite Hin.
    change (queue (set_requests (requests w1 ++ [ReqDeleteEq id]) w1)) with (queue w1).
    rewrite Hq. intuition congruence.
  - unfold console_warn.
    match goal with
    | |- context [dequeue id ?w2] =>
        destruct (dequeue_run id w2) as (s' & Hd & Hin & _); rewrite Hd
    end.
    unfold queue at 1. simpl. rewrite Hin.
    match goal with
    | |- context [queue ?w2] => change (queue w2) with (queue w1)
    end.
    rewrite Hq. intuition congruence.
  - unfold console_warn. simpl.
    match goal with
    | |- context [queue ?w2] => change (queue w2) with (queue w1)
    end.
    apply Hq.
Qed.

End LiveDelete.

Lemma removeTransaction_enqueues_first (id : string) (w : World Z) :
  truthy (sbUserIdRef w) = true ->
  removeTransaction id w = (Resolved tt, snd (live_delete id (before_live_delete id w))) /\
  In id (queue (before_live_delete id w)) /\
  requests (before_live_delete id w) = requests w.
Proof.
  intro Ht. destruct (before_live_delete_spec id w) as (_ & _ & Hreq & _ & _ & Hq).
  repeat split; auto.
  - unfold removeTransaction, before_live_delete, removeTransaction_local.
    run_async. rewrite Ht. reflexivity.
  - apply Hq. now left.
Qed.

Lemma removeTransaction_rejected_keeps_id (id e : string) (w : World Z) :
  truthy (sbUserIdRef w) = true ->
  configured (env w) = true ->
  network (env w) (ReqDeleteEq id) = RespThrow e ->
  In id (queue (snd (removeTransaction id w))).
Proof.
  intros Ht Hc He. apply (removeTransaction_queue id w Ht Hc). rewrite He. now left.
Qed.

Lemma removeTransaction_deleted_dequeues (id : string) (d : list (SbTransaction Z))
    (w : World Z) :
  truthy (sbUserIdRef w) = true ->
  configured (env w) = true ->
  network (env w) (ReqDeleteEq id) = RespOk d ->
  ~ In id (queue (snd (removeTransaction id w))) /\
  forall x, x <> id -> In x (queue w) -> In x (queue (snd (removeTransaction id w))).
Proof.
  intros Ht Hc He. split.
  - intro H. apply (removeTransaction_queue id w Ht Hc) in H. rewrite He in H. tauto.
  - intros x Hx Hin. apply (removeTransaction_queue id w Ht Hc). rewrite He. tauto.
Qed.

Lemma removeTransaction_reported_error_dequeues (id msg : string) (w : World Z) :
  truthy (sbUserIdRef w) = true ->
  configured (env w) = true ->
  network (env w) (ReqDeleteEq id) = RespError msg ->
  ~ In id (queue (snd (removeTransaction id w))).
Proof.
  intros Ht Hc He H.
  apply (removeTransaction_queue id w Ht Hc) in H. rewrite He in H. tauto.
Qed.

(** C2.  A signed-in session holds [t1] and [t2], with [t9] queued, and
    the remote service answers the live delete of [t2] with an error:
    [removeTransaction] sends the delete, the transport logs the error
    and resolves, and the handler takes [t2] out of the queue, which
    holds [t9] alone afterwards.  The next pass, with the service back
    and the remote row of [t2] still there, sends no delete for [t2] and
    writes [t2] back to the local store. *)
Theorem removeTransaction_reported_error_drops_id :
  fst (removeTransaction "t2" Sample.signed_in_offline) = Resolved tt /\
  sent_since Sample.signed_in_offline
    (snd (removeTransaction "t2" Sample.signed_in_offline))
  = [ReqDeleteEq "t2"] /\
  console (snd (removeTransaction "t2" Sample.signed_in_offline))
  = [Warn "[supabase] deleteTransaction:" "TypeError: Network request failed"] /\
  Storage.getTransactions (storage (snd (removeTransaction "t2" Sample.signed_in_offline)))
  = [Sample.t1_old] /\
  queue (snd (removeTransaction "t2" Sample.signed_in_offline)) = ["t9"] /\
  sent_since Sample.signed_in_offline
    (snd (performSync "user-1"
       (Sample.reconnect (Sample.online [Sample.row_t2])
          (snd (removeTransaction "t2" Sample.signed_in_offline)))))
  = [ReqDeleteEq "t2";
     ReqUpsertRows [toRow Sample.t1_old "user-1" [] []];
     ReqDeleteIn ["t9"];
     ReqSelectEq "user-1"] /\
  Storage.getTransactions
    (storage (snd (performSync "user-1"
       (Sample.reconnect (Sample.online [Sample.row_t2])
          (snd (removeTransaction "t2" Sample.signed_in_offline))))))
  = [Sample.t1_old; Sample.t2].
Proof.
  repeat split; reflexivity.
Qed.

Lemma fromRow_toRow {num : Type} (tx : Transaction num) (userId : string)
    (categories : list (Category num)) (accounts : list (Account num)) :
  fromRow (toRow tx userId categories accounts) = tx.
Proof. now destruct tx. Qed.

(** Stored by [saveTransaction], a record is in the store. *)
Lemma saveTransaction_In {num : Type} (tx : Transaction num) (s : Storage.t num) :
  In tx (Storage.getTransactions (Storage.saveTransaction tx s)).
Proof.
  unfold Storage.saveTransaction.
  assert (H : forall (p : Transaction num -> bool) xs i,
             Js.findIndex p xs = Some i -> In tx (Js.assign i tx xs)).
  { induction xs as [|y ys IH]; simpl; [discriminate|]. intros i.
    destruct (p y).
    - intros [= <-]. now left.
    - destruct (Js.findIndex p ys) as [j|]; [|discriminate].
      intros [= <-]. right. now apply IH. }
  destruct (Js.findIndex _ _) as [i|] eqn:E; simpl.
  - eapply H. exact E.
  - apply in_or_app. right. now left.
Qed.

Lemma guest_mode_local_only_witness :
  requests (mutate_all
              [Add Sample.t1_old; Update Sample.t1_new; Remove "t1"; Add Sample.t2]
              Sample.guest) = [] /\
  Storage.PENDING_DELETES
    (storage (mutate_all
                [Add Sample.t1_old; Update Sample.t1_new; Remove "t1"; Add Sample.t2]
                Sample.guest)) = None /\
  Storage.getTransactions
    (storage (mutate_all
                [Add Sample.t1_old; Update Sample.t1_new; Remove "t1"; Add Sample.t2]
                Sample.guest)) = [Sample.t2].
Proof.
  split; [|split].
  - apply (@guest_mode_local_only Z
             [Add Sample.t1_old; Update Sample.t1_new; Remove "t1"; Add Sample.t2]
             Sample.guest). reflexivity.
  - apply (@guest_mode_local_only Z
             [Add Sample.t1_old; Update Sample.t1_new; Remove "t1"; Add Sample.t2]
             Sample.guest). reflexivity.
  - reflexivity.
Defined.

(* ================================================================== *)
(** * Further properties of the local store *)

(** ** Upsert by key *)

Section UpsertFacts.
Context {A : Type} (key : A -> string).
Implicit Types (x : A) (xs : list A).

Lemma findIndex_none (p : A -> bool) xs :
  Js.findIndex p xs = None -> forall y, In y xs -> p y = false.
Proof.
  induction xs as [|z zs IH]; simpl; [tauto|].
  destruct (p z) eqn:E; [discriminate|].
  destruct (Js.findIndex p zs); [discriminate|].
  intros _ y [<-|Hin]; auto.
Qed.

(** The index found splits the array: nothing before it satisfies [p],
    the element at it does. *)
Lemma findIndex_some (p : A -> bool) xs : forall i,
  Js.findIndex p xs = Some i ->
  exists pre y post,
    xs = pre ++ y :: post /\ List.length pre = i /\ p y = true /\
    (forall z, In z pre -> p z = false) /\
    forall v, Js.assign i v xs = pre ++ v :: post.
Proof.
  induction xs as [|z zs IH]; simpl; [discriminate|].
  intro i. destruct (p z) eqn:E.
  - intros [= <-]. exists [], z, zs. simpl. repeat split; auto. tauto.
  - destruct (Js.findIndex p zs) as [j|]; [|discriminate].
    intros [= <-]. destruct (IH j eq_refl) as (pre & y & post & -> & Hlen & Hy & Hpre & Hassign).
    exists (z :: pre), y, post. simpl. repeat split; auto.
    + intros z' [<-|Hin]; auto.
    + intro v. now rewrite Hassign.
Qed.

Lemma first_split_unique (p : A -> bool) : forall (pre pre' : list A) y y' post post',
  pre ++ y :: post = pre' ++ y' :: post' ->
  (forall z, In z pre -> p z = false) -> p y = true ->
  (forall z, In z pre' -> p z = false) -> p y' = true ->
  pre = pre' /\ y = y' /\ post = post'.
Proof.
  induction pre as [|z pre IH]; intros [|z' pre'] y y' post post' E Hpre Hy Hpre' Hy';
    simpl in E; injection E as E1 E2; subst.
  - auto.
  - rewrite (Hpre' z') in Hy by now left. discriminate.
  - rewrite (Hpre y') in Hy' by now left. discriminate.
  - destruct (IH pre' y y' post post' E2) as (-> & -> & ->); auto.
    + intros; apply Hpre; now right.
    + intros; apply Hpre'; now right.
Qed.

(** The two shapes of an upsert: replaced in place, or appended. *)
Lemma upsert_cases x xs :
  (exists pre y post,
     xs = pre ++ y :: post /\ key y = key x /\
     (forall z, In z pre -> key z <> key x) /\
     upsert key x xs = pre ++ x :: post) \/
  ((forall z, In z xs -> key z <> key x) /\ upsert key x xs = xs ++ [x]).
Proof.
  unfold upsert. destruct (Js.findIndex _ xs) as [i|] eqn:E.
  - left. destruct (findIndex_some _ _ E) as (pre & y & post & Hxs & _ & Hy & Hpre & Hassign).
    exists pre, y, post. repeat split; auto.
    + now apply String.eqb_eq.
    + intros z Hz. apply String.eqb_neq. now apply Hpre.
  - right. split; auto. intros z Hz. apply String.eqb_neq.
    now apply (findIndex_none _ _ E).
Qed.

Lemma find_app_none (p : A -> bool) (pre rest : list A) :
  (forall z, In z pre -> p z = false) -> List.find p (pre ++ rest) = List.find p rest.
Proof.
  induction pre as [|z pre IH]; simpl; auto.
  intro H. rewrite (H z) by now left. apply IH. intros; apply H; now right.
Qed.

Lemma upsert_find x xs :
  Js.find (fun y => String.eqb (key y) (key x)) (upsert key x xs) = Some x.
Proof.
  unfold Js.find.
  destruct (upsert_cases x xs) as [(pre & y & post & _ & _ & Hpre & ->)|[Hnone ->]].
  - rewrite find_app_none.
    + simpl. now rewrite String.eqb_refl.
    + intros z Hz. apply String.eqb_neq. auto.
  - rewrite find_app_none.
    + simpl. now rewrite String.eqb_refl.
    + intros z Hz. apply String.eqb_neq. auto.
Qed.

Lemma upsert_other x xs (k : string) :
  k <> key x ->
  filter (fun y => String.eqb (key y) k) (upsert key x xs) =
  filter (fun y => String.eqb (key y) k) xs.
Proof.
  intro Hk.
  assert (Hx : forall z, key z = key x -> String.eqb (key z) k = false).
  { intros z Hz. apply String.eqb_neq. congruence. }
  destruct (upsert_cases x xs) as [(pre & y & post & -> & Hy & _ & ->)|[_ ->]];
    rewrite !filter_app; simpl.
  - now rewrite (Hx x eq_refl), (Hx y Hy).
  - rewrite (Hx x eq_refl). now rewrite app_nil_r.
Qed.

Lemma upsert_keys x xs :
  map key (upsert key x xs) =
  if Js.includes (map key xs) (key x) then map key xs else map key xs ++ [key x].
Proof.
  destruct (upsert_cases x xs) as [(pre & y & post & -> & Hy & _ & ->)|[Hnone ->]].
  - assert (Hin : Js.includes (map key (pre ++ y :: post)) (key x) = true).
    { unfold Js.includes. apply existsb_exists. exists (key y). split.
      - apply in_map. apply in_or_app. right. now left.
      - apply String.eqb_eq. auto. }
    rewrite Hin, !map_app. simpl. now rewrite Hy.
  - assert (Hin : Js.includes (map key xs) (key x) = false).
    { unfold Js.includes. apply not_true_is_false. intro H.
      apply existsb_exists in H. destruct H as (k & Hk & E).
      apply String.eqb_eq in E. subst k.
      apply in_map_iff in Hk. destruct Hk as (z & Hz & Hzin).
      exact (Hnone z Hzin Hz). }
    rewrite Hin, map_app. reflexivity.
Qed.

Lemma upsert_NoDup x xs : NoDup (map key xs) -> NoDup (map key (upsert key x xs)).
Proof.
  intro Hnd. rewrite upsert_keys.
  destruct (Js.includes (map key xs) (key x)) eqn:E; auto.
  apply NoDup_app; auto.
  - repeat constructor. simpl. tauto.
  - intros k Hk [<-|[]].
    assert (H : Js.includes (map key xs) (key x) = true).
    { unfold Js.includes. apply existsb_exists. exists (key x). split; auto.
      apply String.eqb_refl. }
    congruence.
Qed.

Lemma upsert_idempotent x xs : upsert key x (upsert key x xs) = upsert key x xs.
Proof.
  set (p := fun y => String.eqb (key y) (key x)).
  assert (Hp : forall z, key z <> key x -> p z = false).
  { intros z Hz. unfold p. now apply String.eqb_neq. }
  assert (Hx : p x = true) by (unfold p; apply String.eqb_refl).
  destruct (upsert_cases x xs) as [(pre & y & post & -> & Hy & Hpre & E)|[Hnone E]];
    rewrite E.
  - destruct (upsert_cases x (pre ++ x :: post))
      as [(pre' & y' & post' & Hsplit & Hy' & Hpre' & ->)|[Hnone' _]].
    + destruct (first_split_unique p pre pre' x y' post post' Hsplit)
        as (-> & _ & ->); auto.
      unfold p. now apply String.eqb_eq.
    + exfalso. apply (Hnone' x); auto. apply in_or_app. right. now left.
  - destruct (upsert_cases x (xs ++ [x]))
      as [(pre' & y' & post' & Hsplit & Hy' & Hpre' & ->)|[Hnone' _]].
    + destruct (first_split_unique p xs pre' x y' [] post' Hsplit)
        as (-> & _ & <-); auto.
      unfold p. now apply String.eqb_eq.
    + exfalso. apply (Hnone' x); auto. apply in_or_app. right. now left.
Qed.

(** Dropping the key after an upsert is dropping it before. *)
Lemma upsert_then_drop x xs :
  filter (fun y => negb (String.eqb (key y) (key x))) (upsert key x xs) =
  filter (fun y => negb (String.eqb (key y) (key x))) xs.
Proof.
  destruct (upsert_cases x xs) as [(pre & y & post & -> & Hy & _ & ->)|[_ ->]];
    rewrite !filter_app; simpl; rewrite ?Hy, String.eqb_refl; simpl.
  - reflexivity.
  - now rewrite app_nil_r.
Qed.

End UpsertFacts.

(** ** Transactions, accounts and categories in the store *)

(** The numbers that JSON carries unchanged, in binary64: the finite
    ones but negative zero. *)
Lemma json_number_binary64 :
  json_safe 570%float /\ json_safe (-80.5)%float /\
  json_number nan = None /\ json_number infinity = None /\
  json_number neg_infinity = None /\ json_number (-0)%float = Some 0%float.
Proof. repeat split. Qed.

Section StoreFacts.
Context {num : Type}.
Implicit Types (s : Storage.t num) (tx : Transaction num) (d : Defaults num).

Lemma saveTransaction_as_upsert tx s :
  Storage.saveTransaction tx s =
  Storage.set_TRANSACTIONS
    (Some (upsert (@Transaction.id num) tx (Storage.getTransactions s))) s.
Proof.
  unfold Storage.saveTransaction, upsert. now destruct (Js.findIndex _ _).
Qed.

Lemma saveAccount_as_upsert d (a : Account num) s :
  Storage.saveAccount d a s =
  Storage.set_ACCOUNTS (Some (upsert (@Account.id num) a (Storage.getAccounts d s))) s.
Proof.
  unfold Storage.saveAccount, upsert. now destruct (Js.findIndex _ _).
Qed.

Lemma saveCategory_as_upsert d (c : Category num) s :
  Storage.saveCategory d c s =
  Storage.set_CATEGORIES (Some (upsert (@Category.id num) c (Storage.getCategories d s))) s.
Proof.
  unfold Storage.saveCategory, upsert. now destruct (Js.findIndex _ _).
Qed.

(** X1.  [saveTransaction] is an upsert by id.  For a record whose
    amount JSON carries unchanged, looking the id up in the stored list
    afterwards gives the saved record; the records of every other id are
    the same records in the same order; the list of ids is unchanged when
    the id was stored and has the id appended when it was not; ids that
    were distinct stay distinct. *)
Theorem saveTransaction_upsert {J : JsonNumber num} tx s :
  json_safe (Transaction.amount tx) ->
  Js.find (fun t => String.eqb (Transaction.id t) (Transaction.id tx))
          (Storage.getTransactions (Storage.saveTransaction tx s)) = Some tx /\
  (forall k, k <> Transaction.id tx ->
     with_id k (Storage.getTransactions (Storage.saveTransaction tx s)) =
     with_id k (Storage.getTransactions s)) /\
  ids (Storage.getTransactions (Storage.saveTransaction tx s)) =
    (if Js.includes (ids (Storage.getTransactions s)) (Transaction.id tx)
     then ids (Storage.getTransactions s)
     else ids (Storage.getTransactions s) ++ [Transaction.id tx]) /\
  (NoDup (ids (Storage.getTransactions s)) ->
   NoDup (ids (Storage.getTransactions (Storage.saveTransaction tx s)))).
Proof.
  intros _. rewrite saveTransaction_as_upsert. simpl.
  change (Storage.getTransactions (Storage.set_TRANSACTIONS
            (Some (upsert (@Transaction.id num) tx (Storage.getTransactions s))) s))
    with (upsert (@Transaction.id num) tx (Storage.getTransactions s)).
  repeat split.
  - apply upsert_find.
  - intros k Hk. unfold with_id. now apply upsert_other.
  - apply upsert_keys.
  - apply upsert_NoDup.
Qed.

(** X2.  Saving the same record twice is saving it once; deleting its id
    after saving it is deleting the id from the store as it was; saving
    a record whose amount JSON carries unchanged, after deleting its id,
    puts it at the end of the list. *)
Theorem saveTransaction_composes {J : JsonNumber num} tx s :
  Storage.saveTransaction tx (Storage.saveTransaction tx s) = Storage.saveTransaction tx s /\
  Storage.deleteTransaction (Transaction.id tx) (Storage.saveTransaction tx s) =
    Storage.deleteTransaction (Transaction.id tx) s /\
  (json_safe (Transaction.amount tx) ->
   Storage.getTransactions
     (Storage.saveTransaction tx (Storage.deleteTransaction (Transaction.id tx) s)) =
     Storage.getTransactions (Storage.deleteTransaction (Transaction.id tx) s) ++ [tx]).
Proof.
  split; [|split; [|intros _]].
  - rewrite (saveTransaction_as_upsert tx s). rewrite saveTransaction_as_upsert.
    change (Storage.getTransactions (Storage.set_TRANSACTIONS
              (Some (upsert (@Transaction.id num) tx (Storage.getTransactions s))) s))
      with (upsert (@Transaction.id num) tx (Storage.getTransactions s)).
    rewrite upsert_idempotent. reflexivity.
  - rewrite saveTransaction_as_upsert. unfold Storage.deleteTransaction.
    change (Storage.getTransactions (Storage.set_TRANSACTIONS
              (Some (upsert (@Transaction.id num) tx (Storage.getTransactions s))) s))
      with (upsert (@Transaction.id num) tx (Storage.getTransactions s)).
    rewrite (upsert_then_drop (@Transaction.id num)). reflexivity.
  - rewrite saveTransaction_as_upsert.
    set (l := Storage.getTransactions (Storage.deleteTransaction (Transaction.id tx) s)).
    change (upsert (@Transaction.id num) tx l = l ++ [tx]).
    destruct (upsert_cases (@Transaction.id num) tx l)
      as [(pre & y & post & Hl & Hy & _ & _)|[_ ->]]; auto.
    exfalso.
    assert (Hin : In y l) by (rewrite Hl; apply in_or_app; right; now left).
    unfold l, Storage.deleteTransaction in Hin. simpl in Hin.
    apply filter_In in Hin. destruct Hin as [_ Hne].
    rewrite Hy, String.eqb_refl in Hne. discriminate.
Qed.

(** X3.  [deleteTransaction] removes every record of the id and nothing
    else: the records of every other id are the same in the same order;
    deleting twice is deleting once; and deleting an id that is not
    stored leaves the list as it is. *)
Theorem deleteTransaction_removes (id : string) s :
  with_id id (Storage.getTransactions (Storage.deleteTransaction id s)) = [] /\
  (forall k, k <> id ->
     with_id k (Storage.getTransactions (Storage.deleteTransaction id s)) =
     with_id k (Storage.getTransactions s)) /\
  Storage.deleteTransaction id (Storage.deleteTransaction id s) =
    Storage.deleteTransaction id s /\
  (~ In id (ids (Storage.getTransactions s)) ->
   Storage.getTransactions (Storage.deleteTransaction id s) = Storage.getTransactions s).
Proof.
  unfold Storage.deleteTransaction. simpl.
  set (l := Storage.getTransactions s).
  change (Storage.getTransactions (Storage.set_TRANSACTIONS
            (Some (filter (fun t => negb (String.eqb (Transaction.id t) id)) l)) s))
    with (filter (fun t : Transaction num => negb (String.eqb (Transaction.id t) id)) l).
  assert (Hff : forall (f g : Transaction num -> bool) (xs : list (Transaction num)),
             filter f (filter g xs) = filter (fun t => g t && f t) xs).
  { induction xs as [|x xs IH]; simpl; auto.
    destruct (g x); simpl; [destruct (f x)|]; now rewrite IH. }
  repeat split.
  - unfold with_id. rewrite Hff.
    induction l as [|t l IH]; simpl; auto.
    destruct (String.eqb (Transaction.id t) id); simpl; auto.
  - intros k Hk. unfold with_id. rewrite Hff. apply filter_ext. intro t.
    destruct (String.eqb (Transaction.id t) id) eqn:E; simpl; auto.
    apply String.eqb_eq in E. symmetry. apply String.eqb_neq. congruence.
  - unfold Storage.set_TRANSACTIONS. simpl. do 2 f_equal.
    rewrite Hff. apply filter_ext. intro t. now destruct (negb _).
  - intro Hn. clearbody l. induction l as [|t l IH]; simpl; auto.
    destruct (String.eqb (Transaction.id t) id) eqn:E; simpl.
    + apply String.eqb_eq in E. exfalso. apply Hn. left. exact E.
    + f_equal. apply IH. intro H. apply Hn. now right.
Qed.

(** X4.  [saveAccount] and [saveCategory] are upserts by id over what the
    getters give, which is the table of defaults while the key is absent.
    For default tables and a saved record whose numbers JSON carries
    unchanged, the getter afterwards gives the saved record under its id
    and, for every other id, the same records in the same order. *)
Theorem saveAccount_saveCategory_upsert {J : JsonNumber num} d
    (a : Account num) (c : Category num) s :
  json_safe_defaults d ->
  json_safe (Account.initialBalance a) ->
  json_safe (Category.sortOrder c) ->
  (Js.find (fun x => String.eqb (Account.id x) (Account.id a))
           (Storage.getAccounts d (Storage.saveAccount d a s)) = Some a /\
   forall k, k <> Account.id a ->
     filter (fun x => String.eqb (Account.id x) k)
            (Storage.getAccounts d (Storage.saveAccount d a s)) =
     filter (fun x => String.eqb (Account.id x) k) (Storage.getAccounts d s)) /\
  (Js.find (fun x => String.eqb (Category.id x) (Category.id c))
           (Storage.getCategories d (Storage.saveCategory d c s)) = Some c /\
   forall k, k <> Category.id c ->
     filter (fun x => String.eqb (Category.id x) k)
            (Storage.getCategories d (Storage.saveCategory d c s)) =
     filter (fun x => String.eqb (Category.id x) k) (Storage.getCategories d s)).
Proof.
  intros _ _ _. rewrite saveAccount_as_upsert, saveCategory_as_upsert.
  change (Storage.getAccounts d (Storage.set_ACCOUNTS
            (Some (upsert (@Account.id num) a (Storage.getAccounts d s))) s))
    with (upsert (@Account.id num) a (Storage.getAccounts d s)).
  change (Storage.getCategories d (Storage.set_CATEGORIES
            (Some (upsert (@Category.id num) c (Storage.getCategories d s))) s))
    with (upsert (@Category.id num) c (Storage.getCategories d s)).
  repeat split.
  - apply upsert_find.
  - intros k Hk. now apply upsert_other.
  - apply upsert_find.
  - intros k Hk. now apply upsert_other.
Qed.

Lemma getAccounts_deleteAccount d (id : string) s :
  Storage.getAccounts d (Storage.deleteAccount d id s) =
  filter (fun a => negb (String.eqb (Account.id a) id)) (Storage.getAccounts d s).
Proof. reflexivity. Qed.

Lemma getTransactions_deleteAccount d (id : string) s :
  Storage.getTransactions (Storage.deleteAccount d id s) =
  filter (fun t => negb (String.eqb (Transaction.accountId t) id)
                   && negb (Js.opt_eqb (Transaction.toAccountId t) id))
         (Storage.getTransactions s).
Proof. reflexivity. Qed.

(** X5.  [deleteAccount] cascades: afterwards no account has the id and
    no stored transaction has it as its account or as the destination of
    a transfer, while every transaction that does not touch the account
    is kept.  The pending-deletes queue and the categories are not
    written. *)
Theorem deleteAccount_cascades d (id : string) s :
  (forall a, In a (Storage.getAccounts d (Storage.deleteAccount d id s)) ->
             Account.id a <> id) /\
  (forall t, In t (Storage.getTransactions (Storage.deleteAccount d id s)) <->
             In t (Storage.getTransactions s) /\
             Transaction.accountId t <> id /\ Transaction.toAccountId t <> Some id) /\
  (forall a, In a (Storage.getAccounts d s) -> Account.id a <> id ->
             In a (Storage.getAccounts d (Storage.deleteAccount d id s))) /\
  Storage.PENDING_DELETES (Storage.deleteAccount d id s) = Storage.PENDING_DELETES s /\
  Storage.CATEGORIES (Storage.deleteAccount d id s) = Storage.CATEGORIES s.
Proof.
  rewrite getAccounts_deleteAccount, getTransactions_deleteAccount.
  split; [|split; [|split; [|split]]]; auto.
  - intros a Ha. apply filter_In in Ha. destruct Ha as [_ Ha].
    apply negb_true_iff in Ha. now apply String.eqb_neq.
  - intro t. rewrite filter_In, andb_true_iff, !negb_true_iff, String.eqb_neq.
    assert (Hto : Js.opt_eqb (Transaction.toAccountId t) id = false <->
                  Transaction.toAccountId t <> Some id).
    { destruct (Transaction.toAccountId t) as [to|]; simpl.
      - rewrite String.eqb_neq. split; congruence.
      - split; [discriminate | reflexivity]. }
    rewrite Hto. reflexivity.
  - intros a Ha Hne. apply filter_In. split; auto.
    apply negb_true_iff. now apply String.eqb_neq.
Qed.

Lemma includes_In_iff (xs : list string) (x : string) :
  Js.includes xs x = true <-> In x xs.
Proof.
  unfold Js.includes. rewrite existsb_exists. split.
  - intros [y [Hin E]]. apply String.eqb_eq in E. now subst.
  - intro H. exists x. split; auto. apply String.eqb_refl.
Qed.

Lemma mergeDefaultCategories_covers d s :
  forall c, In c (DEFAULT_CATEGORIES d) ->
    In (Category.id c)
       (map (@Category.id num)
            (Storage.parse_or (Storage.CATEGORIES (Storage.mergeDefaultCategories d s)) [])).
Proof.
  intros c Hc. unfold Storage.mergeDefaultCategories.
  set (existing := Storage.parse_or (Storage.CATEGORIES s) []).
  set (missing := filter _ (DEFAULT_CATEGORIES d)).
  assert (Hcase : In (Category.id c) (map (@Category.id num) existing) \/ In c missing).
  { destruct (Js.includes (map (@Category.id num) existing) (Category.id c)) eqn:E.
    - left. now apply includes_In_iff.
    - right. unfold missing. apply filter_In. split; auto. now rewrite E. }
  destruct missing as [|m0 rest] eqn:Em.
  - destruct Hcase as [H|[]]. exact H.
  - simpl. rewrite map_app, in_app_iff. destruct Hcase as [H|H]; auto.
    right. now apply in_map.
Qed.

Lemma mergeDefaultCategories_fixed d s :
  (forall c, In c (DEFAULT_CATEGORIES d) ->
     In (Category.id c) (map (@Category.id num) (Storage.parse_or (Storage.CATEGORIES s) []))) ->
  Storage.mergeDefaultCategories d s = s.
Proof.
  intro H. unfold Storage.mergeDefaultCategories.
  destruct (filter _ (DEFAULT_CATEGORIES d)) as [|m0 rest] eqn:E; auto.
  exfalso. assert (Hin : In m0 (filter
      (fun c => negb (Js.includes (map (@Category.id num)
                   (Storage.parse_or (Storage.CATEGORIES s) [])) (Category.id c)))
      (DEFAULT_CATEGORIES d))) by (rewrite E; now left).
  apply filter_In in Hin. destruct Hin as [Hin Hn].
  apply negb_true_iff in Hn. apply H in Hin. apply includes_In_iff in Hin. congruence.
Qed.

Lemma initializeStorage_PENDING d s :
  Storage.PENDING_DELETES (Storage.initializeStorage d s) = Storage.PENDING_DELETES s.
Proof.
  unfold Storage.initializeStorage, Storage.mergeDefaultCategories.
  destruct (Storage.item_truthy _); auto. now destruct (filter _ _).
Qed.

(** X6.  [initializeStorage] can be run again at every launch: running it
    on its own result changes nothing; after it every default category
    has its id in the stored categories; and it never writes the
    pending-deletes queue. *)
Theorem initializeStorage_idempotent d s :
  Storage.initializeStorage d (Storage.initializeStorage d s) =
    Storage.initializeStorage d s /\
  (forall c, In c (DEFAULT_CATEGORIES d) ->
     In (Category.id c)
        (map (@Category.id num)
             (Storage.getCategories d (Storage.initializeStorage d s)))) /\
  Storage.PENDING_DELETES (Storage.initializeStorage d s) = Storage.PENDING_DELETES s.
Proof.
  unfold Storage.initializeStorage.
  destruct (Storage.item_truthy (Storage.INITIALIZED s)) eqn:Einit.
  - assert (Hinit : Storage.INITIALIZED (Storage.mergeDefaultCategories d s) =
                    Storage.INITIALIZED s).
    { unfold Storage.mergeDefaultCategories. now destruct (filter _ _). }
    rewrite Hinit, Einit. split; [|split].
    + apply mergeDefaultCategories_fixed. apply mergeDefaultCategories_covers.
    + intros c Hc. pose proof (mergeDefaultCategories_covers d s c Hc) as H.
      unfold Storage.getCategories.
      destruct (Storage.CATEGORIES (Storage.mergeDefaultCategories d s)) as [cats|];
        simpl in *; auto. destruct H.
    + unfold Storage.mergeDefaultCategories. now destruct (filter _ _).
  - simpl. split; [|split]; auto.
    + apply mergeDefaultCategories_fixed. simpl. intros c Hc. now apply in_map.
    + intros c Hc. now apply in_map.
Qed.

(** X7.  On a store that is initialized, [initializeStorage] keeps what
    the user has: the transactions, the accounts and the queue are not
    written, every stored category stays where it is, and what is
    appended are default categories whose id was not stored. *)
Theorem initializeStorage_keeps_data d s :
  Storage.item_truthy (Storage.INITIALIZED s) = true ->
  Storage.TRANSACTIONS (Storage.initializeStorage d s) = Storage.TRANSACTIONS s /\
  Storage.ACCOUNTS (Storage.initializeStorage d s) = Storage.ACCOUNTS s /\
  Storage.PENDING_DELETES (Storage.initializeStorage d s) = Storage.PENDING_DELETES s /\
  exists added,
    Storage.parse_or (Storage.CATEGORIES (Storage.initializeStorage d s)) [] =
      Storage.parse_or (Storage.CATEGORIES s) [] ++ added /\
    forall c, In c added ->
      In c (DEFAULT_CATEGORIES d) /\
      ~ In (Category.id c)
           (map (@Category.id num) (Storage.parse_or (Storage.CATEGORIES s) [])).
Proof.
  intro Hinit. unfold Storage.initializeStorage. rewrite Hinit.
  unfold Storage.mergeDefaultCategories.
  set (existing := Storage.parse_or (Storage.CATEGORIES s) []).
  destruct (filter _ (DEFAULT_CATEGORIES d)) as [|m0 rest] eqn:E.
  - repeat split; auto. exists []. rewrite app_nil_r. split; auto. intros c [].
  - repeat split; auto. exists (m0 :: rest). split; auto.
    intros c Hc. rewrite <- E in Hc. apply filter_In in Hc. destruct Hc as [Hc Hn].
    split; auto. intro Hin. apply includes_In_iff in Hin.
    fold existing in Hn. rewrite Hin in Hn. discriminate.
Qed.

End StoreFacts.

(* ================================================================== *)
(** * Further properties of the merge engine *)

Section MergeMore.
Context {num : Type}.
Notation Tx := (Transaction num).
Implicit Types (m : JsMap.t Tx) (tx a b r : Tx) (x : string) (l L A B C : list Tx).

Lemma fold_pick_in l : forall (c : option Tx) r,
  fold_left pick l c = Some r -> c = Some r \/ In r l.
Proof.
  induction l as [|tx l IH]; simpl; intros c r H; auto.
  destruct (IH _ _ H) as [Hc|Hin]; auto.
  unfold pick in Hc. destruct c as [e|].
  - destruct (Js.ge _ _); injection Hc as <-; auto.
  - injection Hc as <-; auto.
Qed.

Lemma fold_last_in l : forall (c : option Tx) r,
  fold_left (fun _ tx => Some tx) l c = Some r -> c = Some r \/ In r l.
Proof.
  induction l as [|tx l IH]; simpl; intros c r H; auto.
  destruct (IH _ _ H) as [[= <-]|Hin]; auto.
Qed.

Lemma set_fresh m tx :
  JsMap.get (Transaction.id tx) m = None ->
  set_by_id m tx = m ++ [(Transaction.id tx, tx)].
Proof.
  unfold set_by_id. induction m as [|[k v] m IH]; simpl; auto.
  destruct (String.eqb k (Transaction.id tx)); [discriminate|].
  intro H. now rewrite IH.
Qed.

Lemma keys_keyed l : JsMap.keys (keyed l) = ids l.
Proof. unfold keyed, JsMap.keys, ids. now rewrite map_map. Qed.

Lemma values_keyed l : JsMap.values (keyed l) = l.
Proof. unfold keyed, JsMap.values. rewrite map_map. apply map_id. Qed.

Lemma keyed_values m : well_keyed m -> keyed (JsMap.values m) = m.
Proof.
  intros [_ Hk]. unfold keyed, JsMap.values. rewrite map_map.
  rewrite <- (map_id m) at 2. apply map_ext_in. intros [k v] Hin. simpl.
  now rewrite (Hk k v Hin).
Qed.

(** Records of fresh, distinct ids are appended in order by both loops. *)
Lemma fold_fresh (f : JsMap.t Tx -> Tx -> JsMap.t Tx) :
  (forall m tx, JsMap.get (Transaction.id tx) m = None -> f m tx = set_by_id m tx) ->
  forall l m, NoDup (JsMap.keys m ++ ids l) -> fold_left f l m = m ++ keyed l.
Proof.
  intros Hf. induction l as [|tx l IH]; intros m H; simpl.
  - now rewrite app_nil_r.
  - assert (Hn : JsMap.get (Transaction.id tx) m = None).
    { apply get_none_keys. intro Hin. apply NoDup_remove_2 in H.
      apply H. apply in_or_app. now left. }
    rewrite (Hf m tx Hn), (set_fresh m tx Hn), IH.
    + now rewrite <- app_assoc.
    + unfold JsMap.keys. rewrite map_app. simpl. rewrite <- app_assoc. exact H.
Qed.

Lemma seed_distinct l : NoDup (ids l) -> seed_local l = keyed l.
Proof.
  intro H. unfold seed_local. now rewrite (fold_fresh set_by_id) by auto.
Qed.

Lemma merge_remote_fresh m tx :
  JsMap.get (Transaction.id tx) m = None -> merge_remote m tx = set_by_id m tx.
Proof. intro H. unfold merge_remote. now rewrite H. Qed.

Lemma with_id_single l a :
  NoDup (ids l) -> In a l -> with_id (Transaction.id a) l = [a].
Proof.
  intros Hnd Hin. destruct (@with_id_NoDup _ (Transaction.id a) l Hnd) as [E|[a' E]].
  - assert (H : In a (with_id (Transaction.id a) l)) by (apply in_with_id; auto).
    rewrite E in H. destruct H.
  - assert (H : In a (with_id (Transaction.id a) l)) by (apply in_with_id; auto).
    rewrite E in H. destruct H as [->|[]]. exact E.
Qed.

Lemma with_id_absent l x : ~ In x (ids l) -> with_id x l = [].
Proof.
  intro H. destruct (with_id x l) as [|y rest] eqn:E; auto.
  exfalso. assert (Hin : In y (with_id x l)) by (rewrite E; now left).
  apply in_with_id in Hin. destruct Hin as [Hin <-]. apply H.
  unfold ids. now apply in_map.
Qed.

(** X8.  The merge invents nothing and owns nothing: every record of the
    output is a record of the local or of the remote list. *)
Theorem merge_from_inputs A B r :
  In r (mergeTransactions A B) -> In r A \/ In r B.
Proof.
  unfold mergeTransactions. rewrite in_values_get by apply well_keyed_merge_map.
  rewrite get_merge_map. intro H.
  destruct (fold_pick_in _ _ H) as [Hc|Hin].
  - destruct (fold_last_in _ _ Hc) as [E|Hin]; [discriminate|].
    left. now apply in_with_id in Hin.
  - right. now apply in_with_id in Hin.
Qed.

(** X9.  On lists with distinct ids the merge is decided id by id.  An id
    held by both lists keeps the remote record when its [updatedAt] is
    [>=] the local one and the local record otherwise; an id held by one
    list only keeps the record of that list. *)
Theorem merge_by_id A B :
  NoDup (ids A) ->
  NoDup (ids B) ->
  (forall a b, In a A -> In b B -> Transaction.id a = Transaction.id b ->
     with_id (Transaction.id a) (mergeTransactions A B) =
     [if Js.ge (Transaction.updatedAt b) (Transaction.updatedAt a) then b else a]) /\
  (forall a, In a A -> ~ In (Transaction.id a) (ids B) ->
     with_id (Transaction.id a) (mergeTransactions A B) = [a]) /\
  (forall b, In b B -> ~ In (Transaction.id b) (ids A) ->
     with_id (Transaction.id b) (mergeTransactions A B) = [b]).
Proof.
  intros HA HB. split; [|split].
  - intros a b Ha Hb Hid. unfold mergeTransactions.
    apply with_id_values_some; [apply well_keyed_merge_map|].
    rewrite get_merge_map, (with_id_single A a HA Ha), Hid, (with_id_single B b HB Hb).
    simpl. now destruct (Js.ge _ _).
  - intros a Ha Hn. unfold mergeTransactions.
    apply with_id_values_some; [apply well_keyed_merge_map|].
    now rewrite get_merge_map, (with_id_single A a HA Ha), (with_id_absent B _ Hn).
  - intros b Hb Hn. unfold mergeTransactions.
    apply with_id_values_some; [apply well_keyed_merge_map|].
    now rewrite get_merge_map, (with_id_single B b HB Hb), (with_id_absent A _ Hn).
Qed.

(** X10.  The empty list is neutral on both sides for a list with
    distinct ids: merging it with nothing remote, or into nothing local,
    gives the list back in its order. *)
Theorem merge_empty L :
  NoDup (ids L) -> mergeTransactions L [] = L /\ mergeTransactions [] L = L.
Proof.
  intro H. unfold mergeTransactions, merge_map. split.
  - simpl. rewrite seed_distinct by auto. apply values_keyed.
  - unfold seed_local. simpl.
    rewrite (fold_fresh merge_remote merge_remote_fresh) by auto.
    apply values_keyed.
Qed.

(** X11.  Pulling the same remote rows again changes nothing: merging the
    result of a merge with the same remote list, of distinct ids, gives
    the same result. *)
Theorem merge_absorbs A B :
  NoDup (ids B) ->
  mergeTransactions (mergeTransactions A B) B = mergeTransactions A B.
Proof.
  intro HB. unfold mergeTransactions at 1 3. f_equal.
  unfold merge_map at 1.
  rewrite seed_distinct by apply NoDup_ids_merge.
  unfold mergeTransactions. rewrite keyed_values by apply well_keyed_merge_map.
  set (m' := merge_map A B).
  assert (Hfix : forall b, In b B -> merge_remote m' b = m').
  { intros b Hb. unfold merge_remote.
    assert (Hg : JsMap.get (Transaction.id b) m' =
                 pick (fold_left (fun _ tx => Some tx) (with_id (Transaction.id b) A) None) b).
    { unfold m'. now rewrite get_merge_map, (with_id_single B b HB Hb). }
    rewrite Hg. unfold pick at 1.
    destruct (fold_left _ (with_id (Transaction.id b) A) None) as [e|] eqn:Ee.
    - destruct (Js.ge (Transaction.updatedAt b) (Transaction.updatedAt e)) eqn:Ege.
      + assert (Hset : set_by_id m' b = m').
        { apply set_get_id. rewrite Hg. simpl. now rewrite Ege. }
        rewrite Hset.
        now destruct (Js.ge (Transaction.updatedAt b) (Transaction.updatedAt b)).
      + now rewrite Ege.
    - assert (Hset : set_by_id m' b = m').
      { apply set_get_id. rewrite Hg. reflexivity. }
      rewrite Hset.
      now destruct (Js.ge (Transaction.updatedAt b) (Transaction.updatedAt b)). }
  clearbody m'. clear HB. induction B as [|b B IH]; simpl; auto.
  rewrite Hfix by now left. apply IH. intros; apply Hfix; now right.
Qed.

Lemma keys_merge_remote m b :
  JsMap.keys (merge_remote m b) =
  if Js.includes (JsMap.keys m) (Transaction.id b)
  then JsMap.keys m
  else JsMap.keys m ++ [Transaction.id b].
Proof.
  unfold merge_remote.
  destruct (JsMap.get (Transaction.id b) m) as [e|] eqn:E.
  - assert (Hin : Js.includes (JsMap.keys m) (Transaction.id b) = true).
    { apply includes_In_iff.
      destruct (in_dec string_dec (Transaction.id b) (JsMap.keys m)) as [H|H]; auto.
      apply get_none_keys in H. congruence. }
    rewrite Hin. destruct (Js.ge _ _); auto.
    unfold set_by_id. now rewrite keys_set, E.
  - assert (Hin : Js.includes (JsMap.keys m) (Transaction.id b) = false).
    { apply not_true_is_false. intro H. apply includes_In_iff in H.
      apply get_none_keys in E. contradiction. }
    rewrite Hin. unfold set_by_id. now rewrite keys_set, E.
Qed.

Lemma keys_fold_merge_remote B : forall m,
  NoDup (ids B) ->
  JsMap.keys (fold_left merge_remote B m) =
  JsMap.keys m ++ filter (fun k => negb (Js.includes (JsMap.keys m) k)) (ids B).
Proof.
  induction B as [|b B IH]; intros m HB; simpl.
  - now rewrite app_nil_r.
  - inversion HB as [|? ? Hnin HB']; subst. rewrite IH by auto.
    rewrite keys_merge_remote.
    destruct (Js.includes (JsMap.keys m) (Transaction.id b)) eqn:E; simpl; auto.
    rewrite <- app_assoc. simpl. do 2 f_equal.
    apply filter_ext_in. intros k Hk. f_equal.
    unfold Js.includes. rewrite existsb_app. simpl.
    assert (Hne : String.eqb k (Transaction.id b) = false).
    { apply String.eqb_neq. intros ->. contradiction. }
    rewrite Hne. now rewrite !orb_false_r.
Qed.

Lemma ids_merge_distinct A B :
  NoDup (ids A) ->
  NoDup (ids B) ->
  ids (mergeTransactions A B) =
  ids A ++ filter (fun k => negb (Js.includes (ids A) k)) (ids B).
Proof.
  intros HA HB. unfold mergeTransactions.
  rewrite ids_values by apply well_keyed_merge_map.
  unfold merge_map. rewrite keys_fold_merge_remote by auto.
  now rewrite seed_distinct, keys_keyed by auto.
Qed.

(** X12.  The output lists the local records first, in their order, and
    after them the remote records whose id is new, in their order (lists
    with distinct ids). *)
Theorem merge_order A B :
  NoDup (ids A) ->
  NoDup (ids B) ->
  ids (mergeTransactions A B) =
  ids A ++ filter (fun k => negb (Js.includes (ids A) k)) (ids B).
Proof. apply ids_merge_distinct. Qed.

(** *** The order of timestamps *)

Lemma ascii_compare_lt_trans (a b c : ascii) :
  Ascii.compare a b = Lt -> Ascii.compare b c = Lt -> Ascii.compare a c = Lt.
Proof.
  unfold Ascii.compare. rewrite !N.compare_lt_iff. apply N.lt_trans.
Qed.

Lemma compare_lt_trans : forall s1 s2 s3 : string,
  String.compare s1 s2 = Lt -> String.compare s2 s3 = Lt -> String.compare s1 s3 = Lt.
Proof.
  induction s1 as [|c1 s1 IH]; intros [|c2 s2] [|c3 s3]; simpl; try congruence.
  destruct (Ascii.compare c1 c2) eqn:E12; try discriminate;
    destruct (Ascii.compare c2 c3) eqn:E23; try discriminate; intros H12 H23.
  - apply Ascii.compare_eq_iff in E12, E23. subst.
    assert (E : Ascii.compare c3 c3 = Eq).
    { unfold Ascii.compare. apply N.compare_refl. }
    rewrite E. eapply IH; eauto.
  - apply Ascii.compare_eq_iff in E12. subst. now rewrite E23.
  - apply Ascii.compare_eq_iff in E23. subst. now rewrite E12.
  - now rewrite (ascii_compare_lt_trans _ _ _ E12 E23).
Qed.

Lemma ltb_trans (a b c : string) :
  String.ltb a b = true -> String.ltb b c = true -> String.ltb a c = true.
Proof.
  unfold String.ltb. intros H1 H2.
  destruct (String.compare a b) eqn:E1; try discriminate.
  destruct (String.compare b c) eqn:E2; try discriminate.
  now rewrite (compare_lt_trans _ _ _ E1 E2).
Qed.

(** [>=] on timestamps that are present is transitive, and so is its
    failure. *)
Lemma ge_trans (a b c : string) :
  Js.ge (Js.str c) (Js.str b) = true -> Js.ge (Js.str b) (Js.str a) = true ->
  Js.ge (Js.str c) (Js.str a) = true.
Proof.
  simpl. rewrite !negb_true_iff. intros Hcb Hba.
  destruct (String.ltb c a) eqn:Hca; auto.
  destruct (string_dec b c) as [->|Hne]; [congruence|].
  destruct (ltb_total Hne) as [H|H]; [|congruence].
  pose proof (ltb_trans _ _ _ H Hca). congruence.
Qed.

Lemma not_ge_trans (a b c : string) :
  Js.ge (Js.str c) (Js.str b) = false -> Js.ge (Js.str b) (Js.str a) = false ->
  Js.ge (Js.str c) (Js.str a) = false.
Proof.
  simpl. rewrite !negb_false_iff. apply ltb_trans.
Qed.

(** *** Three lists *)

Lemma get_merge_values m C x :
  well_keyed m ->
  JsMap.get x (merge_map (JsMap.values m) C) =
  fold_left pick (with_id x C) (JsMap.get x m).
Proof.
  intro Hm. rewrite get_merge_map. f_equal.
  destruct (JsMap.get x m) as [r|] eqn:E.
  - now rewrite (with_id_values_some x Hm E).
  - now rewrite (with_id_values_none x Hm E).
Qed.

Lemma get_merge_distinct A B x :
  NoDup (ids A) -> NoDup (ids B) ->
  exists oa ob,
    (forall a, oa = Some a -> In a A) /\ (forall b, ob = Some b -> In b B) /\
    (forall c, fold_left pick (with_id x B) c = pick_opt c ob) /\
    fold_left (fun _ tx => Some tx) (with_id x A) None = oa /\
    JsMap.get x (merge_map A B) = pick_opt oa ob.
Proof.
  intros HA HB.
  assert (HoB : exists ob, (forall b, ob = Some b -> In b B) /\
                           forall c, fold_left pick (with_id x B) c = pick_opt c ob).
  { destruct (@with_id_NoDup _ x B HB) as [E|[b E]]; rewrite E.
    - exists None. split; [discriminate|reflexivity].
    - exists (Some b). split; [|reflexivity]. intros b' [= <-].
      assert (H : In b (with_id x B)) by (rewrite E; now left).
      now apply in_with_id in H. }
  assert (HoA : exists oa, (forall a, oa = Some a -> In a A) /\
                           fold_left (fun _ tx => Some tx) (with_id x A) None = oa).
  { destruct (@with_id_NoDup _ x A HA) as [E|[a E]]; rewrite E.
    - exists None. split; [discriminate|reflexivity].
    - exists (Some a). split; [|reflexivity]. intros a' [= <-].
      assert (H : In a (with_id x A)) by (rewrite E; now left).
      now apply in_with_id in H. }
  destruct HoA as (oa & HinA & EA), HoB as (ob & HinB & EB).
  exists oa, ob. repeat split; auto.
  rewrite get_merge_map, EA. apply EB.
Qed.

Lemma pick_opt_assoc (oa ob oc : option Tx) :
  (forall a, oa = Some a -> Js.is_string (Transaction.updatedAt a)) ->
  (forall b, ob = Some b -> Js.is_string (Transaction.updatedAt b)) ->
  (forall c, oc = Some c -> Js.is_string (Transaction.updatedAt c)) ->
  pick_opt (pick_opt oa ob) oc = pick_opt oa (pick_opt ob oc).
Proof.
  intros Ha Hb Hc.
  destruct oc as [c|]; [|reflexivity].
  destruct ob as [b|]; [|now destruct oa].
  destruct oa as [a|]; simpl.
  2:{ destruct (Js.ge (Transaction.updatedAt c) (Transaction.updatedAt b)); reflexivity. }
  destruct (Ha a eq_refl) as [ta Eta], (Hb b eq_refl) as [tb Etb],
    (Hc c eq_refl) as [tc Etc].
  rewrite Eta, Etb, Etc.
  destruct (Js.ge (Js.str tb) (Js.str ta)) eqn:Gba;
    destruct (Js.ge (Js.str tc) (Js.str tb)) eqn:Gcb;
    unfold pick_opt, pick; rewrite ?Etb, ?Etc, ?Eta, ?Gcb, ?Gba; try reflexivity.
  - now rewrite (ge_trans _ _ _ Gcb Gba).
  - now rewrite (not_ge_trans _ _ _ Gcb Gba).
Qed.

Lemma map_by_keys (m1 m2 : JsMap.t Tx) :
  JsMap.keys m1 = JsMap.keys m2 ->
  (forall x, JsMap.get x m1 = JsMap.get x m2) ->
  NoDup (JsMap.keys m1) ->
  m1 = m2.
Proof.
  revert m2. induction m1 as [|[k v] m1 IH]; intros [|[k' v'] m2]; simpl;
    try discriminate; auto.
  intros [= <- Hk] Hg Hnd. inversion Hnd as [|? ? Hnin Hnd']; subst.
  pose proof (Hg k) as Hgk. simpl in Hgk. rewrite String.eqb_refl in Hgk.
  injection Hgk as <-. f_equal. apply IH; auto.
  intro x. specialize (Hg x). simpl in Hg.
  destruct (String.eqb k x) eqn:E; auto.
  apply String.eqb_eq in E. subst x.
  assert (H1 : JsMap.get k m1 = None) by (now apply get_none_keys).
  assert (H2 : JsMap.get k m2 = None).
  { apply get_none_keys. unfold JsMap.keys in *. now rewrite <- Hk. }
  congruence.
Qed.

(** X13.  The merge is associative on lists with distinct ids whose
    records all carry a timestamp, a string: merging three lists gives
    the same list, records and order, however the two merges are nested. *)
Theorem merge_assoc A B C :
  NoDup (ids A) -> NoDup (ids B) -> NoDup (ids C) ->
  (forall r, In r A \/ In r B \/ In r C -> Js.is_string (Transaction.updatedAt r)) ->
  mergeTransactions (mergeTransactions A B) C =
  mergeTransactions A (mergeTransactions B C).
Proof.
  intros HA HB HC Hts.
  unfold mergeTransactions at 1 3. f_equal.
  apply map_by_keys.
  - fold (ids (mergeTransactions (mergeTransactions A B) C)).
    rewrite <- !ids_values by apply well_keyed_merge_map.
    fold (mergeTransactions (mergeTransactions A B) C).
    fold (mergeTransactions A (mergeTransactions B C)).
    rewrite !ids_merge_distinct; auto using NoDup_ids_merge.
    rewrite <- app_assoc. f_equal. rewrite filter_app. f_equal.
    assert (Hff : forall (f g : string -> bool) (xs : list string),
               filter f (filter g xs) = filter (fun t => g t && f t) xs).
    { induction xs as [|y xs IH]; simpl; auto.
      destruct (g y); simpl; [destruct (f y)|]; now rewrite IH. }
    rewrite Hff. apply filter_ext. intro k.
    unfold Js.includes. rewrite existsb_app, negb_orb.
    destruct (existsb (String.eqb k) (ids A)) eqn:EA; simpl.
    + now rewrite andb_false_r.
    + rewrite andb_true_r. f_equal.
      destruct (existsb (String.eqb k) (ids B)) eqn:EB.
      * apply existsb_exists. apply existsb_exists in EB.
        destruct EB as (y & Hy & E). exists y. split; auto.
        apply filter_In. split; auto.
        apply String.eqb_eq in E. subst y. now rewrite EA.
      * apply not_true_is_false. intro H.
        apply existsb_exists in H. destruct H as (y & Hy & E).
        apply filter_In in Hy. destruct Hy as [Hy _].
        assert (existsb (String.eqb k) (ids B) = true)
          by (apply existsb_exists; exists y; auto).
        congruence.
  - intro x. unfold mergeTransactions.
    rewrite get_merge_values by apply well_keyed_merge_map.
    destruct (@get_merge_distinct A B x HA HB) as (oa & ob & HinA & HinB & EB & EA & Eab).
    destruct (@get_merge_distinct B C x HB HC) as (ob' & oc & HinB' & HinC & EC & EB' & Ebc).
    assert (Hob : ob' = ob).
    { rewrite <- EB'. specialize (EB None).
      destruct (@with_id_NoDup _ x B HB) as [E|[b E]]; rewrite E in *; simpl in *.
      - destruct ob; [discriminate|reflexivity].
      - destruct ob; [injection EB as ->; reflexivity | discriminate]. }
    rewrite Hob in Ebc. clear Hob EB' HinB'.
    rewrite EC, Eab.
    rewrite get_merge_map, EA.
    assert (Hbc : fold_left pick (with_id x (JsMap.values (merge_map B C))) oa =
                  pick_opt oa (pick_opt ob oc)).
    { destruct (JsMap.get x (merge_map B C)) as [r|] eqn:E.
      - rewrite (with_id_values_some x (well_keyed_merge_map B C) E). simpl.
        now rewrite <- Ebc.
      - rewrite (with_id_values_none x (well_keyed_merge_map B C) E). simpl.
        now rewrite <- Ebc. }
    rewrite Hbc. apply pick_opt_assoc.
    + intros a Ha. apply Hts. left. now apply HinA.
    + intros b Hb. apply Hts. right. left. now apply HinB.
    + intros c Hc. apply Hts. right. right. now apply HinC.
  - apply well_keyed_merge_map.
Qed.

End MergeMore.

(* ================================================================== *)
(** * Further properties of the transport and the orchestrator *)

Section OrchestratorMore.
Context {num : Type}.
Implicit Types (w : World num) (s : Storage.t num) (id : string)
  (tx : Transaction num) (m : Mutation (num:=num)).

(** X14.  What is pushed comes back as it was: mapping a record to its
    row and the row back gives the record, for every owner and every
    table of categories and accounts; so a list of records survives the
    round trip through the remote table. *)
Theorem row_round_trip (L : list (Transaction num)) (userId : string)
    (categories : list (Category num)) (accounts : list (Account num)) :
  (forall tx, fromRow (toRow tx userId categories accounts) = tx) /\
  map fromRow (map (fun tx => toRow tx userId categories accounts) L) = L.
Proof.
  assert (H : forall tx, fromRow (toRow tx userId categories accounts) = tx)
    by (intro tx; now destruct tx).
  split; auto. rewrite map_map. rewrite <- (map_id L) at 2.
  apply map_ext. exact H.
Qed.

(** ** What the remote half of a mutation leaves alone *)

Lemma addPendingDelete_data id s :
  Storage.TRANSACTIONS (Storage.addPendingDelete id s) = Storage.TRANSACTIONS s /\
  Storage.ACCOUNTS (Storage.addPendingDelete id s) = Storage.ACCOUNTS s /\
  Storage.CATEGORIES (Storage.addPendingDelete id s) = Storage.CATEGORIES s.
Proof. unfold Storage.addPendingDelete. now destruct (negb _). Qed.

Lemma fold_add_data (xs : list string) : forall s,
  Storage.TRANSACTIONS (fold_left (fun s i => Storage.addPendingDelete i s) xs s) =
    Storage.TRANSACTIONS s /\
  Storage.ACCOUNTS (fold_left (fun s i => Storage.addPendingDelete i s) xs s) =
    Storage.ACCOUNTS s /\
  Storage.CATEGORIES (fold_left (fun s i => Storage.addPendingDelete i s) xs s) =
    Storage.CATEGORIES s.
Proof.
  induction xs as [|i xs IH]; intro s; simpl; auto.
  destruct (IH (Storage.addPendingDelete i s)) as (-> & -> & ->).
  apply addPendingDelete_data.
Qed.

Lemma dequeue_data id w :
  exists s',
    dequeue id w = (Resolved tt, set_storage s' w) /\
    Storage.TRANSACTIONS s' = Storage.TRANSACTIONS (storage w) /\
    Storage.ACCOUNTS s' = Storage.ACCOUNTS (storage w) /\
    Storage.CATEGORIES s' = Storage.CATEGORIES (storage w).
Proof.
  unfold dequeue. unfold bind at 1 2, read, write at 1.
  rewrite for_each_write.
  destruct (filter _ _) as [|i rest].
  - exists (Storage.clearPendingDeletes (storage w)). repeat split; auto.
  - eexists. split; [reflexivity|]. simpl (storage _).
    destruct (fold_add_data (i :: rest) (Storage.clearPendingDeletes (storage w)))
      as (-> & -> & ->).
    repeat split; auto.
Qed.

Lemma dequeue_frame id w :
  fst (dequeue id w) = Resolved tt /\
  env (snd (dequeue id w)) = env w /\
  state (snd (dequeue id w)) = state w /\
  requests (snd (dequeue id w)) = requests w /\
  sbUserIdRef (snd (dequeue id w)) = sbUserIdRef w /\
  lastSyncAtRef (snd (dequeue id w)) = lastSyncAtRef w /\
  isSyncingRef (snd (dequeue id w)) = isSyncingRef w /\
  Storage.TRANSACTIONS (storage (snd (dequeue id w))) = Storage.TRANSACTIONS (storage w) /\
  Storage.ACCOUNTS (storage (snd (dequeue id w))) = Storage.ACCOUNTS (storage w) /\
  Storage.CATEGORIES (storage (snd (dequeue id w))) = Storage.CATEGORIES (storage w).
Proof.
  destruct (dequeue_data id w) as (s' & -> & Ht & Ha & Hc). simpl.
  repeat split; auto.
Qed.

Lemma live_delete_run id w :
  exists w',
    live_delete id w = (Resolved tt, w') /\
    env w' = env w /\
    state w' = state w /\
    sbUserIdRef w' = sbUserIdRef w /\
    lastSyncAtRef w' = lastSyncAtRef w /\
    isSyncingRef w' = isSyncingRef w /\
    Storage.TRANSACTIONS (storage w') = Storage.TRANSACTIONS (storage w) /\
    Storage.ACCOUNTS (storage w') = Storage.ACCOUNTS (storage w) /\
    Storage.CATEGORIES (storage w') = Storage.CATEGORIES (storage w).
Proof.
  unfold live_delete, catch, deleteRemoteTransaction. unfold bind at 1.
  unfold with_supabase. destruct (configured (env w)).
  - unfold bind at 1. unfold send.
    destruct (network (env w) (ReqDeleteEq id)) as [d|msg|e]; unfold ret, console_warn.
    + match goal with
      | |- context [dequeue id ?w2] =>
          destruct (dequeue_data id w2) as (s' & -> & Ht & Ha & Hc)
      end.
      eexists. split; [reflexivity|]. simpl. repeat split; auto.
    + match goal with
      | |- context [dequeue id ?w2] =>
          destruct (dequeue_data id w2) as (s' & -> & Ht & Ha & Hc)
      end.
      eexists. split; [reflexivity|]. simpl. repeat split; auto.
    + eexists. split; [reflexivity|]. simpl. repeat split; auto.
  - match goal with
    | |- context [dequeue id ?w2] =>
        destruct (dequeue_data id w2) as (s' & -> & Ht & Ha & Hc)
    end.
    eexists. split; [reflexivity|]. simpl. repeat split; auto.
Qed.

Lemma live_delete_frame id w :
  env (snd (live_delete id w)) = env w /\
  state (snd (live_delete id w)) = state w /\
  sbUserIdRef (snd (live_delete id w)) = sbUserIdRef w /\
  lastSyncAtRef (snd (live_delete id w)) = lastSyncAtRef w /\
  isSyncingRef (snd (live_delete id w)) = isSyncingRef w /\
  Storage.TRANSACTIONS (storage (snd (live_delete id w))) = Storage.TRANSACTIONS (storage w) /\
  Storage.ACCOUNTS (storage (snd (live_delete id w))) = Storage.ACCOUNTS (storage w) /\
  Storage.CATEGORIES (storage (snd (live_delete id w))) = Storage.CATEGORIES (storage w).
Proof.
  destruct (live_delete_run id w) as (w' & -> & H). exact H.
Qed.

Lemma push_one_frame (label : string) tx (sbId : string) w :
  fst (push_one label tx sbId w) = Resolved tt /\
  env (snd (push_one label tx sbId w)) = env w /\
  storage (snd (push_one label tx sbId w)) = storage w /\
  state (snd (push_one label tx sbId w)) = state w /\
  sbUserIdRef (snd (push_one label tx sbId w)) = sbUserIdRef w /\
  lastSyncAtRef (snd (push_one label tx sbId w)) = lastSyncAtRef w /\
  isSyncingRef (snd (push_one label tx sbId w)) = isSyncingRef w.
Proof.
  unfold push_one, pushTransaction. run_async.
  destruct (configured (env w)); simpl; [|repeat split; auto].
  destruct (network (env w) _); simpl; repeat split; auto.
Qed.

Lemma getTransactions_save tx s :
  Storage.getTransactions (Storage.saveTransaction tx s) =
  upsert (@Transaction.id num) tx (Storage.getTransactions s).
Proof. now rewrite saveTransaction_as_upsert. Qed.

Lemma saveTransaction_others tx s :
  Storage.ACCOUNTS (Storage.saveTransaction tx s) = Storage.ACCOUNTS s /\
  Storage.CATEGORIES (Storage.saveTransaction tx s) = Storage.CATEGORIES s /\
  Storage.PENDING_DELETES (Storage.saveTransaction tx s) = Storage.PENDING_DELETES s.
Proof. now rewrite saveTransaction_as_upsert. Qed.

Lemma mutate_frame m w :
  fst (mutate m w) = Resolved tt /\
  Storage.getTransactions (storage (snd (mutate m w))) =
    local_effect m (Storage.getTransactions (storage w)) /\
  transactions (state (snd (mutate m w))) = local_effect m (transactions (state w)) /\
  accounts (state (snd (mutate m w))) = accounts (state w) /\
  categories (state (snd (mutate m w))) = categories (state w) /\
  Storage.ACCOUNTS (storage (snd (mutate m w))) = Storage.ACCOUNTS (storage w) /\
  Storage.CATEGORIES (storage (snd (mutate m w))) = Storage.CATEGORIES (storage w) /\
  env (snd (mutate m w)) = env w /\
  sbUserIdRef (snd (mutate m w)) = sbUserIdRef w /\
  lastSyncAtRef (snd (mutate m w)) = lastSyncAtRef w /\
  isSyncingRef (snd (mutate m w)) = isSyncingRef w.
Proof.
  assert (Hadd : forall label tx,
    let p := (write (Storage.saveTransaction tx) ;;
              dispatch (UPSERT_TRANSACTION tx) ;;
              (fun w0 : World num =>
                 if truthy (sbUserIdRef w0)
                 then push_one label tx (nullish (sbUserIdRef w0) "") w0
                 else (Resolved tt, w0))) in
    fst (p w) = Resolved tt /\
    Storage.getTransactions (storage (snd (p w))) =
      upsert (@Transaction.id num) tx (Storage.getTransactions (storage w)) /\
    transactions (state (snd (p w))) =
      upsert (@Transaction.id num) tx (transactions (state w)) /\
    accounts (state (snd (p w))) = accounts (state w) /\
    categories (state (snd (p w))) = categories (state w) /\
    Storage.ACCOUNTS (storage (snd (p w))) = Storage.ACCOUNTS (storage w) /\
    Storage.CATEGORIES (storage (snd (p w))) = Storage.CATEGORIES (storage w) /\
    env (snd (p w)) = env w /\
    sbUserIdRef (snd (p w)) = sbUserIdRef w /\
    lastSyncAtRef (snd (p w)) = lastSyncAtRef w /\
    isSyncingRef (snd (p w)) = isSyncingRef w).
  { intros label tx p. subst p. unfold bind, write, dispatch. simpl.
    destruct (saveTransaction_others tx (storage w)) as (Ha & Hc & _).
    destruct (truthy (sbUserIdRef w)).
    - match goal with
      | |- context [push_one label tx ?u ?w1] =>
          destruct (push_one_frame label tx u w1) as (Hr & H1 & H2 & H3 & H4 & H5 & H6);
          destruct (push_one label tx u w1) as [r w2]
      end.
      simpl in *. subst r. rewrite H1, H2, H3, H4, H5, H6. simpl.
      rewrite getTransactions_save. repeat split; auto.
    - simpl. rewrite getTransactions_save. repeat split; auto. }
  destruct m as [tx|tx|id]; simpl.
  - apply Hadd.
  - apply Hadd.
  - unfold removeTransaction, removeTransaction_local.
    unfold bind, write, dispatch, fire_and_forget. simpl.
    destruct (truthy (sbUserIdRef w)).
    + match goal with
      | |- context [live_delete id ?w1] =>
          destruct (live_delete_frame id w1) as (H1 & H2 & H3 & H4 & H5 & H6 & H7 & H8);
          destruct (live_delete id w1) as [r w2]
      end.
      simpl in *.
      destruct (addPendingDelete_data id
                  (Storage.deleteTransaction id (storage w))) as (Ht & Ha & Hc).
      unfold Storage.getTransactions.
      rewrite H1, H2, H3, H4, H5, H6, H7, H8, Ht, Ha, Hc. simpl.
      repeat split; auto.
    + simpl. repeat split; auto.
Qed.

(** X15.  Local first: whatever the session (guest or signed in) and
    whatever the remote service does (accept, report an error, reject),
    a call to [addTransaction], [updateTransaction] or
    [removeTransaction] resolves, and the in-memory transactions
    afterwards are the upsert, or the removal, applied to what they were;
    so are the stored transactions, for a record whose amount JSON
    carries unchanged.  Accounts, categories and the session references
    are not written. *)
Theorem mutation_local_first {J : JsonNumber num} m w :
  fst (mutate m w) = Resolved tt /\
  (json_safe_mutation m ->
   Storage.getTransactions (storage (snd (mutate m w))) =
     local_effect m (Storage.getTransactions (storage w))) /\
  transactions (state (snd (mutate m w))) = local_effect m (transactions (state w)) /\
  accounts (state (snd (mutate m w))) = accounts (state w) /\
  categories (state (snd (mutate m w))) = categories (state w) /\
  Storage.ACCOUNTS (storage (snd (mutate m w))) = Storage.ACCOUNTS (storage w) /\
  Storage.CATEGORIES (storage (snd (mutate m w))) = Storage.CATEGORIES (storage w) /\
  env (snd (mutate m w)) = env w /\
  sbUserIdRef (snd (mutate m w)) = sbUserIdRef w /\
  lastSyncAtRef (snd (mutate m w)) = lastSyncAtRef w /\
  isSyncingRef (snd (mutate m w)) = isSyncingRef w.
Proof.
  destruct (mutate_frame m w) as (H1 & H2 & H3).
  split; [exact H1|]. split; [intros _; exact H2 | exact H3].
Qed.

(** ** What a signed-in mutation sends *)

Lemma live_delete_requests id w :
  configured (env w) = true ->
  requests (snd (live_delete id w)) = requests w ++ [ReqDeleteEq id].
Proof.
  intro Hc. unfold live_delete, catch, deleteRemoteTransaction. unfold bind at 1.
  unfold with_supabase. rewrite Hc. unfold bind at 1. unfold send.
  destruct (network (env w) (ReqDeleteEq id)) as [d|msg|e]; unfold ret, console_warn.
  - match goal with
    | |- context [dequeue id ?w2] =>
        destruct (dequeue_data id w2) as (s' & -> & _)
    end. reflexivity.
  - match goal with
    | |- context [dequeue id ?w2] =>
        destruct (dequeue_data id w2) as (s' & -> & _)
    end. reflexivity.
  - reflexivity.
Qed.

(** X16.  In a signed-in, configured session each mutation sends exactly
    one query, after its local write: the upsert of the record's row for
    [addTransaction] and [updateTransaction], with the names of category
    and account looked up in the store at that moment, and the delete of
    the id for [removeTransaction]. *)
Theorem signed_in_mutation_sends_one m w (uid : string) :
  sbUserIdRef w = Some uid ->
  uid <> "" ->
  configured (env w) = true ->
  sent_since w (snd (mutate m w)) =
  [match m with
   | Add tx | Update tx =>
       ReqUpsertRow
         (toRow tx uid
            (Storage.getCategories (defaults (env w)) (storage w))
            (Storage.getAccounts (defaults (env w)) (storage w)))
   | Remove id => ReqDeleteEq id
   end].
Proof.
  intros Hu Hne Hc.
  assert (Ht : truthy (Some uid) = true).
  { simpl. apply negb_true_iff. now apply String.eqb_neq. }
  apply sent_since_app.
  assert (Hadd : forall label tx,
    requests (snd ((write (Storage.saveTransaction tx) ;;
                    dispatch (UPSERT_TRANSACTION tx) ;;
                    (fun w0 : World num =>
                       if truthy (sbUserIdRef w0)
                       then push_one label tx (nullish (sbUserIdRef w0) "") w0
                       else (Resolved tt, w0))) w)) =
    requests w ++
    [ReqUpsertRow (toRow tx uid
       (Storage.getCategories (defaults (env w)) (storage w))
       (Storage.getAccounts (defaults (env w)) (storage w)))]).
  { intros label tx. unfold bind, write, dispatch. simpl. rewrite Hu, Ht.
    unfold push_one, pushTransaction. run_async. rewrite Hc.
    destruct (saveTransaction_others tx (storage w)) as (Ha & Hcat & _).
    unfold Storage.getCategories, Storage.getAccounts. rewrite Ha, Hcat.
    now destruct (network (env w) _). }
  destruct m as [tx|tx|id]; simpl.
  - apply Hadd.
  - apply Hadd.
  - unfold removeTransaction, removeTransaction_local.
    unfold bind, write, dispatch, fire_and_forget. simpl. rewrite Hu, Ht. simpl.
    now rewrite live_delete_requests.
Qed.

(** ** The in-memory state mirrors the local store *)

Lemma loadAll_mirrors w : mirrors (snd (loadAll w)).
Proof. unfold loadAll, mirrors. run_async. auto. Qed.

Lemma local_call_mirrors (c : LocalCall (num:=num)) w :
  mirrors w -> mirrors (snd (local_call c w)).
Proof.
  intros (Ht & Ha & Hc).
  assert (Hmut : forall m, mirrors (snd (mutate m w))).
  { intro m.
    destruct (mutate_frame m w)
      as (_ & Hst & Hmem & Hacc & Hcat & Hka & Hkc & Henv & _).
    unfold mirrors, Storage.getAccounts, Storage.getCategories.
    rewrite Hst, Hmem, Hacc, Hcat, Hka, Hkc, Henv, Ht.
    repeat split; auto. }
  destruct c as [tx|tx|id|a|a|id|c|c|id|]; simpl.
  - apply (Hmut (Add tx)).
  - apply (Hmut (Update tx)).
  - apply (Hmut (Remove id)).
  - unfold addAccount, mirrors. run_async. rewrite saveAccount_as_upsert. simpl.
    rewrite Ha. repeat split; auto.
  - unfold updateAccount, mirrors. run_async. rewrite saveAccount_as_upsert. simpl.
    rewrite Ha. repeat split; auto.
  - unfold removeAccount, mirrors. run_async.
    rewrite getTransactions_deleteAccount. rewrite Ht, Ha. repeat split; auto.
  - unfold addCategory, mirrors. run_async. rewrite saveCategory_as_upsert. simpl.
    rewrite Hc. repeat split; auto.
  - unfold updateCategory, mirrors. run_async. rewrite saveCategory_as_upsert. simpl.
    rewrite Hc. repeat split; auto.
  - unfold removeCategory, mirrors. run_async. rewrite Hc. repeat split; auto.
  - apply loadAll_mirrors.
Qed.

(** X17.  The in-memory state mirrors the local store.  [loadAll] makes
    the transactions, accounts and categories in memory equal to what the
    store's getters give, from any world; and every entry point that
    works on the local store (the three mutations of transactions, the
    six of accounts and categories, and the refresh), in any sequence,
    in any session and whatever the remote service does, keeps them
    equal, as long as the numbers of the records saved and of the
    default tables are ones that JSON carries unchanged. *)
Theorem state_mirrors_store {J : JsonNumber num} (cs : list (LocalCall (num:=num))) w :
  mirrors (snd (loadAll w)) /\
  (json_safe_defaults (defaults (env w)) ->
   Forall json_safe_call cs ->
   mirrors w -> mirrors (local_calls cs w)).
Proof.
  split; [apply loadAll_mirrors|]. intros _ _.
  unfold local_calls. revert w. induction cs as [|c cs IH]; intros w H; simpl; auto.
  apply IH. now apply local_call_mirrors.
Qed.

(** X18.  Accounts and categories are never propagated: adding, updating
    or removing one, and the refresh, resolve without sending a query or
    printing a warning and without writing the pending-deletes queue, in
    a signed-in session too; so the transactions that [removeAccount]
    cascades away are not queued for remote deletion. *)
Theorem accounts_categories_stay_local (account : Account num) (category : Category num)
    (id : string) w :
  stays_local (addAccount account) w /\
  stays_local (updateAccount account) w /\
  stays_local (removeAccount id) w /\
  stays_local (addCategory category) w /\
  stays_local (updateCategory category) w /\
  stays_local (removeCategory id) w /\
  stays_local loadAll w.
Proof.
  unfold stays_local, addAccount, updateAccount, removeAccount, addCategory,
    updateCategory, removeCategory, loadAll; run_async;
    rewrite ?saveAccount_as_upsert, ?saveCategory_as_upsert, ?initializeStorage_PENDING;
    repeat split; auto.
Qed.

(** ** A pass with nothing queued *)

Lemma sync_flush_empty w : queue w = [] -> sync_flush_deletes w = (Resolved tt, w).
Proof.
  unfold queue, sync_flush_deletes. intro H. unfold bind, read. now rewrite H.
Qed.

Lemma pulled_env (uid : string) w w1 : env w1 = env w -> pulled uid w1 = pulled uid w.
Proof.
  intro H. unfold pulled, fetchRemoteTransactions. run_async. rewrite H.
  destruct (configured (env w)); auto.
  now destruct (network (env w) (ReqSelectEq uid)).
Qed.

Lemma fetch_run (uid : string) w :
  (forall e, network (env w) (ReqSelectEq uid) <> RespThrow e) ->
  exists w2,
    fetchRemoteTransactions uid w = (Resolved (pulled uid w), w2) /\ steady w w2.
Proof.
  intro Hn. unfold pulled, fetchRemoteTransactions, steady. run_async.
  destruct (configured (env w)).
  - destruct (network (env w) (ReqSelectEq uid)) as [d|msg|e] eqn:E; simpl.
    + eexists. split; [reflexivity|]. simpl. repeat split; auto.
    + eexists. split; [reflexivity|]. simpl. repeat split; auto.
    + exfalso. exact (Hn e eq_refl).
  - exists w. repeat split; auto.
Qed.

Lemma performSync_empty_queue (uid : string) w :
  isSyncingRef w = false ->
  queue w = [] ->
  (forall rows e, network (env w) (ReqUpsertRows rows) <> RespThrow e) ->
  (forall e, network (env w) (ReqSelectEq uid) <> RespThrow e) ->
  exists w',
    performSync uid w = (Resolved tt, w') /\
    storage w' =
      Storage.setTransactions
        (mergeTransactions (Storage.getTransactions (storage w)) (pulled uid w))
        (storage w) /\
    transactions (state w') =
      mergeTransactions (Storage.getTransactions (storage w)) (pulled uid w) /\
    accounts (state w') = accounts (state w) /\
    categories (state w') = categories (state w) /\
    loading (state w') = loading (state w) /\
    lastSyncAtRef w' = clock w /\
    isSyncingRef w' = false /\
    env w' = env w /\
    sbUserIdRef w' = sbUserIdRef w /\
    clock w' = clock w.
Proof.
  intros Hs Hq Hup Hsel.
  destruct (@sync_push_run _ uid (set_isSyncingRef true w) Hup)
    as (w1 & pushed & Hp & Hst & _ & _).
  destruct Hst as (Henv & Hsto & Hclk & Hstate & Hid & Hlast & Hsync).
  simpl in Henv, Hsto, Hclk, Hstate, Hid, Hlast, Hsync, Hp.
  assert (Hq1 : queue w1 = []) by (unfold queue; now rewrite Hsto).
  assert (Hsel1 : forall e, network (env w1) (ReqSelectEq uid) <> RespThrow e)
    by (now rewrite Henv).
  destruct (fetch_run uid w1 Hsel1) as (w2 & Hf & Hst2).
  destruct Hst2 as (Henv2 & Hsto2 & Hclk2 & Hstate2 & Hid2 & Hlast2 & Hsync2).
  unfold performSync. rewrite Hs. unfold try_finally. unfold bind at 1. rewrite Hp.
  unfold bind at 1. rewrite (sync_flush_empty w1 Hq1).
  unfold sync_pull. unfold bind at 1. rewrite Hf.
  unfold bind, write, dispatch. simpl.
  eexists. split; [reflexivity|]. simpl.
  rewrite (@pulled_env uid w w1 Henv), Hsto2, Hsto, Hstate2, Hstate, Hclk2, Hclk,
    Henv2, Henv, Hid2, Hid.
  repeat split; auto.
Qed.

Lemma in_ids_merge (A B : list (Transaction num)) (x : string) :
  In x (ids A) -> In x (ids (mergeTransactions A B)).
Proof.
  intro Hin. unfold mergeTransactions.
  rewrite ids_values by apply well_keyed_merge_map.
  destruct (in_dec string_dec x (JsMap.keys (merge_map A B))) as [H|H]; auto.
  exfalso. apply get_none_keys in H. rewrite get_merge_map in H.
  assert (Hne : with_id x A <> []).
  { unfold ids in Hin. apply in_map_iff in Hin. destruct Hin as (a & Ha & Hin).
    intro E. assert (Hin' : In a (with_id x A)) by (apply in_with_id; auto).
    rewrite E in Hin'. destruct Hin'. }
  assert (Hseed : forall l (c : option (Transaction num)),
             l <> [] -> fold_left (fun _ tx => Some tx) l c <> None).
  { induction l as [|y l IH]; intros c Hl; [congruence|]. simpl.
    destruct l as [|z l]; [simpl; discriminate|]. apply IH. discriminate. }
  assert (Hpick : forall l (c : option (Transaction num)),
             c <> None -> fold_left pick l c <> None).
  { induction l as [|y l IH]; intros c Hc; simpl; auto.
    apply IH. unfold pick. destruct c as [e|]; [|congruence].
    destruct (Js.ge _ _); discriminate. }
  exact (Hpick _ _ (Hseed _ None Hne) H).
Qed.

(** X19.  A pass with nothing queued, whose push and pull are not
    rejected, completes: it resolves; the stored transactions and the
    transactions in memory both become the merge of the stored list with
    the rows pulled; no id that was stored is lost; accounts and
    categories are not written and a state that mirrored the store still
    does; the time of the pass is noted and the guard is released.  When
    the pull reports an error the rows pulled are none, and a stored list
    with distinct ids is left as it was. *)
Theorem sync_pass_completes (uid : string) w :
  isSyncingRef w = false ->
  queue w = [] ->
  (forall rows e, network (env w) (ReqUpsertRows rows) <> RespThrow e) ->
  (forall e, network (env w) (ReqSelectEq uid) <> RespThrow e) ->
  fst (performSync uid w) = Resolved tt /\
  Storage.getTransactions (storage (snd (performSync uid w))) =
    mergeTransactions (Storage.getTransactions (storage w)) (pulled uid w) /\
  transactions (state (snd (performSync uid w))) =
    mergeTransactions (Storage.getTransactions (storage w)) (pulled uid w) /\
  (forall x, In x (ids (Storage.getTransactions (storage w))) ->
             In x (ids (Storage.getTransactions (storage (snd (performSync uid w)))))) /\
  (mirrors w -> mirrors (snd (performSync uid w))) /\
  lastSyncAtRef (snd (performSync uid w)) = clock w /\
  isSyncingRef (snd (performSync uid w)) = false /\
  queue (snd (performSync uid w)) = [] /\
  ((exists msg, configured (env w) = true /\
                network (env w) (ReqSelectEq uid) = RespError msg) ->
   NoDup (ids (Storage.getTransactions (storage w))) ->
   Storage.getTransactions (storage (snd (performSync uid w))) =
     Storage.getTransactions (storage w)).
Proof.
  intros Hs Hq Hup Hsel.
  destruct (performSync_empty_queue uid w Hs Hq Hup Hsel)
    as (w' & -> & Hsto & Htx & Hacc & Hcat & Hload & Hlast & Hsync & Henv & Hid & Hclk).
  simpl. rewrite Hsto. simpl.
  change (Storage.getTransactions
            (Storage.setTransactions
               (mergeTransactions (Storage.getTransactions (storage w)) (pulled uid w))
               (storage w)))
    with (mergeTransactions (Storage.getTransactions (storage w)) (pulled uid w)).
  repeat split; auto.
  - intros x Hx. now apply in_ids_merge.
  - rewrite Hsto. auto.
  - rewrite Hacc. destruct H as (_ & Ha & _). rewrite Ha, Henv, Hsto. reflexivity.
  - rewrite Hcat. destruct H as (_ & _ & Hc). rewrite Hc, Henv, Hsto. reflexivity.
  - unfold queue. rewrite Hsto. exact Hq.
  - intros (msg & Hc & Hmsg) Hnd.
    assert (Hp : pulled uid w = []).
    { unfold pulled, fetchRemoteTransactions. run_async. now rewrite Hc, Hmsg. }
    rewrite Hp. unfold mergeTransactions, merge_map. simpl.
    rewrite seed_distinct by auto. apply values_keyed.
Qed.

(** X20.  A pass whose pull is rejected changes nothing locally: with
    nothing queued and the push not rejected, the pass is rejected with
    what the fetch threw, the local store and the in-memory state are as
    before, the time of the last sync is not moved, and the guard is
    released for the next pass. *)
Theorem sync_pass_pull_rejected (uid e : string) w :
  isSyncingRef w = false ->
  queue w = [] ->
  configured (env w) = true ->
  (forall rows e', network (env w) (ReqUpsertRows rows) <> RespThrow e') ->
  network (env w) (ReqSelectEq uid) = RespThrow e ->
  fst (performSync uid w) = Rejected e /\
  storage (snd (performSync uid w)) = storage w /\
  state (snd (performSync uid w)) = state w /\
  lastSyncAtRef (snd (performSync uid w)) = lastSyncAtRef w /\
  isSyncingRef (snd (performSync uid w)) = false.
Proof.
  intros Hs Hq Hc Hup Hsel.
  destruct (@sync_push_run _ uid (set_isSyncingRef true w) Hup)
    as (w1 & pushed & Hp & Hst & _ & _).
  destruct Hst as (Henv & Hsto & Hclk & Hstate & Hid & Hlast & Hsync).
  simpl in Henv, Hsto, Hclk, Hstate, Hid, Hlast, Hsync, Hp.
  assert (Hq1 : queue w1 = []) by (unfold queue; now rewrite Hsto).
  assert (E : performSync uid w =
              (Rejected e,
               set_isSyncingRef false
                 (set_requests (requests w1 ++ [ReqSelectEq uid]) w1))).
  { unfold performSync. rewrite Hs. unfold try_finally. unfold bind at 1. rewrite Hp.
    unfold bind at 1. rewrite (sync_flush_empty w1 Hq1).
    unfold sync_pull, fetchRemoteTransactions. run_async.
    now rewrite Henv, Hc, Hsel. }
  rewrite E. simpl. repeat split; auto.
Qed.

(** X21.  The foreground listener never rejects, and the cooldown counts
    from the last completed pass: after a pass that completed at clock
    [clock w], a return to the foreground at any time [t] less than
    [SYNC_COOLDOWN_MS] (120000 ms) later does nothing at all. *)
Theorem foreground_cooldown (uid nextState : string) w :
  isSyncingRef w = false ->
  queue w = [] ->
  (forall rows e, network (env w) (ReqUpsertRows rows) <> RespThrow e) ->
  (forall e, network (env w) (ReqSelectEq uid) <> RespThrow e) ->
  (forall w0, fst (onAppStateChange nextState w0) = Resolved tt) /\
  forall t : Z,
    (t - clock w < 120000)%Z ->
    onAppStateChange nextState (set_clock t (snd (performSync uid w))) =
    (Resolved tt, set_clock t (snd (performSync uid w))).
Proof.
  intros Hs Hq Hup Hsel. split.
  - intro w0. unfold onAppStateChange.
    destruct (negb (String.eqb nextState "active")); auto.
    destruct (negb (truthy (sbUserIdRef w0))); auto.
    now destruct (clock w0 - lastSyncAtRef w0 <? SYNC_COOLDOWN_MS)%Z.
  - intros t Ht.
    destruct (performSync_empty_queue uid w Hs Hq Hup Hsel)
      as (w' & -> & _ & _ & _ & _ & _ & Hlast & _).
    simpl. unfold onAppStateChange.
    destruct (negb (String.eqb nextState "active")); auto.
    destruct (negb (truthy _)); auto.
    simpl. rewrite Hlast.
    assert (Hlt : (t - clock w <? SYNC_COOLDOWN_MS)%Z = true).
    { apply Z.ltb_lt. unfold SYNC_COOLDOWN_MS. lia. }
    now rewrite Hlt.
Qed.

Lemma sync_push_requests (uid : string) w :
  configured (env w) = true ->
  requests (snd (sync_push uid w)) =
  requests w ++
  match Storage.getTransactions (storage w) with
  | [] => []
  | txs =>
      [ReqUpsertRows
         (map (fun tx => toRow tx uid
                           (Storage.getCategories (defaults (env w)) (storage w))
                           (Storage.getAccounts (defaults (env w)) (storage w)))
              txs)]
  end.
Proof.
  intro Hc. unfold sync_push, pushTransactionsBatch. run_async. rewrite Hc.
  destruct (Storage.getTransactions (storage w)) as [|tx0 txs].
  - simpl. now rewrite app_nil_r.
  - now destruct (network (env w) _).
Qed.

(** X22.  What a pass with nothing queued sends, in a configured session
    and with the push not rejected: the stored transactions as one batch
    of rows, and no batch at all when nothing is stored; then the select
    of the owner's rows; and nothing else.  The push comes before the
    pull. *)
Theorem sync_pass_queries (uid : string) w :
  isSyncingRef w = false ->
  queue w = [] ->
  configured (env w) = true ->
  (forall rows e, network (env w) (ReqUpsertRows rows) <> RespThrow e) ->
  sent_since w (snd (performSync uid w)) =
  match Storage.getTransactions (storage w) with
  | [] => []
  | txs =>
      [ReqUpsertRows
         (map (fun tx => toRow tx uid
                           (Storage.getCategories (defaults (env w)) (storage w))
                           (Storage.getAccounts (defaults (env w)) (storage w)))
              txs)]
  end ++ [ReqSelectEq uid].
Proof.
  intros Hs Hq Hc Hup.
  destruct (@sync_push_run _ uid (set_isSyncingRef true w) Hup)
    as (w1 & pushed & Hp & Hst & _ & _).
  pose proof (sync_push_requests uid (set_isSyncingRef true w) Hc) as Hreq.
  rewrite Hp in Hreq. simpl in Hreq.
  destruct Hst as (Henv & Hsto & Hclk & Hstate & Hid & Hlast & Hsync).
  simpl in Henv, Hsto, Hclk, Hstate, Hid, Hlast, Hsync, Hp.
  assert (Hq1 : queue w1 = []) by (unfold queue; now rewrite Hsto).
  apply sent_since_app.
  unfold performSync. rewrite Hs. unfold try_finally. unfold bind at 1. rewrite Hp.
  unfold bind at 1. rewrite (sync_flush_empty w1 Hq1).
  unfold sync_pull, fetchRemoteTransactions. run_async.
  rewrite Henv, Hc.
  destruct (network (env w) (ReqSelectEq uid)) as [d|msg|e] eqn:E; simpl;
    rewrite Hreq; now rewrite app_assoc.
Qed.

End OrchestratorMore.

(** ** Balances and the transactions of other accounts *)

Section BalanceMore.
Context {num : Type} `{JsNumber num}.

(** X23.  The balance of an account reads only the transactions that
    name it, in every arithmetic, binary64 included: leaving out the
    transactions that name the account neither as their account nor as
    the destination of a transfer gives the same balance, and a list in
    which no transaction names the account gives the initial balance. *)
Theorem balance_reads_own_transactions (account : Account num)
    (txs : list (Transaction num)) :
  Storage.computeAccountBalance account (filter (Storage.touches account) txs) =
    Storage.computeAccountBalance account txs /\
  (Forall (fun tx => Storage.touches account tx = false) txs ->
   Storage.computeAccountBalance account txs = Account.initialBalance account).
Proof.
  unfold Storage.computeAccountBalance.
  assert (Hstep : forall b tx, Storage.touches account tx = false ->
                               Storage.balance_step account b tx = b).
  { intros b tx Ht. unfold Storage.touches in Ht. apply orb_false_iff in Ht.
    destruct Ht as [Ha Hto]. unfold Storage.balance_step. rewrite Ha, Hto.
    now destruct (Transaction.type tx). }
  split.
  - generalize (Account.initialBalance account).
    induction txs as [|tx txs IH]; intro b; simpl; auto.
    destruct (Storage.touches account tx) eqn:Et; simpl.
    + apply IH.
    + rewrite (Hstep b tx Et). apply IH.
  - generalize (Account.initialBalance account).
    induction txs as [|tx txs IH]; intros b Hall; simpl; auto.
    inversion Hall; subst. rewrite Hstep by auto. now apply IH.
Qed.

End BalanceMore.

(** ** The further properties on sample data *)

Lemma saveTransaction_upsert_witness :
  NoDup (ids (Storage.getTransactions (Storage.saveTransaction Sample.t3 Sample.used_store))) /\
  NoDup (ids (Storage.getTransactions (Storage.saveTransaction Sample.t1_new Sample.used_store))).
Proof.
  split.
  - apply (@saveTransaction_upsert Z _ Sample.t3 Sample.used_store);
      [reflexivity | distinct_ids].
  - apply (@saveTransaction_upsert Z _ Sample.t1_new Sample.used_store);
      [reflexivity | distinct_ids].
Defined.

Lemma saveTransaction_composes_witness :
  Storage.getTransactions
    (Storage.saveTransaction Sample.t1_new
       (Storage.deleteTransaction "t1" Sample.used_store)) =
  Storage.getTransactions (Storage.deleteTransaction "t1" Sample.used_store)
  ++ [Sample.t1_new].
Proof.
  apply (@saveTransaction_composes Z _ Sample.t1_new Sample.used_store). reflexivity.
Defined.

Lemma saveAccount_saveCategory_upsert_witness :
  Js.find (fun x => String.eqb (Account.id x) "acc-bank")
    (Storage.getAccounts Sample.two_defaults
       (Storage.saveAccount Sample.two_defaults (Sample.acc "acc-bank" 250%Z)
          Sample.used_store)) = Some (Sample.acc "acc-bank" 250%Z) /\
  Js.find (fun x => String.eqb (Category.id x) "cat-rent")
    (Storage.getCategories Sample.two_defaults
       (Storage.saveCategory Sample.two_defaults (Sample.category "cat-rent" "Rent")
          Sample.used_store)) = Some (Sample.category "cat-rent" "Rent").
Proof.
  destruct (@saveAccount_saveCategory_upsert Z _ Sample.two_defaults
              (Sample.acc "acc-bank" 250%Z) (Sample.category "cat-rent" "Rent")
              Sample.used_store) as ((Ha & _) & (Hc & _)).
  - split; repeat constructor.
  - reflexivity.
  - reflexivity.
  - exact (conj Ha Hc).
Defined.

Lemma mutation_local_first_witness :
  Storage.getTransactions
    (storage (snd (mutate (Add Sample.t3) Sample.signed_in_offline))) =
  [Sample.t1_old; Sample.t2; Sample.t3] /\
  Storage.getTransactions
    (storage (snd (mutate (Remove "t2") Sample.signed_in_offline))) =
  [Sample.t1_old].
Proof.
  destruct (@mutation_local_first Z _ (Add Sample.t3) Sample.signed_in_offline)
    as (_ & Hadd & _).
  destruct (@mutation_local_first Z _ (Remove "t2") Sample.signed_in_offline)
    as (_ & Hremove & _).
  split; [apply Hadd; reflexivity | apply Hremove; exact I].
Defined.

Lemma deleteTransaction_removes_witness :
  Storage.getTransactions (Storage.deleteTransaction "t7" Sample.used_store) =
  Storage.getTransactions Sample.used_store.
Proof.
  apply (@deleteTransaction_removes Z "t7" Sample.used_store).
  simpl. intuition discriminate.
Defined.

Lemma initializeStorage_keeps_data_witness :
  Storage.TRANSACTIONS (Storage.initializeStorage Sample.two_defaults Sample.used_store) =
    Storage.TRANSACTIONS Sample.used_store /\
  Storage.ACCOUNTS (Storage.initializeStorage Sample.two_defaults Sample.used_store) =
    Storage.ACCOUNTS Sample.used_store /\
  Storage.PENDING_DELETES (Storage.initializeStorage Sample.two_defaults Sample.used_store) =
    Storage.PENDING_DELETES Sample.used_store.
Proof.
  destruct (@initializeStorage_keeps_data Z Sample.two_defaults Sample.used_store)
    as (H1 & H2 & H3 & _); [reflexivity|].
  exact (conj H1 (conj H2 H3)).
Defined.

Lemma merge_by_id_witness :
  with_id "t1" (mergeTransactions [Sample.t1_old; Sample.t2] [Sample.t1_new; Sample.t3])
  = [Sample.t1_new] /\
  with_id "t2" (mergeTransactions [Sample.t1_old; Sample.t2] [Sample.t1_new; Sample.t3])
  = [Sample.t2] /\
  with_id "t3" (mergeTransactions [Sample.t1_old; Sample.t2] [Sample.t1_new; Sample.t3])
  = [Sample.t3].
Proof.
  destruct (@merge_by_id Z [Sample.t1_old; Sample.t2] [Sample.t1_new; Sample.t3])
    as (Hboth & Hlocal & Hremote); [distinct_ids | distinct_ids |].
  split; [|split].
  - apply (Hboth Sample.t1_old Sample.t1_new); simpl; auto.
  - apply (Hlocal Sample.t2); simpl; auto. intuition discriminate.
  - apply (Hremote Sample.t3); simpl; auto. intuition discriminate.
Defined.

Lemma merge_empty_witness :
  mergeTransactions [Sample.t1_old; Sample.t2] [] = [Sample.t1_old; Sample.t2] /\
  mergeTransactions [] [Sample.t1_old; Sample.t2] = [Sample.t1_old; Sample.t2].
Proof.
  apply (@merge_empty Z [Sample.t1_old; Sample.t2]). distinct_ids.
Defined.

Lemma merge_absorbs_witness :
  mergeTransactions
    (mergeTransactions [Sample.t1_old; Sample.t2] [Sample.t1_new; Sample.t3])
    [Sample.t1_new; Sample.t3] =
  mergeTransactions [Sample.t1_old; Sample.t2] [Sample.t1_new; Sample.t3].
Proof.
  apply (@merge_absorbs Z [Sample.t1_old; Sample.t2] [Sample.t1_new; Sample.t3]).
  distinct_ids.
Defined.

Lemma merge_order_witness :
  ids (mergeTransactions [Sample.t2; Sample.t1_old] [Sample.t3; Sample.t1_new]) =
  ["t2"; "t1"; "t3"].
Proof.
  apply (@merge_order Z [Sample.t2; Sample.t1_old] [Sample.t3; Sample.t1_new]);
    distinct_ids.
Defined.

Lemma merge_assoc_witness :
  mergeTransactions (mergeTransactions [Sample.t1_old; Sample.t2] [Sample.t1_new])
                    [Sample.t3; Sample.t1_latest] =
  mergeTransactions [Sample.t1_old; Sample.t2]
                    (mergeTransactions [Sample.t1_new] [Sample.t3; Sample.t1_latest]).
Proof.
  apply (@merge_assoc Z [Sample.t1_old; Sample.t2] [Sample.t1_new]
           [Sample.t3; Sample.t1_latest]); try distinct_ids.
  intros r [[<-|[<-|[]]]|[[<-|[]]|[<-|[<-|[]]]]]; eexists; reflexivity.
Defined.

Lemma signed_in_mutation_sends_one_witness :
  sent_since Sample.signed_in_online (snd (mutate (Add Sample.t3) Sample.signed_in_online)) =
    [ReqUpsertRow (toRow Sample.t3 "user-1" [] [])] /\
  sent_since Sample.signed_in_online (snd (mutate (Remove "t1") Sample.signed_in_online)) =
    [ReqDeleteEq "t1"].
Proof.
  split.
  - apply (@signed_in_mutation_sends_one Z (Add Sample.t3) Sample.signed_in_online "user-1");
      [reflexivity | discriminate | reflexivity].
  - apply (@signed_in_mutation_sends_one Z (Remove "t1") Sample.signed_in_online "user-1");
      [reflexivity | discriminate | reflexivity].
Defined.

Lemma state_mirrors_store_witness :
  mirrors (local_calls
             [CallAddTransaction Sample.t1_old;
              CallAddAccount (Sample.acc "acc-bank" 100%Z);
              CallRemoveTransaction "t1";
              CallRemoveAccount "acc-bank";
              CallAddCategory (Sample.category "cat-pets" "Pets");
              CallRefresh]
             Sample.signed_in_online).
Proof.
  apply (@state_mirrors_store Z _ _ Sample.signed_in_online).
  - split; constructor.
  - repeat constructor.
  - repeat split; reflexivity.
Defined.

Lemma sync_pass_completes_witness :
  Storage.getTransactions (storage (snd (performSync "user-1" Sample.signed_in_online))) =
    [Sample.t1_old; Sample.t2] /\
  lastSyncAtRef (snd (performSync "user-1" Sample.signed_in_online)) =
    clock Sample.signed_in_online.
Proof.
  destruct (@sync_pass_completes Z "user-1" Sample.signed_in_online)
    as (_ & Hst & _ & _ & _ & Hlast & _);
    [reflexivity | reflexivity | discriminate | discriminate |].
  split; [exact Hst | exact Hlast].
Defined.

Lemma sync_pass_pull_rejected_witness :
  fst (performSync "user-1" Sample.signed_in_pull_fails) = Rejected "AbortError: Aborted" /\
  storage (snd (performSync "user-1" Sample.signed_in_pull_fails)) =
    storage Sample.signed_in_pull_fails.
Proof.
  destruct (@sync_pass_pull_rejected Z "user-1" "AbortError: Aborted"
              Sample.signed_in_pull_fails) as (H1 & H2 & _);
    [reflexivity | reflexivity | reflexivity | discriminate | reflexivity |].
  exact (conj H1 H2).
Defined.

Lemma foreground_cooldown_witness :
  onAppStateChange "active"
    (set_clock 1772700119999%Z (snd (performSync "user-1" Sample.signed_in_online))) =
  (Resolved tt,
   set_clock 1772700119999%Z (snd (performSync "user-1" Sample.signed_in_online))).
Proof.
  apply (@foreground_cooldown Z "user-1" "active" Sample.signed_in_online);
    [reflexivity | reflexivity | discriminate | discriminate | reflexivity].
Defined.

Lemma sync_pass_queries_witness :
  sent_since Sample.signed_in_online (snd (performSync "user-1" Sample.signed_in_online)) =
  [ReqUpsertRows [toRow Sample.t1_old "user-1" [] []]; ReqSelectEq "user-1"].
Proof.
  apply (@sync_pass_queries Z "user-1" Sample.signed_in_online);
    [reflexivity | reflexivity | reflexivity | discriminate].
Defined.

Lemma balance_reads_own_transactions_witness :
  Storage.computeAccountBalance (Sample.acc "acc-savings" 0.1%float) Sample.cash_txs =
  0.1%float.
Proof.
  apply (@balance_reads_own_transactions float _ (Sample.acc "acc-savings" 0.1%float)
           Sample.cash_txs).
  repeat constructor.
Defined.

Lemma merge_from_inputs_witness :
  In Sample.t1_new [Sample.t1_old; Sample.t2] \/ In Sample.t1_new [Sample.t1_new; Sample.t3].
Proof.
  apply (@merge_from_inputs Z [Sample.t1_old; Sample.t2] [Sample.t1_new; Sample.t3]
           Sample.t1_new).
  simpl. auto.
Defined.
